(** * AI Problem Solver: the problem-solving pipeline

    A shallow embedding of the server side of the repository:

    - [server/models/User.js]            quota tracker ([User])
    - [server/services/aiService.js]     response parser and provider
                                          dispatch ([AIService])
    - [server/services/codeExecutor.js]  sandbox client ([CodeExecutor])
    - [server/middleware/auth.js]        admission gate ([checkQueryLimit])
    - [server/routes/problems.js]        the [POST /api/problems] handler

    JavaScript strings are sequences of UTF-16 code units, numbers that
    only ever hold counters and identifiers are integers, regular
    expressions are run by a small backtracking matcher, and the
    effectful code runs in a state-and-exception monad over a world of
    external services (AI providers, sandbox, document store). *)

From Stdlib Require Import ZArith NArith Lia Bool Ascii String.
From stdpp Require Import base numbers option list gmap strings sorting.

(** ** JavaScript strings *)

Module JS.

(** A string value: its UTF-16 code units. *)
Definition jsstring := list N.

(** A literal; used with ASCII text only. *)
Definition js (s : string) : jsstring :=
  (λ a, N_of_ascii a) <$> list_ascii_of_string s.

(** Truthiness of a string-or-undefined value: [undefined] and [''] are
    falsy. *)
Definition truthy (v : option jsstring) : bool :=
  match v with
  | Some (_ :: _) => true
  | _ => false
  end.

(** [a || b] on strings. *)
Definition or_else (v : option jsstring) (d : jsstring) : jsstring :=
  match v with
  | Some (c :: s) => c :: s
  | _ => d
  end.

Definition in_range (lo hi c : N) : bool := ((lo <=? c) && (c <=? hi))%N.

(** WhiteSpace and LineTerminator code units: what [\s] matches and what
    [String.prototype.trim] strips. *)
Definition isWhiteSpace (c : N) : bool :=
  in_range 9 13 c || (c =? 32)%N || (c =? 160)%N || (c =? 5760)%N
  || in_range 8192 8202 c || (c =? 8232)%N || (c =? 8233)%N
  || (c =? 8239)%N || (c =? 8287)%N || (c =? 12288)%N || (c =? 65279)%N.

(** [\d] *)
Definition isDigit (c : N) : bool := in_range 48 57 c.

(** [\w] *)
Definition isWord (c : N) : bool :=
  in_range 97 122 c || in_range 65 90 c || isDigit c || (c =? 95)%N.

Definition LF : N := 10%N.

(** [[^\n]] *)
Definition notLF (c : N) : bool := negb (c =? LF)%N.

Fixpoint trimStart (s : jsstring) : jsstring :=
  match s with
  | c :: s' => if isWhiteSpace c then trimStart s' else s
  | [] => []
  end.

Definition trimEnd (s : jsstring) : jsstring := rev (trimStart (rev s)).

Definition trim (s : jsstring) : jsstring := trimEnd (trimStart s).

Fixpoint startsWith (needle s : jsstring) : bool :=
  match needle, s with
  | [], _ => true
  | a :: needle', b :: s' => (a =? b)%N && startsWith needle' s'
  | _ :: _, [] => false
  end.

(** [s.indexOf(needle)], scanning from position [i]; -1 when absent. *)
Fixpoint indexOf_from (needle s : jsstring) (i : Z) : Z :=
  if startsWith needle s then i
  else match s with
       | [] => (-1)%Z
       | _ :: s' => indexOf_from needle s' (i + 1)%Z
       end.

Definition indexOf (needle s : jsstring) : Z := indexOf_from needle s 0%Z.

(** [s.substring(0, n)] for [0 <= n]. *)
Definition substring0 (s : jsstring) (n : Z) : jsstring := take (Z.to_nat n) s.

(** [s.split(sep)] for a one-unit separator: always at least one piece. *)
Fixpoint split (sep : N) (s : jsstring) : list jsstring :=
  match s with
  | [] => [[]]
  | c :: s' =>
      if (c =? sep)%N then [] :: split sep s'
      else match split sep s' with
           | piece :: pieces => (c :: piece) :: pieces
           | [] => [[c]]
           end
  end.

(** [pieces.join(sep)] *)
Fixpoint join (sep : N) (pieces : list jsstring) : jsstring :=
  match pieces with
  | [] => []
  | [p] => p
  | p :: ps => p ++ sep :: join sep ps
  end.

(** ASCII part of [String.prototype.toLowerCase]. *)
Definition lower_ascii (c : N) : N :=
  if in_range 65 90 c then (c + 32)%N else c.

End JS.

Export JS.

(** ** Regular expressions

    The fragment of the RegExp language the repository uses: character
    classes, a class under [*], [+], [*?] (greedy or lazy), capturing
    groups and the greedy optional [( )?].  Matching is the backtracking
    search of the language definition, written with continuations: a
    node is given the rest of the pattern as [k] and retries its
    alternatives, in priority order, until [k] accepts. *)

Module RegExp.

#[local] Set Warnings "-register-all".

Inductive node : Type :=
| Chr (p : N → bool)
| Rep (p : N → bool) (min : nat) (greedy : bool)
| Grp (i : nat) (body : list node)
| Opt (body : list node).

Abbreviation captures := (gmap nat jsstring).

(** What a successful match leaves: the unconsumed input and the
    captures. *)
Definition state : Type := jsstring * captures.

Definition cont := jsstring → captures → option state.

(** [p*], [p+] with [n] units already taken. *)
Fixpoint m_rep (p : N → bool) (min : nat) (greedy : bool)
    (caps : captures) (k : cont) (s : jsstring) (n : nat) : option state :=
  let stop := if (min <=? n)%nat then k s caps else None in
  let more :=
    match s with
    | c :: s' => if p c then m_rep p min greedy caps k s' (S n) else None
    | [] => None
    end in
  if greedy
  then match more with Some r => Some r | None => stop end
  else match stop with Some r => Some r | None => more end.

Fixpoint m_node (r : node) (s : jsstring) (caps : captures) (k : cont)
    {struct r} : option state :=
  let m_seq :=
    fix m_seq (rs : list node) (s : jsstring) (caps : captures) (k : cont)
        {struct rs} : option state :=
      match rs with
      | [] => k s caps
      | r' :: rs' => m_node r' s caps (λ s' caps', m_seq rs' s' caps' k)
      end in
  match r with
  | Chr p =>
      match s with
      | c :: s' => if p c then k s' caps else None
      | [] => None
      end
  | Rep p min greedy => m_rep p min greedy caps k s 0
  | Grp i body =>
      m_seq body s caps
        (λ s' caps', k s' (<[i := take (length s - length s') s]> caps'))
  | Opt body =>
      match m_seq body s caps k with
      | Some r => Some r
      | None => k s caps
      end
  end.

Fixpoint m_seq (rs : list node) (s : jsstring) (caps : captures) (k : cont)
    : option state :=
  match rs with
  | [] => k s caps
  | r' :: rs' => m_node r' s caps (λ s' caps', m_seq rs' s' caps' k)
  end.

(** One attempt, anchored at the start of [s]. *)
Definition match_at (re : list node) (s : jsstring) : option state :=
  m_seq re s ∅ (λ s' caps', Some (s', caps')).

(** The result array of [exec]: [index], [m[0]] and the groups. *)
Record MatchResult := {
  index : nat;
  matched : jsstring;
  groups : captures
}.

(** [m[i]]: the text group [i] captured, if it took part in the
    match. *)
Definition group (m : MatchResult) (i : nat) : option jsstring :=
  groups m !! i.

(** Leftmost match in [s], which starts at position [i] of the subject. *)
Fixpoint search (re : list node) (s : jsstring) (i : nat)
    : option MatchResult :=
  match match_at re s with
  | Some (rest, caps) =>
      Some {| index := i;
              matched := take (length s - length rest) s;
              groups := caps |}
  | None =>
      match s with
      | [] => None
      | _ :: s' => search re s' (S i)
      end
  end.

(** [re.exec(str)] for a [/g] expression whose [lastIndex] is given;
    returns the match and the new [lastIndex]. *)
Definition exec (re : list node) (str : jsstring) (lastIndex : nat)
    : option MatchResult * nat :=
  if (length str <? lastIndex)%nat then (None, 0%nat)
  else match search re (drop lastIndex str) lastIndex with
       | Some m => (Some m, (index m + length (matched m))%nat)
       | None => (None, 0%nat)
       end.

(** [re.test(str)] for an expression without [/g]. *)
Definition test (re : list node) (str : jsstring) : bool :=
  match search re str 0 with
  | Some _ => true
  | None => false
  end.

(** Pattern builders. *)
Definition chr (c : N) : node := Chr (λ x, (x =? c)%N).
Definition lit (s : string) : list node := chr <$> js s.
(** A literal under the [/i] flag (ASCII letters only fold). *)
Definition chr_i (c : N) : node := Chr (λ x, (lower_ascii x =? lower_ascii c)%N).
Definition lit_i (s : string) : list node := chr_i <$> js s.
Definition any : N → bool := λ _, true.

End RegExp.

Export RegExp.

(** ** Results of code that can throw

    [Throws] carries the message of the thrown [Error]; [OutOfFuel] is
    the result of a loop cut short by the model, and is shown never to
    occur. *)

Inductive outcome (A : Type) : Type :=
| Returns (a : A)
| Throws (message : jsstring)
| OutOfFuel.

Arguments Returns {A} a.
Arguments Throws {A} message.
Arguments OutOfFuel {A}.

(** ** server/services/aiService.js: the response parser *)

Module Parser.

Record Code := {
  language : jsstring;
  snippet : jsstring;
  optimizedVersion : jsstring
}.

Record Step := {
  stepNumber : Z;
  description : jsstring
}.

Record Sections := {
  explanation : jsstring;
  code : Code;
  steps : list Step;
  complexity : jsstring
}.

(** An element of the local array [codeBlocks]: [{language, code}]. *)
Record CodeBlock := {
  cb_language : jsstring;
  cb_code : jsstring
}.

Definition fence : jsstring := js "```".

(** [/```(\w+)?\n([\s\S]*?)```/g] *)
Definition codeBlockRegex : list node :=
  lit "```"
  ++ [Opt [Grp 1 [Rep isWord 1 true]]; chr LF; Grp 2 [Rep any 0 false]]
  ++ lit "```".

(** [/(\d+)\.\s+([^\n]+)/g] *)
Definition stepRegex : list node :=
  [Grp 1 [Rep isDigit 1 true]; chr 46; Rep isWhiteSpace 1 true;
   Grp 2 [Rep notLF 1 true]].

(** [undefined.trim()] *)
Definition TypeError_trim : jsstring :=
  js "Cannot read properties of undefined (reading 'trim')".

(** [while ((match = codeBlockRegex.exec(rawResponse)) !== null)
       codeBlocks.push({...})] *)
Fixpoint codeBlocks_loop (fuel : nat) (rawResponse : jsstring)
    (lastIndex : nat) (codeBlocks : list CodeBlock)
    : outcome (list CodeBlock) :=
  match fuel with
  | O => OutOfFuel
  | S fuel' =>
      match exec codeBlockRegex rawResponse lastIndex with
      | (None, _) => Returns codeBlocks
      | (Some m, lastIndex') =>
          match group m 2 with
          | None => Throws TypeError_trim
          | Some m2 =>
              codeBlocks_loop fuel' rawResponse lastIndex'
                (codeBlocks ++
                 [{| cb_language := or_else (group m 1) (js "text");
                     cb_code := trim m2 |}])
          end
      end
  end.

(** [while ((stepMatch = stepRegex.exec(rawResponse)) !== null)
       sections.steps.push({stepNumber: stepNumber++, ...})] *)
Fixpoint steps_loop (fuel : nat) (rawResponse : jsstring)
    (lastIndex : nat) (stepNumber : Z) (steps : list Step)
    : outcome (list Step) :=
  match fuel with
  | O => OutOfFuel
  | S fuel' =>
      match exec stepRegex rawResponse lastIndex with
      | (None, _) => Returns steps
      | (Some stepMatch, lastIndex') =>
          match group stepMatch 2 with
          | None => Throws TypeError_trim
          | Some m2 =>
              steps_loop fuel' rawResponse lastIndex' (stepNumber + 1)%Z
                (steps ++
                 [{| stepNumber := stepNumber; description := trim m2 |}])
          end
      end
  end.

(** The object [sections.code] after the code-block step. *)
Definition code_of_blocks (codeBlocks : list CodeBlock) : Code :=
  match codeBlocks with
  | [] => {| language := []; snippet := []; optimizedVersion := [] |}
  | b0 :: more =>
      {| language := cb_language b0;
         snippet := cb_code b0;
         optimizedVersion :=
           match more with
           | b1 :: _ => cb_code b1
           | [] => []
           end |}
  end.

Definition explanation_of (rawResponse : jsstring) : jsstring :=
  let firstCodeIndex := indexOf fence rawResponse in
  if (0 <? firstCodeIndex)%Z
  then trim (substring0 rawResponse firstCodeIndex)
  else trim (join LF (take 3 (split LF rawResponse))).

(** [parseResponse(rawResponse)], its two loops given [fuel] rounds
    each. *)
Definition parseResponse_fuel (fuel : nat) (rawResponse : jsstring)
    : outcome Sections :=
  match codeBlocks_loop fuel rawResponse 0 [] with
  | Returns codeBlocks =>
      match steps_loop fuel rawResponse 0 1%Z [] with
      | Returns steps =>
          Returns {| explanation := explanation_of rawResponse;
                     code := code_of_blocks codeBlocks;
                     steps := steps;
                     complexity := [] |}
      | Throws e => Throws e
      | OutOfFuel => OutOfFuel
      end
  | Throws e => Throws e
  | OutOfFuel => OutOfFuel
  end.

(** Each round of either loop moves [lastIndex] forward, so one round
    per code unit and a last one that finds nothing are enough. *)
Definition parseResponse (rawResponse : jsstring) : outcome Sections :=
  parseResponse_fuel (S (length rawResponse)) rawResponse.

End Parser.

(** ** server/models/User.js: the quota tracker *)

Module User.

(** A [Date]: its time value and the two local-calendar fields the
    methods below read ([getMonth] is zero-based). *)
Record Date := {
  getTime : Z;
  getFullYear : Z;
  getMonth : Z
}.

Inductive Plan := free | pro | enterprise.

Record ApiUsage := {
  totalQueries : Z;
  monthlyQueries : Z;
  lastResetDate : Date
}.

Record Subscription := {
  plan : Plan;
  queryLimit : Z
}.

Record User := {
  _id : nat;
  isActive : bool;
  apiUsage : ApiUsage;
  subscription : Subscription
}.

(** The schema defaults of a new account created at [created]. *)
Definition new_user (id : nat) (created : Date) : User :=
  {| _id := id;
     isActive := true;
     apiUsage := {| totalQueries := 0; monthlyQueries := 0;
                    lastResetDate := created |};
     subscription := {| plan := free; queryLimit := 50 |} |}.

(** [resetMonthlyQueries()] called when [new Date()] is [now]. *)
Definition resetMonthlyQueries (now : Date) (this : User) : User :=
  let lastReset := lastResetDate (apiUsage this) in
  if negb (getMonth now =? getMonth lastReset)%Z
     || negb (getFullYear now =? getFullYear lastReset)%Z
  then {| _id := _id this;
          isActive := isActive this;
          apiUsage := {| totalQueries := totalQueries (apiUsage this);
                         monthlyQueries := 0;
                         lastResetDate := now |};
          subscription := subscription this |}
  else this.

(** [canMakeQuery()]: the answer and the user object as the call leaves
    it. *)
Definition canMakeQuery (now : Date) (this : User) : bool * User :=
  let this' := resetMonthlyQueries now this in
  ((monthlyQueries (apiUsage this') <? queryLimit (subscription this'))%Z,
   this').

(** The two assignments of [incrementQueryCount()]. *)
Definition countQuery (this : User) : User :=
  {| _id := _id this;
     isActive := isActive this;
     apiUsage := {| totalQueries := totalQueries (apiUsage this) + 1;
                    monthlyQueries := monthlyQueries (apiUsage this) + 1;
                    lastResetDate := lastResetDate (apiUsage this) |};
     subscription := subscription this |}.

(** [incrementQueryCount()], given what [this.save()] does with the
    updated object: the outcome of the save and the user object. *)
Definition incrementQueryCount (save : User → outcome unit) (this : User)
    : outcome unit * User :=
  let this' := countQuery this in (save this', this').

(** A history of calls on one user object. *)
Inductive call :=
| CanMakeQuery (now : Date)
| IncrementQueryCount (save : User → outcome unit).

(** Runs the calls in order; returns the answers of the [canMakeQuery]
    calls and the final object. *)
Fixpoint run (calls : list call) (this : User) : list bool * User :=
  match calls with
  | [] => ([], this)
  | CanMakeQuery now :: calls' =>
      let '(answer, this') := canMakeQuery now this in
      let '(answers, this'') := run calls' this' in
      (answer :: answers, this'')
  | IncrementQueryCount save :: calls' =>
      run calls' (snd (incrementQueryCount save this))
  end.

End User.

(** ** Documents and external services *)

Module Model.

Export Parser.
Export User.

(** The fields of a problem the services read. *)
Record ProblemInput := {
  in_title : option jsstring;
  in_description : option jsstring;
  in_category : option jsstring;
  in_language : option jsstring;
  in_difficulty : option jsstring
}.

Record TokenUsage := {
  prompt : Z;
  completion : Z;
  total : Z
}.

(** What the two providers answer: the generated text, the usage
    envelope, and how long the request took (the difference of the two
    [Date.now()] readings around it). *)
Record OpenAIResponse := {
  content : jsstring;
  prompt_tokens : Z;
  completion_tokens : Z;
  total_tokens : Z;
  openai_elapsed : Z
}.

Record AnthropicResponse := {
  text : jsstring;
  input_tokens : Z;
  output_tokens : Z;
  anthropic_elapsed : Z
}.

(** The value of [languageIds[key]]: a Judge0 identifier, or a member
    inherited from [Object.prototype], or [undefined]. *)
Inductive LanguageId :=
| OwnId (id : Z)
| Inherited
| Undefined.

(** The body of the submission request. *)
Record Submission := {
  source_code : jsstring;
  language_id : LanguageId;
  stdin : jsstring;
  cpu_time_limit : Z;
  memory_limit : Z
}.

(** [response.data] of a result request. *)
Record RawResult := {
  status_id : Z;
  stdout : option jsstring;
  stderr : option jsstring;
  compile_output : option jsstring;
  time : option jsstring;
  memory : option Z;
  exit_code : option Z
}.

Inductive scalar :=
| Str (s : jsstring)
| Num (z : Z).

(** The object [formatResult] builds, and the shorter one the route
    stores when execution throws. *)
Record ExecutionResult := {
  status : jsstring;
  statusId : option Z;
  output : option jsstring;
  error : option jsstring;
  er_time : option jsstring;
  er_memory : option scalar;
  exitCode : option Z
}.

Inductive Status := pending | processing | solved | failed.

Record ProblemDoc := {
  p_user : nat;
  p_title : jsstring;
  p_description : jsstring;
  p_category : jsstring;
  p_language : option jsstring;
  p_difficulty : jsstring;
  p_tags : list jsstring;
  p_status : Status;
  p_solution : option nat
}.

Record SolutionDoc := {
  s_problem : nat;
  aiModel : jsstring;
  answer : jsstring;
  s_explanation : jsstring;
  s_code : Code;
  s_steps : list Step;
  executionResult : option ExecutionResult;
  tokenUsage : TokenUsage;
  processingTime : Z
}.

(** The services outside the process.  A rejected promise is [inl] of
    the error's message.  The sandbox may answer each result request
    differently, so it sees how many were made before; the document
    store may refuse any of its operations, counted the same way. *)
Record World := {
  now : Date;
  toLowerCase : jsstring → jsstring;
  openai_create : ProblemInput → jsstring + OpenAIResponse;
  anthropic : option (ProblemInput → jsstring + AnthropicResponse);
  RAPIDAPI_KEY : option jsstring;
  judge0_post : Submission → jsstring + jsstring;
  judge0_get : nat → jsstring → jsstring + RawResult;
  store_error : nat → option jsstring
}.

(** What a run does that can be seen from outside, oldest first. *)
Inductive event :=
| OpenAIRequest (p : ProblemInput)
| AnthropicRequest (p : ProblemInput)
| ExecuteCode (code language : jsstring)
| SubmissionPost (body : Submission)
| SubmissionGet (token : jsstring)
| Delay (ms : Z)
| ProblemCreate (id : nat)
| ProblemSave (id : nat)
| ProblemFind (id : nat)
| SolutionCreate (id : nat)
| SolutionSave (id : nat)
| UserSave (id : nat).

(** The process state of one request: the stored collections, the
    document objects the handler holds (by identifier), the user object
    [req.user], and the trace. *)
Record State := {
  db_problems : gmap nat ProblemDoc;
  db_solutions : gmap nat SolutionDoc;
  db_users : gmap nat User;
  problems : gmap nat ProblemDoc;
  solutions : gmap nat SolutionDoc;
  req_user : User;
  gets : nat;
  store_ops : nat;
  trace : list event
}.

Definition M (A : Type) : Type := State → outcome A * State.

Definition ret {A} (a : A) : M A := λ st, (Returns a, st).

Definition throw {A} (message : jsstring) : M A := λ st, (Throws message, st).

Definition bind {A B} (m : M A) (f : A → M B) : M B :=
  λ st,
    match m st with
    | (Returns a, st') => f a st'
    | (Throws e, st') => (Throws e, st')
    | (OutOfFuel, st') => (OutOfFuel, st')
    end.

(** [try { m } catch (e) { handler e }] *)
Definition try_catch {A} (m : M A) (handler : jsstring → M A) : M A :=
  λ st,
    match m st with
    | (Throws e, st') => handler e st'
    | r => r
    end.

Definition get_state : M State := λ st, (Returns st, st).

Definition put_state (st : State) : M unit := λ _, (Returns tt, st).

Definition lift {A} (o : outcome A) : M A := λ st, (o, st).

#[global] Instance M_ret : MRet M := @ret.
#[global] Instance M_bind : MBind M := λ A B f m, bind m f.

End Model.

Export Model.

(** ** The services *)

Section Services.

Variable W : World.

(** *** State helpers *)

Definition log (e : event) : M unit :=
  λ st, (Returns tt,
         {| db_problems := db_problems st; db_solutions := db_solutions st;
            db_users := db_users st; problems := problems st;
            solutions := solutions st; req_user := req_user st;
            gets := gets st; store_ops := store_ops st;
            trace := trace st ++ [e] |}).

(** One operation of the document store: it is refused with the
    store's error, or [write] is applied and [e] recorded. *)
Definition store_op (e : event) (write : State → State) : M unit :=
  λ st,
    let st1 :=
      {| db_problems := db_problems st; db_solutions := db_solutions st;
         db_users := db_users st; problems := problems st;
         solutions := solutions st; req_user := req_user st;
         gets := gets st; store_ops := S (store_ops st);
         trace := trace st |} in
    match store_error W (store_ops st) with
    | Some message => (Throws message, st1)
    | None => log e (write st1)
    end.

Definition with_db_problems (f : gmap nat ProblemDoc → gmap nat ProblemDoc)
    (st : State) : State :=
  {| db_problems := f (db_problems st); db_solutions := db_solutions st;
     db_users := db_users st; problems := problems st;
     solutions := solutions st; req_user := req_user st;
     gets := gets st; store_ops := store_ops st; trace := trace st |}.

Definition with_db_solutions (f : gmap nat SolutionDoc → gmap nat SolutionDoc)
    (st : State) : State :=
  {| db_problems := db_problems st; db_solutions := f (db_solutions st);
     db_users := db_users st; problems := problems st;
     solutions := solutions st; req_user := req_user st;
     gets := gets st; store_ops := store_ops st; trace := trace st |}.

Definition with_db_users (f : gmap nat User → gmap nat User)
    (st : State) : State :=
  {| db_problems := db_problems st; db_solutions := db_solutions st;
     db_users := f (db_users st); problems := problems st;
     solutions := solutions st; req_user := req_user st;
     gets := gets st; store_ops := store_ops st; trace := trace st |}.

Definition with_problems (f : gmap nat ProblemDoc → gmap nat ProblemDoc)
    (st : State) : State :=
  {| db_problems := db_problems st; db_solutions := db_solutions st;
     db_users := db_users st; problems := f (problems st);
     solutions := solutions st; req_user := req_user st;
     gets := gets st; store_ops := store_ops st; trace := trace st |}.

Definition with_solutions (f : gmap nat SolutionDoc → gmap nat SolutionDoc)
    (st : State) : State :=
  {| db_problems := db_problems st; db_solutions := db_solutions st;
     db_users := db_users st; problems := problems st;
     solutions := f (solutions st); req_user := req_user st;
     gets := gets st; store_ops := store_ops st; trace := trace st |}.

Definition with_req_user (f : User → User) (st : State) : State :=
  {| db_problems := db_problems st; db_solutions := db_solutions st;
     db_users := db_users st; problems := problems st;
     solutions := solutions st; req_user := f (req_user st);
     gets := gets st; store_ops := store_ops st; trace := trace st |}.

Definition modify (f : State → State) : M unit := λ st, (Returns tt, f st).

(** *** server/models/Problem.js: the two collections *)

(** [Problem.create(doc)]: the new document's identifier. *)
Definition Problem_create (doc : ProblemDoc) : M nat :=
  st ← get_state;
  let id := fresh (dom (db_problems st) ∪ dom (problems st)) in
  store_op (ProblemCreate id)
    (λ st, with_problems (insert id doc) (with_db_problems (insert id doc) st));;
  ret id.

(** [problem.save()] *)
Definition Problem_save (id : nat) : M unit :=
  store_op (ProblemSave id)
    (λ st, match problems st !! id with
           | Some doc => with_db_problems (insert id doc) st
           | None => st
           end).

(** [Problem.findById(id).populate(...)] *)
Definition Problem_findById (id : nat)
    : M (option (ProblemDoc * option SolutionDoc)) :=
  store_op (ProblemFind id) (λ st, st);;
  st ← get_state;
  ret (match db_problems st !! id with
       | Some doc => Some (doc, p_solution doc ≫= λ sid, db_solutions st !! sid)
       | None => None
       end).

(** [Solution.create(doc)] *)
Definition Solution_create (doc : SolutionDoc) : M nat :=
  st ← get_state;
  let id := fresh (dom (db_solutions st) ∪ dom (solutions st)) in
  store_op (SolutionCreate id)
    (λ st, with_solutions (insert id doc) (with_db_solutions (insert id doc) st));;
  ret id.

(** [solution.save()] *)
Definition Solution_save (id : nat) : M unit :=
  store_op (SolutionSave id)
    (λ st, match solutions st !! id with
           | Some doc => with_db_solutions (insert id doc) st
           | None => st
           end).

(** [req.user.incrementQueryCount()], with [save] writing to the
    store. *)
Definition req_user_incrementQueryCount : M unit :=
  modify (with_req_user countQuery);;
  st ← get_state;
  store_op (UserSave (_id (req_user st)))
    (λ st, with_db_users (insert (_id (req_user st)) (req_user st)) st).

(** *** server/services/aiService.js: provider dispatch *)

(** What [generateSolutionGPT] and [generateSolutionClaude] return. *)
Record ProviderResult := {
  pr_answer : jsstring;
  pr_model : jsstring;
  pr_tokenUsage : TokenUsage;
  pr_processingTime : Z
}.

(** What [generateSolution] returns. *)
Record AIResult := {
  ai_answer : jsstring;
  ai_explanation : jsstring;
  ai_code : Code;
  ai_steps : list Step;
  ai_aiModel : jsstring;
  ai_tokenUsage : TokenUsage;
  ai_processingTime : Z
}.

Definition generateSolutionGPT (problem : ProblemInput) : M ProviderResult :=
  try_catch
    (log (OpenAIRequest problem);;
     match openai_create W problem with
     | inl message => throw message
     | inr response =>
         ret {| pr_answer := content response;
                pr_model := js "gpt-4";
                pr_tokenUsage :=
                  {| prompt := prompt_tokens response;
                     completion := completion_tokens response;
                     total := total_tokens response |};
                pr_processingTime := openai_elapsed response |}
     end)
    (λ error, throw (js "AI service error: " ++ error)).

Definition generateSolutionClaude (problem : ProblemInput)
    : M ProviderResult :=
  match anthropic W with
  | None => throw (js "Anthropic API key not configured")
  | Some messages_create =>
      try_catch
        (log (AnthropicRequest problem);;
         match messages_create problem with
         | inl message => throw message
         | inr response =>
             ret {| pr_answer := text response;
                    pr_model := js "claude-3";
                    pr_tokenUsage :=
                      {| prompt := input_tokens response;
                         completion := output_tokens response;
                         total := (input_tokens response
                                   + output_tokens response)%Z |};
                    pr_processingTime := anthropic_elapsed response |}
         end)
        (λ error, throw (js "AI service error: " ++ error))
  end.

(** [generateSolution(problem, aiModel = 'gpt-4')]; [None] is an
    omitted argument. *)
Definition generateSolution (problem : ProblemInput)
    (aiModel : option jsstring) : M AIResult :=
  let aiModel := default (js "gpt-4") aiModel in
  try_catch
    (result ←
       (if bool_decide (aiModel = js "claude-3")
           || bool_decide (aiModel = js "claude-2")
        then generateSolutionClaude problem
        else generateSolutionGPT problem);
     parsed ← lift (parseResponse (pr_answer result));
     ret {| ai_answer := pr_answer result;
            ai_explanation := explanation parsed;
            ai_code := code parsed;
            ai_steps := steps parsed;
            ai_aiModel := pr_model result;
            ai_tokenUsage := pr_tokenUsage result;
            ai_processingTime := pr_processingTime result |})
    (λ error, throw error).

(** *** server/services/codeExecutor.js *)

Definition languageIds : gmap jsstring Z :=
  list_to_map
    [(js "javascript", 63%Z); (js "python", 71%Z); (js "java", 62%Z);
     (js "cpp", 54%Z); (js "c", 50%Z); (js "csharp", 51%Z);
     (js "ruby", 72%Z); (js "go", 60%Z); (js "rust", 73%Z);
     (js "php", 68%Z); (js "swift", 83%Z); (js "kotlin", 78%Z);
     (js "typescript", 74%Z)].

(** The names every object literal inherits from [Object.prototype];
    only the first two are in lower case. *)
Definition prototype_names : list jsstring :=
  [js "constructor"; js "__proto__"; js "toString"; js "toLocaleString";
   js "valueOf"; js "hasOwnProperty"; js "isPrototypeOf";
   js "propertyIsEnumerable"; js "__defineGetter__"; js "__defineSetter__";
   js "__lookupGetter__"; js "__lookupSetter__"].

(** [this.languageIds[key]]: own members first, then the inherited
    ones. *)
Definition languageIds_get (key : jsstring) : LanguageId :=
  match languageIds !! key with
  | Some id => OwnId id
  | None =>
      if bool_decide (key ∈ prototype_names) then Inherited else Undefined
  end.

(** [!languageId] *)
Definition not_languageId (v : LanguageId) : bool :=
  match v with
  | OwnId id => (id =? 0)%Z
  | Inherited => false
  | Undefined => true
  end.

Definition statusMap : gmap Z jsstring :=
  list_to_map
    [(1%Z, js "In Queue"); (2%Z, js "Processing"); (3%Z, js "Accepted");
     (4%Z, js "Wrong Answer"); (5%Z, js "Time Limit Exceeded");
     (6%Z, js "Compilation Error"); (7%Z, js "Runtime Error (SIGSEGV)");
     (8%Z, js "Runtime Error (SIGXFSZ)"); (9%Z, js "Runtime Error (SIGFPE)");
     (10%Z, js "Runtime Error (SIGABRT)"); (11%Z, js "Runtime Error (NZEC)");
     (12%Z, js "Runtime Error (Other)"); (13%Z, js "Internal Error");
     (14%Z, js "Exec Format Error")].

Definition formatResult (rawResult : RawResult) : ExecutionResult :=
  {| status := or_else (statusMap !! status_id rawResult) (js "Unknown");
     statusId := Some (status_id rawResult);
     output := Some (or_else (stdout rawResult) []);
     error :=
       Some (if truthy (stderr rawResult)
             then or_else (stderr rawResult) []
             else or_else (compile_output rawResult) []);
     er_time := Some (or_else (time rawResult) (js "0"));
     er_memory :=
       Some (match memory rawResult with
             | Some m => if (m =? 0)%Z then Str (js "0") else Num m
             | None => Str (js "0")
             end);
     exitCode := exit_code rawResult |}.

(** [getSubmissionResult(token)] *)
Definition getSubmissionResult (token : jsstring) : M RawResult :=
  try_catch
    (st ← get_state;
     put_state
       {| db_problems := db_problems st; db_solutions := db_solutions st;
          db_users := db_users st; problems := problems st;
          solutions := solutions st; req_user := req_user st;
          gets := S (gets st); store_ops := store_ops st;
          trace := trace st ++ [SubmissionGet token] |};;
     match judge0_get W (gets st) token with
     | inl message => throw message
     | inr data => ret data
     end)
    (λ error, throw (js "Failed to get submission result: " ++ error)).

(** [delay(ms)] *)
Definition delay (ms : Z) : M unit := log (Delay ms).

Definition maxAttempts : Z := 10.

(** [while (result.status.id <= 2 && attempts < maxAttempts) {...}],
    cut after [fuel] rounds. *)
Fixpoint poll_loop (fuel : nat) (token : jsstring) (result : RawResult)
    (attempts : Z) : M RawResult :=
  match fuel with
  | O => lift OutOfFuel
  | S fuel' =>
      if (status_id result <=? 2)%Z && (attempts <? maxAttempts)%Z
      then
        delay 1000;;
        result ← getSubmissionResult token;
        poll_loop fuel' token result (attempts + 1)%Z
      else ret result
  end.

(** [executeCode(code, language, input = '')]; the call itself is
    recorded first. *)
Definition executeCode (code language : jsstring) (input : option jsstring)
    : M ExecutionResult :=
  let input := default [] input in
  log (ExecuteCode code language);;
  if negb (truthy (RAPIDAPI_KEY W))
  then throw (js "Judge0 API key not configured")
  else
    try_catch
      (let languageId := languageIds_get (toLowerCase W language) in
       if not_languageId languageId
       then throw (js "Language '" ++ language
                   ++ js "' not supported for execution")
       else
         let body := {| source_code := code;
                        language_id := languageId;
                        stdin := input;
                        cpu_time_limit := 2;
                        memory_limit := 128000 |} in
         log (SubmissionPost body);;
         token ← match judge0_post W body with
                 | inl message => throw message
                 | inr token => ret token
                 end;
         result ← getSubmissionResult token;
         result ← poll_loop (S (Z.to_nat maxAttempts)) token result 0%Z;
         ret (formatResult result))
      (λ error, throw (js "Code execution failed: " ++ error)).

(** [/require\s*\(\s*['"]child_process['"]\s*\)/i] and the seven
    shorter patterns before it. *)
Definition quote : node := Chr (λ c, (c =? 39)%N || (c =? 34)%N).

Definition dangerousPatterns : list (list node) :=
  [ lit_i "exec" ++ [Rep isWhiteSpace 0 true] ++ lit_i "(";
    lit_i "eval" ++ [Rep isWhiteSpace 0 true] ++ lit_i "(";
    lit_i "system" ++ [Rep isWhiteSpace 0 true] ++ lit_i "(";
    lit_i "popen" ++ [Rep isWhiteSpace 0 true] ++ lit_i "(";
    lit_i "os.system";
    lit_i "subprocess.";
    lit_i "import" ++ [Rep isWhiteSpace 1 true] ++ lit_i "os";
    lit_i "require" ++ [Rep isWhiteSpace 0 true] ++ lit_i "("
      ++ [Rep isWhiteSpace 0 true; quote] ++ lit_i "child_process"
      ++ [quote; Rep isWhiteSpace 0 true] ++ lit_i ")" ].

(** [validateCode(code, language)]: [true], or the thrown error. *)
Definition validateCode (code language : option jsstring) : outcome bool :=
  if negb (truthy code) || (length (trim (default [] code)) =? 0)%nat
  then Throws (js "Code cannot be empty")
  else if negb (truthy language)
  then Throws (js "Programming language must be specified")
  else if existsb (λ pattern, test pattern (default [] code))
            dangerousPatterns
  then Throws (js "Code contains potentially dangerous operations")
  else Returns true.

(** [getSupportedLanguages()] *)
Definition supported (language : jsstring) : bool :=
  bool_decide (is_Some (languageIds !! language)).

(** *** server/middleware/auth.js and server/routes/problems.js *)

(** [req.body] *)
Record Body := {
  b_title : option jsstring;
  b_description : option jsstring;
  b_category : option jsstring;
  b_language : option jsstring;
  b_difficulty : option jsstring;
  b_tags : option (list jsstring)
}.

(** The replies of the route, by status code and message. *)
Inductive reply :=
| TooManyRequests (current limit : Z) (plan : Plan)
| BadRequest
| Created (problem : option (ProblemDoc * option SolutionDoc))
| GenerationFailed (message : jsstring) (problem : option ProblemDoc)
| CreateFailed (message : jsstring).

Definition statusCode (r : reply) : Z :=
  match r with
  | TooManyRequests _ _ _ => 429
  | BadRequest => 400
  | Created _ => 201
  | GenerationFailed _ _ => 500
  | CreateFailed _ => 500
  end.

(** [checkQueryLimit]: a reply, or [None] when it calls [next()]. *)
Definition checkQueryLimit : M (option reply) :=
  st ← get_state;
  let '(admitted, user) := canMakeQuery (now W) (req_user st) in
  modify (with_req_user (λ _, user));;
  if admitted then ret None
  else ret (Some (TooManyRequests (monthlyQueries (apiUsage user))
                    (queryLimit (subscription user))
                    (plan (subscription user)))).

Definition set_executionResult (r : ExecutionResult) (doc : SolutionDoc)
    : SolutionDoc :=
  {| s_problem := s_problem doc; aiModel := aiModel doc;
     answer := answer doc; s_explanation := s_explanation doc;
     s_code := s_code doc; s_steps := s_steps doc;
     executionResult := Some r;
     tokenUsage := tokenUsage doc; processingTime := processingTime doc |}.

Definition set_solved (solution : nat) (doc : ProblemDoc) : ProblemDoc :=
  {| p_user := p_user doc; p_title := p_title doc;
     p_description := p_description doc; p_category := p_category doc;
     p_language := p_language doc; p_difficulty := p_difficulty doc;
     p_tags := p_tags doc; p_status := solved;
     p_solution := Some solution |}.

Definition set_failed (doc : ProblemDoc) : ProblemDoc :=
  {| p_user := p_user doc; p_title := p_title doc;
     p_description := p_description doc; p_category := p_category doc;
     p_language := p_language doc; p_difficulty := p_difficulty doc;
     p_tags := p_tags doc; p_status := failed;
     p_solution := p_solution doc |}.

(** The placeholder stored when execution throws. *)
Definition executionFailed (message : jsstring) : ExecutionResult :=
  {| status := js "Execution Failed";
     statusId := None; output := None;
     error := Some message;
     er_time := None; er_memory := None; exitCode := None |}.

(** The argument of [Problem.create]. *)
Definition new_problem (user : nat) (body : Body) : ProblemDoc :=
  {| p_user := user;
     p_title := default [] (b_title body);
     p_description := default [] (b_description body);
     p_category := default [] (b_category body);
     p_language := b_language body;
     p_difficulty := or_else (b_difficulty body) (js "medium");
     p_tags := default [] (b_tags body);
     p_status := processing;
     p_solution := None |}.

(** The argument of [generateSolution]; no second argument is given. *)
Definition input_of (body : Body) : ProblemInput :=
  {| in_title := b_title body; in_description := b_description body;
     in_category := b_category body; in_language := b_language body;
     in_difficulty := b_difficulty body |}.

(** The argument of [Solution.create]. *)
Definition new_solution (problem : nat) (aiResult : AIResult) : SolutionDoc :=
  {| s_problem := problem;
     aiModel := ai_aiModel aiResult;
     answer := ai_answer aiResult;
     s_explanation := ai_explanation aiResult;
     s_code := ai_code aiResult;
     s_steps := ai_steps aiResult;
     executionResult := None;
     tokenUsage := ai_tokenUsage aiResult;
     processingTime := ai_processingTime aiResult |}.

(** The handler of [POST /api/problems]. *)
Definition post_problem (body : Body) : M reply :=
  try_catch
    (if negb (truthy (b_title body)) || negb (truthy (b_description body))
        || negb (truthy (b_category body))
     then ret BadRequest
     else
       st ← get_state;
       problem ← Problem_create (new_problem (_id (req_user st)) body);
       try_catch
         (aiResult ← generateSolution (input_of body) None;
          solution ← Solution_create (new_solution problem aiResult);
          (if truthy (Some (snippet (ai_code aiResult)))
              && truthy (b_language body)
           then
             try_catch
               (executionResult ←
                  executeCode (snippet (ai_code aiResult))
                    (default [] (b_language body)) None;
                modify (with_solutions
                          (alter (set_executionResult executionResult)
                                 solution));;
                Solution_save solution)
               (λ execError,
                  modify (with_solutions
                            (alter (set_executionResult
                                      (executionFailed execError))
                                   solution));;
                  Solution_save solution)
           else ret tt);;
          modify (with_problems (alter (set_solved solution) problem));;
          Problem_save problem;;
          req_user_incrementQueryCount;;
          populatedProblem ← Problem_findById problem;
          ret (Created populatedProblem))
         (λ aiError,
            modify (with_problems (alter set_failed problem));;
            Problem_save problem;;
            st ← get_state;
            ret (GenerationFailed aiError (problems st !! problem))))
    (λ error, ret (CreateFailed error)).

(** The route behind its admission gate: [checkQueryLimit], then the
    handler. *)
Definition solve (body : Body) : M reply :=
  gate ← checkQueryLimit;
  match gate with
  | Some r => ret r
  | None => post_problem body
  end.

End Services.

(** A request arriving on a store without pending document objects. *)
Definition initial_state (db_problems : gmap nat ProblemDoc)
    (db_solutions : gmap nat SolutionDoc) (db_users : gmap nat User)
    (user : User) : State :=
  {| db_problems := db_problems; db_solutions := db_solutions;
     db_users := db_users; problems := ∅; solutions := ∅;
     req_user := user; gets := 0; store_ops := 0; trace := [] |}.

(** ** server/services/codeExecutor.js: the list of languages *)

(** [getSupportedLanguages()]: [Object.keys(this.languageIds)], in the
    order of the literal. *)
Definition getSupportedLanguages : list jsstring :=
  [js "javascript"; js "python"; js "java"; js "cpp"; js "c"; js "csharp";
   js "ruby"; js "go"; js "rust"; js "php"; js "swift"; js "kotlin";
   js "typescript"].

(** ** server/middleware/auth.js, server/routes/problems.js and
       server/routes/admin.js: reading, bookmarking, deleting *)

Module Routes.

Inductive Role := role_user | role_admin.

(** A stored user: the fields of [User] and the role. *)
Record Account := {
  account : User;
  role : Role
}.

(** A stored problem, with the two fields these routes change. *)
Record ProblemRecord := {
  fields : ProblemDoc;
  views : Z;
  bookmarked : bool
}.

(** The three collections, and how many operations the store has been
    asked for. *)
Record Collections := {
  c_problems : gmap nat ProblemRecord;
  c_solutions : gmap nat SolutionDoc;
  c_users : gmap nat Account;
  c_ops : nat
}.

(** [req.user] as [protect] leaves it. *)
Record Requester := {
  r_id : nat;
  r_account : Account
}.

(** A reply: [res.json] with data, or a status other than 200 with its
    message and, for a caught error, the error's message. *)
Inductive answer (A : Type) :=
| Ok (data : A)
| Error (code : Z) (message : jsstring) (detail : option jsstring).

Arguments Ok {A} data.
Arguments Error {A} code message detail.

Definition DB (A : Type) : Type := Collections → outcome A * Collections.

#[global] Instance DB_ret : MRet DB := λ A a c, (Returns a, c).

#[global] Instance DB_bind : MBind DB :=
  λ A B f m c,
    match m c with
    | (Returns a, c') => f a c'
    | (Throws e, c') => (Throws e, c')
    | (OutOfFuel, c') => (OutOfFuel, c')
    end.

Definition raise {A} (message : jsstring) : DB A := λ c, (Throws message, c).

(** [try { m } catch (error) { handler error }] *)
Definition attempt {A} (m : DB A) (handler : jsstring → DB A) : DB A :=
  λ c,
    match m c with
    | (Throws e, c') => handler e c'
    | r => r
    end.

Definition with_c_problems (f : gmap nat ProblemRecord → gmap nat ProblemRecord)
    (c : Collections) : Collections :=
  {| c_problems := f (c_problems c); c_solutions := c_solutions c;
     c_users := c_users c; c_ops := c_ops c |}.

Definition with_c_solutions (f : gmap nat SolutionDoc → gmap nat SolutionDoc)
    (c : Collections) : Collections :=
  {| c_problems := c_problems c; c_solutions := f (c_solutions c);
     c_users := c_users c; c_ops := c_ops c |}.

Definition with_c_users (f : gmap nat Account → gmap nat Account)
    (c : Collections) : Collections :=
  {| c_problems := c_problems c; c_solutions := c_solutions c;
     c_users := f (c_users c); c_ops := c_ops c |}.

Definition asked (c : Collections) : Collections :=
  {| c_problems := c_problems c; c_solutions := c_solutions c;
     c_users := c_users c; c_ops := S (c_ops c) |}.

Definition is_admin (req : Requester) : bool :=
  match role (r_account req) with
  | role_admin => true
  | role_user => false
  end.

(** [null._id] *)
Definition TypeError_id : jsstring :=
  js "Cannot read properties of null (reading '_id')".

(** What [Problem.find({ user })] finds: identifiers and documents. *)
Definition problems_of (user : nat) (c : Collections)
    : list (nat * ProblemRecord) :=
  filter (λ entry, p_user (fields (snd entry)) = user)
    (map_to_list (c_problems c)).

Record Summary := {
  sum_total : Z;
  sum_solved : Z;
  sum_pending : Z;
  sum_failed : Z
}.

#[global] Instance Status_eq_dec : EqDecision Status.
Proof. solve_decision. Defined.

#[global] Instance Role_eq_dec : EqDecision Role.
Proof. solve_decision. Defined.

(** [{ $eq: ['$status', s] }] *)
Definition has_status (s : Status) (p : ProblemRecord) : bool :=
  bool_decide (p_status (fields p) = s).

(** [{ $sum: { $cond: [{ $eq: ['$status', s] }, 1, 0] } }] *)
Definition sum_cond (s : Status) (ps : list ProblemRecord) : Z :=
  foldr (λ p n, ((if has_status s p then 1 else 0) + n)%Z) 0%Z ps.

(** The [$group] stage with [_id: null]: one group when a document
    matched, none otherwise. *)
Definition group_all (ps : list ProblemRecord) : list Summary :=
  match ps with
  | [] => []
  | _ => [{| sum_total := Z.of_nat (length ps);
             sum_solved := sum_cond solved ps;
             sum_pending := sum_cond pending ps;
             sum_failed := sum_cond failed ps |}]
  end.

(** The [$group] stage with [_id: '$category']: the count of each
    category that occurs. *)
Definition group_by_category (ps : list ProblemRecord) : gmap jsstring Z :=
  foldr (λ p m, <[p_category (fields p)
                  := (default 0 (m !! p_category (fields p)) + 1)%Z]> m)
    ∅ ps.

(** A value of a request body, as it is parsed from JSON; a number is
    a whole number here, as the counters and limits of [User] are. *)
#[local] Unset Elimination Schemes.
Inductive JSON :=
| JNull
| JBool (b : bool)
| JNumber (n : Z)
| JString (s : jsstring)
| JArray (items : list JSON)
| JObject (members : list (jsstring * JSON)).
#[local] Set Elimination Schemes.

(** [if (v)] for a value that may be [undefined]. *)
Definition truthy_json (v : option JSON) : bool :=
  match v with
  | None | Some JNull | Some (JBool false) => false
  | Some (JBool true) => true
  | Some (JNumber n) => negb (n =? 0)%Z
  | Some (JString s) => match s with [] => false | _ => true end
  | Some (JArray _) | Some (JObject _) => true
  end.

(** [v === s] for a string [s]. *)
Definition is_string (s : jsstring) (v : option JSON) : bool :=
  match v with
  | Some (JString t) => bool_decide (t = s)
  | _ => false
  end.

(** The member of that name in a parsed object: the last one. *)
Fixpoint member (key : jsstring) (members : list (jsstring * JSON))
    : option JSON :=
  match members with
  | [] => None
  | (k, v) :: rest =>
      match member key rest with
      | Some later => Some later
      | None => if bool_decide (k = key) then Some v else None
      end
  end.

(** [v[key]] for a truthy value [v] and a key that no prototype
    defines, as [plan] and [queryLimit]: a member of an object, and
    [undefined] on a string, a number, a boolean or an array. *)
Definition property (key : jsstring) (v : JSON) : option JSON :=
  match v with
  | JObject members => member key members
  | _ => None
  end.

(** What the schema of [User] makes of a value assigned to one of its
    paths: the value as it is cast, when the cast and the validators of
    the path accept it, or else the message of the error; and the
    message [save] throws for the errors of the paths. *)
Record Schema := {
  cast_role : JSON → jsstring + Role;
  cast_isActive : JSON → jsstring + bool;
  cast_plan : JSON → jsstring + Plan;
  cast_queryLimit : JSON → jsstring + Z;
  validation_failed : list jsstring → jsstring
}.

(** [const { role, isActive, subscription } = req.body], each
    [undefined] or a value. *)
Record UserUpdate := {
  u_role : option JSON;
  u_isActive : option JSON;
  u_subscription : option JSON
}.

Definition set_role (r : Role) (a : Account) : Account :=
  {| account := account a; role := r |}.

Definition set_isActive (b : bool) (a : Account) : Account :=
  {| account := {| _id := _id (account a); isActive := b;
                   apiUsage := apiUsage (account a);
                   subscription := subscription (account a) |};
     role := role a |}.

Definition set_plan (p : Plan) (a : Account) : Account :=
  {| account := {| _id := _id (account a); isActive := isActive (account a);
                   apiUsage := apiUsage (account a);
                   subscription :=
                     {| plan := p;
                        queryLimit := queryLimit (subscription (account a)) |} |};
     role := role a |}.

Definition set_queryLimit (n : Z) (a : Account) : Account :=
  {| account := {| _id := _id (account a); isActive := isActive (account a);
                   apiUsage := apiUsage (account a);
                   subscription :=
                     {| plan := plan (subscription (account a));
                        queryLimit := n |} |};
     role := role a |}.

Definition set_views (n : Z) (p : ProblemRecord) : ProblemRecord :=
  {| fields := fields p; views := n; bookmarked := bookmarked p |}.

Definition set_bookmarked (b : bool) (p : ProblemRecord) : ProblemRecord :=
  {| fields := fields p; views := views p; bookmarked := b |}.

(** [user.path = v]: the document gets the cast value, or keeps its
    own and notes the error, which [save] will report. *)
Definition assign {A} (cast : JSON → jsstring + A)
    (set : A → Account → Account) (v : JSON) (doc : Account * list jsstring)
    : Account * list jsstring :=
  match cast v with
  | inr a => (set a (fst doc), snd doc)
  | inl e => (fst doc, snd doc ++ [e])
  end.

(** [if (v) user.path = v] *)
Definition assign_truthy {A} (cast : JSON → jsstring + A)
    (set : A → Account → Account) (v : option JSON)
    (doc : Account * list jsstring) : Account * list jsstring :=
  match v with
  | Some x => if truthy_json v then assign cast set x doc else doc
  | None => doc
  end.

(** The assignments of the update route, in its order: the document
    and the errors they leave. *)
Definition apply_update (schema : Schema) (body : UserUpdate) (a : Account)
    : Account * list jsstring :=
  let doc := assign_truthy (cast_role schema) set_role (u_role body) (a, []) in
  let doc := match u_isActive body with
             | Some v => assign (cast_isActive schema) set_isActive v doc
             | None => doc
             end in
  match u_subscription body with
  | Some subscription =>
      if truthy_json (Some subscription)
      then
        let doc := assign_truthy (cast_plan schema) set_plan
                     (property (js "plan") subscription) doc in
        assign_truthy (cast_queryLimit schema) set_queryLimit
          (property (js "queryLimit") subscription) doc
      else doc
  | None => doc
  end.

Definition role_name (r : Role) : jsstring :=
  match r with
  | role_user => js "user"
  | role_admin => js "admin"
  end.

Section Handlers.

(** The store refuses its [n]-th operation with this message. *)
Variable refuses : nat → option jsstring.

(** One awaited call on the store. *)
Definition ask {A} (f : Collections → A * Collections) : DB A :=
  λ c,
    match refuses (c_ops c) with
    | Some message => (Throws message, asked c)
    | None => let '(a, c') := f (asked c) in (Returns a, c')
    end.

(** The calls on the three models.  A query with its [populate]
    calls is one awaited call. *)
Definition find_problem (id : nat) : DB (option ProblemRecord) :=
  ask (λ c, (c_problems c !! id, c)).

(** [Problem.findById(id).populate('solution').populate('user', ...)]:
    the document, its solution and its user, each [None] when the
    reference finds nothing. *)
Definition find_problem_populated (id : nat)
    : DB (option (ProblemRecord * option SolutionDoc * option Account)) :=
  ask (λ c,
    (match c_problems c !! id with
     | Some p =>
         Some (p, p_solution (fields p) ≫= λ sid, c_solutions c !! sid,
               c_users c !! p_user (fields p))
     | None => None
     end, c)).

(** [problem.save()] *)
Definition save_problem (id : nat) (problem : ProblemRecord) : DB unit :=
  ask (λ c, (tt, with_c_problems (insert id problem) c)).

(** [problem.deleteOne()] *)
Definition delete_one_problem (id : nat) : DB unit :=
  ask (λ c, (tt, with_c_problems (delete id) c)).

(** [Solution.findByIdAndDelete(id)] *)
Definition find_solution_and_delete (id : nat) : DB unit :=
  ask (λ c, (tt, with_c_solutions (delete id) c)).

(** [Problem.find({ user })] *)
Definition find_problems (user : nat) : DB (list (nat * ProblemRecord)) :=
  ask (λ c, (problems_of user c, c)).

(** [Problem.aggregate([{ $match: { user } }, { $group: ... }])] *)
Definition aggregate_all (user : nat) : DB (list Summary) :=
  ask (λ c, (group_all (snd <$> problems_of user c), c)).

Definition aggregate_by_category (user : nat) : DB (gmap jsstring Z) :=
  ask (λ c, (group_by_category (snd <$> problems_of user c), c)).

(** [User.findById(id)], [user.save()], [user.deleteOne()] *)
Definition find_user (id : nat) : DB (option Account) :=
  ask (λ c, (c_users c !! id, c)).

Definition save_user (id : nat) (user : Account) : DB unit :=
  ask (λ c, (tt, with_c_users (insert id user) c)).

Definition delete_one_user (id : nat) : DB unit :=
  ask (λ c, (tt, with_c_users (delete id) c)).

(** [jwt.verify(token, process.env.JWT_SECRET)]: the thrown error's
    message, or the [id] of the payload. *)
Variable verify : jsstring → jsstring + nat.

(** The token [protect] reads from the [Authorization] header. *)
Definition bearer_token (authorization : option jsstring) : option jsstring :=
  if truthy authorization
     && startsWith (js "Bearer") (default [] authorization)
  then split 32 (default [] authorization) !! 1
  else None.

(** [protect]: a reply, or [req.user] when it calls [next()]. *)
Definition protect (authorization : option jsstring) : DB (answer Requester) :=
  let token := bearer_token authorization in
  if negb (truthy token)
  then mret (Error 401
               (js "Not authorized to access this route. Please login.") None)
  else
    attempt
      (decoded ← match verify (default [] token) with
                 | inl message => raise message
                 | inr id => mret id
                 end;
       found ← find_user decoded;
       match found with
       | None => mret (Error 401 (js "User not found") None)
       | Some user =>
           if negb (isActive (account user))
           then mret (Error 403 (js "Account has been deactivated") None)
           else mret (Ok {| r_id := decoded; r_account := user |})
       end)
      (λ _, mret (Error 401 (js "Invalid or expired token") None)).

(** A route behind [protect]. *)
Definition protected {A} (authorization : option jsstring)
    (handler : Requester → DB (answer A)) : DB (answer A) :=
  gate ← protect authorization;
  match gate with
  | Ok req => handler req
  | Error code message detail => mret (Error code message detail)
  end.

(** [authorize(...roles)]: a reply, or [None] for [next()]. *)
Definition authorize {A} (roles : list Role) (req : Requester)
    : option (answer A) :=
  if bool_decide (role (r_account req) ∈ roles) then None
  else Some (Error 403
               (js "User role '" ++ role_name (role (r_account req))
                ++ js "' is not authorized to access this route") None).

(** [GET /api/problems/:id] *)
Definition get_problem (req : Requester) (id : nat)
    : DB (answer (ProblemRecord * option SolutionDoc)) :=
  attempt
    (found ← find_problem_populated id;
     match found with
     | None => mret (Error 404 (js "Problem not found") None)
     | Some (problem, solution, owner) =>
         match owner with
         | None => raise TypeError_id
         | Some _ =>
             if negb (p_user (fields problem) =? r_id req)%nat
                && negb (is_admin req)
             then mret (Error 403 (js "Not authorized to view this problem")
                          None)
             else
               let problem := set_views (views problem + 1) problem in
               save_problem id problem;;
               mret (Ok (problem, solution))
         end
     end)
    (λ error, mret (Error 500 (js "Error fetching problem") (Some error))).

(** [if (problem.solution) await Solution.findByIdAndDelete(...);
     await problem.deleteOne()], as both delete routes and the loop of
    the user deletion have it. *)
Definition delete_with_solution (id : nat) (problem : ProblemRecord)
    : DB unit :=
  match p_solution (fields problem) with
  | Some sid => find_solution_and_delete sid
  | None => mret tt
  end;;
  delete_one_problem id.

(** [DELETE /api/problems/:id] *)
Definition delete_problem (req : Requester) (id : nat) : DB (answer jsstring) :=
  attempt
    (found ← find_problem id;
     match found with
     | None => mret (Error 404 (js "Problem not found") None)
     | Some problem =>
         if negb (p_user (fields problem) =? r_id req)%nat
            && negb (is_admin req)
         then mret (Error 403 (js "Not authorized to delete this problem")
                      None)
         else
           delete_with_solution id problem;;
           mret (Ok (js "Problem deleted successfully"))
     end)
    (λ error, mret (Error 500 (js "Error deleting problem") (Some error))).

(** [PUT /api/problems/:id/bookmark] *)
Definition toggle_bookmark (req : Requester) (id : nat)
    : DB (answer (jsstring * ProblemRecord)) :=
  attempt
    (found ← find_problem id;
     match found with
     | None => mret (Error 404 (js "Problem not found") None)
     | Some problem =>
         if negb (p_user (fields problem) =? r_id req)%nat
         then mret (Error 403 (js "Not authorized") None)
         else
           let problem := set_bookmarked (negb (bookmarked problem)) problem in
           save_problem id problem;;
           mret (Ok (js "Problem "
                     ++ (if bookmarked problem then js "bookmarked"
                         else js "unbookmarked"),
                     problem))
     end)
    (λ error, mret (Error 500 (js "Error updating bookmark") (Some error))).

(** [GET /api/problems/stats/summary] *)
Definition stats_summary (req : Requester)
    : DB (answer (Summary * gmap jsstring Z)) :=
  attempt
    (stats ← aggregate_all (r_id req);
     categoryStats ← aggregate_by_category (r_id req);
     mret (Ok (match stats with
               | s :: _ => s
               | [] => {| sum_total := 0; sum_solved := 0; sum_pending := 0;
                          sum_failed := 0 |}
               end,
               categoryStats)))
    (λ error, mret (Error 500 (js "Error fetching statistics") (Some error))).

(** A route of the admin router: [authorize('admin')], then the
    handler. *)
Definition admin_only {A} (req : Requester) (handler : DB (answer A))
    : DB (answer A) :=
  match authorize [role_admin] req with
  | Some r => mret r
  | None => handler
  end.

(** The schema of [User], as the document library applies it. *)
Variable schema : Schema.

(** [user.save()] after assignments: the errors they left are thrown
    before the store is asked. *)
Definition save_assigned (id : nat) (doc : Account * list jsstring) : DB unit :=
  match snd doc with
  | [] => save_user id (fst doc)
  | errors => raise (validation_failed schema errors)
  end.

(** [PUT /api/admin/users/:id] *)
Definition update_user (req : Requester) (id : nat) (body : UserUpdate)
    : DB (answer Account) :=
  admin_only req
    (attempt
       (found ← find_user id;
        match found with
        | None => mret (Error 404 (js "User not found") None)
        | Some user =>
            if (id =? r_id req)%nat && is_string (js "user") (u_role body)
            then mret (Error 400 (js "Cannot demote yourself") None)
            else
              let doc := apply_update schema body user in
              save_assigned id doc;;
              mret (Ok (fst doc))
        end)
       (λ error, mret (Error 500 (js "Error updating user") (Some error)))).

(** [for (const problem of userProblems) { ... }] *)
Fixpoint delete_each (found : list (nat * ProblemRecord)) : DB unit :=
  match found with
  | [] => mret tt
  | (id, problem) :: rest =>
      delete_with_solution id problem;;
      delete_each rest
  end.

(** [DELETE /api/admin/users/:id] *)
Definition delete_user (req : Requester) (id : nat) : DB (answer jsstring) :=
  admin_only req
    (attempt
       (found ← find_user id;
        match found with
        | None => mret (Error 404 (js "User not found") None)
        | Some user =>
            if (id =? r_id req)%nat
            then mret (Error 400 (js "Cannot delete your own account") None)
            else
              userProblems ← find_problems id;
              delete_each userProblems;;
              delete_one_user id;;
              mret (Ok (js "User deleted successfully"))
        end)
       (λ error, mret (Error 500 (js "Error deleting user") (Some error)))).

(** [DELETE /api/admin/problems/:id] *)
Definition admin_delete_problem (req : Requester) (id : nat)
    : DB (answer jsstring) :=
  admin_only req
    (attempt
       (found ← find_problem id;
        match found with
        | None => mret (Error 404 (js "Problem not found") None)
        | Some problem =>
            delete_with_solution id problem;;
            mret (Ok (js "Problem deleted successfully"))
        end)
       (λ error, mret (Error 500 (js "Error deleting problem") (Some error)))).

End Handlers.

End Routes.

(** * Vocabulary of the properties *)

(** ** Quota *)

(** Two dates fall in the same calendar month of the same year. *)
Definition same_month (a b : Date) : Prop :=
  getMonth a = getMonth b ∧ getFullYear a = getFullYear b.

(** ** Matching *)

(** The words a pattern can consume, and what it then records: the
    language of the pattern, without the order in which alternatives are
    tried. *)
Fixpoint consumes (r : node) (w : jsstring) (caps caps' : captures)
    {struct r} : Prop :=
  let consumes_seq :=
    fix consumes_seq (rs : list node) (w : jsstring)
        (caps caps' : captures) {struct rs} : Prop :=
      match rs with
      | [] => w = [] ∧ caps' = caps
      | r' :: rs' =>
          ∃ w1 w2 caps1,
            w = w1 ++ w2 ∧ consumes r' w1 caps caps1
            ∧ consumes_seq rs' w2 caps1 caps'
      end in
  match r with
  | Chr p => ∃ c, w = [c] ∧ p c = true ∧ caps' = caps
  | Rep p min _ =>
      forallb p w = true ∧ min ≤ length w ∧ caps' = caps
  | Grp i body =>
      ∃ caps0, consumes_seq body w caps caps0 ∧ caps' = <[i := w]> caps0
  | Opt body =>
      consumes_seq body w caps caps' ∨ (w = [] ∧ caps' = caps)
  end.

Fixpoint consumes_seq (rs : list node) (w : jsstring)
    (caps caps' : captures) : Prop :=
  match rs with
  | [] => w = [] ∧ caps' = caps
  | r' :: rs' =>
      ∃ w1 w2 caps1,
        w = w1 ++ w2 ∧ consumes r' w1 caps caps1
        ∧ consumes_seq rs' w2 caps1 caps'
  end.

(** Whatever the matcher returns was accepted by the continuation, after
    a word of the pattern. *)
Definition sound (r : node) : Prop :=
  ∀ s caps k res,
    m_node r s caps k = Some res →
    ∃ w s' caps', s = w ++ s' ∧ consumes r w caps caps'
                  ∧ k s' caps' = Some res.

Definition sound_seq (rs : list node) : Prop :=
  ∀ s caps k res,
    m_seq rs s caps k = Some res →
    ∃ w s' caps', s = w ++ s' ∧ consumes_seq rs w caps caps'
                  ∧ k s' caps' = Some res.

(** *** [exec] *)

(** A pattern no match of which is empty. *)
Definition advancing (re : list node) : Prop :=
  ∀ s rest caps, match_at re s = Some (rest, caps) → length rest < length s.

(** The matches a loop over [exec] goes through, starting with
    [lastIndex]. *)
Inductive scan (re : list node) (str : jsstring)
    : nat → list MatchResult → Prop :=
| scan_done lastIndex :
    fst (exec re str lastIndex) = None → scan re str lastIndex []
| scan_more lastIndex m lastIndex' ms :
    exec re str lastIndex = (Some m, lastIndex') →
    scan re str lastIndex' ms →
    scan re str lastIndex (m :: ms).

(** *** The two expressions of the parser *)

Definition BACKTICK : N := 96%N.

(** A complete fenced block: fence, tag of word characters, line feed,
    content, fence. *)
Definition fenced (w tag content : jsstring) : Prop :=
  w = fence ++ tag ++ LF :: content ++ fence ∧ forallb isWord tag = true.

(** The captures of a fenced block: group 1 only for a tag that is not
    empty. *)
Definition fenced_captures (tag content : jsstring) : captures :=
  <[2 := content]> (match tag with [] => ∅ | _ => <[1 := tag]> ∅ end).

(** A numbered line: digits, a full stop, white space, and text up to
    the end of the line. *)
Definition numbered (w digits space rest : jsstring) : Prop :=
  w = digits ++ 46%N :: space ++ rest
  ∧ forallb isDigit digits = true ∧ 1 ≤ length digits
  ∧ forallb isWhiteSpace space = true ∧ 1 ≤ length space
  ∧ forallb notLF rest = true ∧ 1 ≤ length rest.

(** *** The two loops of [parseResponse] *)

(** The array element pushed for a match of the code-block
    expression. *)
Definition block_of (m : MatchResult) : CodeBlock :=
  {| cb_language := or_else (group m 1) (js "text");
     cb_code := trim (default [] (group m 2)) |}.

(** The steps pushed for successive matches, the counter starting at
    [n]. *)
Fixpoint number_from (n : Z) (ms : list MatchResult) : list Step :=
  match ms with
  | [] => []
  | m :: ms' =>
      {| stepNumber := n; description := trim (default [] (group m 2)) |}
      :: number_from (n + 1) ms'
  end.

(** The closing fence is the first one after the content starts. *)
Definition closes_first (content rest : jsstring) : Prop :=
  ∀ i, i < length content →
    startsWith fence (drop i (content ++ fence ++ rest)) = false.

(** *** Fenced blocks in document order *)

(** A block, as the pattern of [codeBlockRegex] has it, starts the
    text: the marker, a tag of word characters (possibly empty), a line
    feed right after the tag, a content and a second marker.  A marker
    followed by anything else on its line (the tag [c++], a space, a
    carriage return) opens no block. *)
Definition opens_block (s : jsstring) : Prop :=
  ∃ tag content rest,
    forallb isWord tag = true
    ∧ s = fence ++ tag ++ LF :: content ++ fence ++ rest.

(** The blocks of a text in that sense, as (tag, content) with an
    empty tag for an untagged block: the first block is the leftmost
    one, its content ends at the nearest closing fence, and the next
    block is looked for after that fence. *)
Inductive fenced_blocks : jsstring → list (jsstring * jsstring) → Prop :=
| fenced_none s :
    (∀ i, i ≤ length s → ¬ opens_block (drop i s)) →
    fenced_blocks s []
| fenced_next pre tag content rest blocks :
    (∀ i, i < length pre →
       ¬ opens_block
           (drop i (pre ++ fence ++ tag ++ LF :: content ++ fence ++ rest))) →
    forallb isWord tag = true →
    closes_first content rest →
    fenced_blocks rest blocks →
    fenced_blocks (pre ++ fence ++ tag ++ LF :: content ++ fence ++ rest)
      ((tag, content) :: blocks).




(** The text up to, and without, the [n]-th line feed: the first [n]
    lines. *)
Fixpoint first_lines (n : nat) (s : jsstring) : jsstring :=
  match n, s with
  | O, _ => []
  | _, [] => []
  | S n', c :: s' =>
      if (c =? LF)%N
      then match n' with
           | O => []
           | S _ => c :: first_lines n' s'
           end
      else c :: first_lines n s'
  end.


(** No fence marker anywhere in the text. *)
Definition no_fence (s : jsstring) : Prop :=
  ∀ i, i ≤ length s → startsWith fence (drop i s) = false.

(** The first fence marker of the text comes right after [pre]. *)
Definition first_fence_after (pre s : jsstring) : Prop :=
  (∃ rest, s = pre ++ fence ++ rest)
  ∧ ∀ i, i < length pre → startsWith fence (drop i s) = false.

(** ** Runs *)

(** The state after the events [es], of which [n] are result
    requests. *)
Definition observed (es : list event) (n : nat) (st : State) : State :=
  {| db_problems := db_problems st; db_solutions := db_solutions st;
     db_users := db_users st; problems := problems st;
     solutions := solutions st; req_user := req_user st;
     gets := n + gets st; store_ops := store_ops st;
     trace := trace st ++ es |}.

(** One round of the loop body: the wait, then the request. *)
Definition round (token : jsstring) : list event :=
  [Delay 1000; SubmissionGet token].

(** [n] rounds. *)
Fixpoint rounds (n : nat) (token : jsstring) : list event :=
  match n with
  | O => []
  | S n' => round token ++ rounds n' token
  end.

Definition is_get (e : event) : bool :=
  match e with
  | SubmissionGet _ => true
  | _ => false
  end.

(** The state after one more store operation. *)
Definition tick (st : State) : State :=
  {| db_problems := db_problems st; db_solutions := db_solutions st;
     db_users := db_users st; problems := problems st;
     solutions := solutions st; req_user := req_user st;
     gets := gets st; store_ops := S (store_ops st); trace := trace st |}.

(** The identifiers the next [create] gives out. *)
Definition fresh_problem (st : State) : nat :=
  fresh (dom (db_problems st) ∪ dom (problems st)).

Definition fresh_solution (st : State) : nat :=
  fresh (dom (db_solutions st) ∪ dom (solutions st)).

(** The request has the three fields the handler insists on. *)
Definition valid_body (body : Body) : Prop :=
  truthy (b_title body) = true ∧ truthy (b_description body) = true
  ∧ truthy (b_category body) = true.

(** The states a call can lead to when it touches nothing but the trace
    and the count of result requests. *)
Definition framed (st st' : State) : Prop :=
  ∃ es n, st' = observed es n st.

(** What [generateSolution] returns for an answer of the primary
    provider. *)
Definition ai_result (response : OpenAIResponse) (parsed : Sections)
    : AIResult :=
  {| ai_answer := content response;
     ai_explanation := explanation parsed;
     ai_code := code parsed;
     ai_steps := steps parsed;
     ai_aiModel := js "gpt-4";
     ai_tokenUsage := {| prompt := prompt_tokens response;
                         completion := completion_tokens response;
                         total := total_tokens response |};
     ai_processingTime := openai_elapsed response |}.

(** *** Invariants of a run *)

(** [m] keeps the invariant [I], whatever its outcome, and what it
    returns satisfies [Q]. *)
Definition keeps {A} (I : State → Prop) (Q : A → Prop) (m : M A) : Prop :=
  ∀ st, I st → I (snd (m st)) ∧ ∀ a, fst (m st) = Returns a → Q a.

Definition is_anthropic (e : event) : bool :=
  match e with
  | AnthropicRequest _ => true
  | _ => false
  end.

(** The invariant of the default dispatch: stored solutions are those
    of [before] or answers of the primary provider, the solution
    objects in memory are all of the latter kind, and no request went to
    the secondary provider. *)
Definition primary_only (before : gmap nat SolutionDoc) (st : State) : Prop :=
  (∀ sid doc, db_solutions st !! sid = Some doc →
     before !! sid = Some doc ∨ aiModel doc = js "gpt-4")
  ∧ (∀ sid doc, solutions st !! sid = Some doc → aiModel doc = js "gpt-4")
  ∧ Forall (λ e, is_anthropic e = false) (trace st).

Section ServiceVocabulary.

Variable W : World.

(** A sandbox that answers every result request for [token] with a busy
    status (at most 2). *)
Definition always_busy (token : jsstring) : Prop :=
  ∀ n, ∃ data, judge0_get W n token = inr data ∧ (status_id data ≤ 2)%Z.

(** The request [executeCode] posts. *)
Definition submission (code language : jsstring) (input : option jsstring)
    : Submission :=
  {| source_code := code;
     language_id := languageIds_get (toLowerCase W language);
     stdin := default [] input;
     cpu_time_limit := 2;
     memory_limit := 128000 |}.

(** The document store refuses nothing. *)
Definition reliable_store : Prop := ∀ n, store_error W n = None.

End ServiceVocabulary.

(** ** Concrete services and requests, for the examples *)

Definition ascii_lower (s : jsstring) : jsstring := lower_ascii <$> s.

Definition january : Date :=
  {| getTime := 1767225600000; getFullYear := 2026; getMonth := 0 |}.

Definition february : Date :=
  {| getTime := 1769904000000; getFullYear := 2026; getMonth := 1 |}.

(** A free-plan user with a limit of 3. *)
Definition limited_user : User :=
  {| _id := 7; isActive := true;
     apiUsage := {| totalQueries := 0; monthlyQueries := 0;
                    lastResetDate := january |};
     subscription := {| plan := free; queryLimit := 3 |} |}.

(** An answer with three numbered lines and one fenced python block. *)
Definition prose : jsstring :=
  js "Add them up." ++ LF :: js "1. start at zero" ++ LF
  :: js "2. add each item" ++ LF :: js "3. print" ++ [LF].

Definition python_answer : jsstring :=
  prose ++ js "```python" ++ LF :: js "print(sum(a))" ++ LF :: js "```"
  ++ [LF].

(** A fence that is never closed. *)
Definition unclosed_fence : jsstring := js "abc ``` def".


(** Two such blocks with a line of prose between them. *)
Definition cpp_twice : jsstring :=
  fence ++ js "c++" ++ [LF] ++ js "int x = 1;" ++ [LF] ++ fence ++ [LF]
  ++ js "Faster:" ++ [LF]
  ++ fence ++ js "c++" ++ [LF] ++ js "int y = 2;" ++ [LF] ++ fence ++ [LF].

(** One block tagged [python], its lines ended by a carriage return and
    a line feed. *)
Definition crlf_answer : jsstring :=
  fence ++ js "python" ++ [13%N; LF] ++ js "print(1)" ++ [13%N; LF] ++ fence.

(** An answer that starts with its code block. *)
Definition fence_first : jsstring :=
  js "```js" ++ LF :: js "x" ++ LF :: js "```".

Definition dangerous_code : jsstring := js "os.system('rm -rf /')".

Definition python_body : Body :=
  {| b_title := Some (js "Sum array");
     b_description := Some (js "Sum the items of an array");
     b_category := Some (js "programming");
     b_language := Some (js "python");
     b_difficulty := None;
     b_tags := None |}.

Definition python_response : OpenAIResponse :=
  {| content := python_answer; prompt_tokens := 120;
     completion_tokens := 80; total_tokens := 200; openai_elapsed := 950 |}.

Definition processing : RawResult :=
  {| status_id := 2; stdout := None; stderr := None;
     compile_output := None; time := None; memory := None;
     exit_code := None |}.

(** A sandbox that never finishes, behind working services. *)
Definition busy_world : World :=
  {| now := january;
     toLowerCase := ascii_lower;
     openai_create := λ _, inr python_response;
     anthropic := None;
     RAPIDAPI_KEY := Some (js "key");
     judge0_post := λ _, inr (js "token");
     judge0_get := λ _ _, inr processing;
     store_error := λ _, None |}.

(** The same services with a primary provider that fails. *)
Definition failing_ai_world : World :=
  {| now := january;
     toLowerCase := ascii_lower;
     openai_create := λ _, inl (js "timeout");
     anthropic := None;
     RAPIDAPI_KEY := Some (js "key");
     judge0_post := λ _, inr (js "token");
     judge0_get := λ _ _, inr processing;
     store_error := λ _, None |}.

(** The same services without a sandbox key. *)
Definition no_key_world : World :=
  {| now := january;
     toLowerCase := ascii_lower;
     openai_create := λ _, inr python_response;
     anthropic := None;
     RAPIDAPI_KEY := None;
     judge0_post := λ _, inr (js "token");
     judge0_get := λ _ _, inr processing;
     store_error := λ _, None |}.

Definition empty_store : State := initial_state ∅ ∅ ∅ limited_user.

Definition accepted : RawResult :=
  {| status_id := 3; stdout := Some (js "6" ++ [LF]); stderr := None;
     compile_output := None; time := Some (js "0.012"); memory := Some 3456%Z;
     exit_code := Some 0%Z |}.

(** A sandbox that is busy twice and then accepts. *)
Definition accepting_world : World :=
  {| now := january;
     toLowerCase := ascii_lower;
     openai_create := λ _, inr python_response;
     anthropic := None;
     RAPIDAPI_KEY := Some (js "key");
     judge0_post := λ _, inr (js "token");
     judge0_get := λ n _, inr (if (n <? 2)%nat then processing else accepted);
     store_error := λ _, None |}.

(** What the end-to-end example looks at. *)
Definition summary (r : outcome reply * State) :=
  match r with
  | (Returns (Created (Some (problem, Some solution))), st) =>
      Some (p_status problem, language (s_code solution),
            stepNumber <$> s_steps solution,
            status <$> executionResult solution,
            monthlyQueries (apiUsage (req_user st)),
            length (filter is_get (trace st)))
  | _ => None
  end.

(** What the parser makes of [python_answer]. *)
Definition python_sections : Sections :=
  Eval vm_compute in
    match parseResponse python_answer with
    | Returns sections => sections
    | _ => {| explanation := []; code := code_of_blocks []; steps := [];
              complexity := [] |}
    end.

(** * Vocabulary of the further properties *)

(** ** Polling *)

(** The first [k] result requests made from count [from] on are all
    answered with a busy status (at most 2). *)
Definition busy_before (W : World) (token : jsstring) (from k : nat) : Prop :=
  ∀ i, i < k →
    ∃ data, judge0_get W (i + from) token = inr data ∧ (status_id data ≤ 2)%Z.

(** The events of a call that gets a token: the call, the submission,
    the first result request and [k] rounds of the loop. *)
Definition call_events (W : World) (code language : jsstring)
    (input : option jsstring) (token : jsstring) (k : nat) : list event :=
  [ExecuteCode code language;
   SubmissionPost (submission W code language input);
   SubmissionGet token] ++ rounds k token.

Definition is_post (e : event) : bool :=
  match e with
  | SubmissionPost _ => true
  | _ => false
  end.

Definition is_delay (e : event) : bool :=
  match e with
  | Delay _ => true
  | _ => false
  end.

(** ** Matching, the other direction *)

(** A continuation that accepts the rest [s] whatever was captured. *)
Definition accepts (k : cont) (s : jsstring) : Prop :=
  ∀ caps, is_Some (k s caps).

(** [w] is a word of the pattern. *)
Definition in_language (re : list node) (w : jsstring) : Prop :=
  ∃ caps caps', consumes_seq re w caps caps'.

(** Some part of [s] has the property [P]. *)
Definition contains (P : jsstring → Prop) (s : jsstring) : Prop :=
  ∃ pre w post, s = pre ++ w ++ post ∧ P w.

(** The matcher finds a way through every word of the pattern that the
    continuation accepts the rest of. *)
Definition complete (r : node) : Prop :=
  ∀ w s' k c c', consumes r w c c' → accepts k s' →
    ∀ caps, is_Some (m_node r (w ++ s') caps k).

Definition complete_seq (rs : list node) : Prop :=
  ∀ w s' k c c', consumes_seq rs w c c' → accepts k s' →
    ∀ caps, is_Some (m_seq rs (w ++ s') caps k).

(** ** Text *)

(** Nothing but white space. *)
Definition blank (s : jsstring) : Prop := forallb isWhiteSpace s = true.

Definition no_space_first (s : jsstring) : Prop :=
  match s with
  | c :: _ => isWhiteSpace c = false
  | [] => True
  end.

(** No white space at either end. *)
Definition trimmed (s : jsstring) : Prop :=
  no_space_first s ∧ no_space_first (rev s).

(** What the code-block loop pushes for a match: a tag of word
    characters that is not empty, and code without a fence marker or
    white space around it. *)
Definition clean_block (b : CodeBlock) : Prop :=
  cb_language b ≠ [] ∧ forallb isWord (cb_language b) = true
  ∧ no_fence (cb_code b) ∧ trimmed (cb_code b).

(** ** The blocklist of [validateCode] *)

(** The same text up to the case of ASCII letters. *)
Definition same_letters (a b : jsstring) : Prop :=
  ascii_lower a = ascii_lower b.

(** A single or a double quote. *)
Definition is_quote (c : N) : bool := (c =? 39)%N || (c =? 34)%N.

(** The pieces the eight patterns are made of. *)
Inductive piece :=
| Letters (s : string)
| Spaces (min : nat)
| AQuote.

Definition nodes_of (p : piece) : list node :=
  match p with
  | Letters s => lit_i s
  | Spaces min => [Rep isWhiteSpace min true]
  | AQuote => [quote]
  end.

Definition piece_word (p : piece) (w : jsstring) : Prop :=
  match p with
  | Letters s => same_letters w (js s)
  | Spaces min => blank w ∧ min ≤ length w
  | AQuote => ∃ q, w = [q] ∧ is_quote q = true
  end.

Fixpoint pieces_word (ps : list piece) (w : jsstring) : Prop :=
  match ps with
  | [] => w = []
  | p :: ps' => ∃ w1 w2, w = w1 ++ w2 ∧ piece_word p w1 ∧ pieces_word ps' w2
  end.

Definition shapes : list (list piece) :=
  [ [Letters "exec"; Spaces 0; Letters "("];
    [Letters "eval"; Spaces 0; Letters "("];
    [Letters "system"; Spaces 0; Letters "("];
    [Letters "popen"; Spaces 0; Letters "("];
    [Letters "os.system"];
    [Letters "subprocess."];
    [Letters "import"; Spaces 1; Letters "os"];
    [Letters "require"; Spaces 0; Letters "("; Spaces 0; AQuote;
     Letters "child_process"; AQuote; Spaces 0; Letters ")"] ].

(** The texts the blocklist is after, letters in either case: a call
    of [exec], [eval], [system] or [popen]; [os.system]; [subprocess.];
    [import] of a name that starts with [os]; and [require] of
    [child_process]. *)
Inductive dangerous_word : jsstring → Prop :=
| dangerous_call name ws :
    same_letters name (js "exec") ∨ same_letters name (js "eval")
    ∨ same_letters name (js "system") ∨ same_letters name (js "popen") →
    blank ws →
    dangerous_word (name ++ ws ++ js "(")
| dangerous_os_system w :
    same_letters w (js "os.system") → dangerous_word w
| dangerous_subprocess w :
    same_letters w (js "subprocess.") → dangerous_word w
| dangerous_import name ws os :
    same_letters name (js "import") → blank ws → 1 ≤ length ws →
    same_letters os (js "os") →
    dangerous_word (name ++ ws ++ os)
| dangerous_require name ws1 ws2 q1 module q2 ws3 :
    same_letters name (js "require") → blank ws1 → blank ws2 →
    is_quote q1 = true → same_letters module (js "child_process") →
    is_quote q2 = true → blank ws3 →
    dangerous_word (name ++ ws1 ++ js "(" ++ ws2 ++ q1 :: module
                    ++ q2 :: ws3 ++ js ")").

(** ** Histories of the quota tracker *)

(** [Number.MAX_SAFE_INTEGER]: up to it the numbers of the code are
    whole numbers counted exactly, and adding 1 is exact. *)
Definition MAX_SAFE_INTEGER : Z := 2 ^ 53 - 1.

Definition is_increment (c : call) : bool :=
  match c with
  | IncrementQueryCount _ => true
  | CanMakeQuery _ => false
  end.

(** ** Assertions on a run *)

(** [m], started in a state of [P], ends in a state of [Q a] when it
    returns [a] and in a state of [E e] when it throws [e]. *)
Definition triple {A} (P : State → Prop) (m : M A) (Q : A → State → Prop)
    (E : jsstring → State → Prop) : Prop :=
  ∀ st, P st →
    match m st with
    | (Returns a, st') => Q a st'
    | (Throws e, st') => E e st'
    | (OutOfFuel, _) => True
    end.

(** [m] never runs out of fuel. *)
Definition finishes {A} (m : M A) : Prop := ∀ st, fst (m st) ≠ OutOfFuel.

(** The two states hold the same documents and the same user object. *)
Definition same_data (st st' : State) : Prop :=
  db_problems st' = db_problems st ∧ db_solutions st' = db_solutions st
  ∧ db_users st' = db_users st ∧ problems st' = problems st
  ∧ solutions st' = solutions st ∧ req_user st' = req_user st.

(** An assertion on the documents and the user object only. *)
Definition loose (P : State → Prop) : Prop :=
  ∀ st st', same_data st st' → P st → P st'.

(** The user object was counted at most once. *)
Definition once (st st' : State) : Prop :=
  req_user st' = req_user st ∨ req_user st' = countQuery (req_user st).

(** What a 201 reply stands for: a new problem, stored as solved and
    referring to a new stored solution that refers back to it; an
    execution result exactly when there was a snippet to run and a
    language; and the request counted, in memory and in the store. *)
Definition created_facts (body : Body) (st st' : State)
    (populated : option (ProblemDoc * option SolutionDoc)) : Prop :=
  ∃ pid sid sdoc,
    let pdoc := set_solved sid (new_problem (_id (req_user st)) body) in
    populated = Some (pdoc, Some sdoc)
    ∧ db_problems st !! pid = None
    ∧ db_problems st' !! pid = Some pdoc
    ∧ db_solutions st !! sid = None
    ∧ db_solutions st' !! sid = Some sdoc
    ∧ s_problem sdoc = pid
    ∧ (is_Some (executionResult sdoc)
       ↔ truthy (Some (snippet (s_code sdoc))) && truthy (b_language body)
         = true)
    ∧ req_user st' = countQuery (req_user st)
    ∧ db_users st' !! _id (req_user st) = Some (countQuery (req_user st)).

(** What the reply of a failed generation stands for: a new problem of
    the requester, stored with status [failed]. *)
Definition failed_facts (st st' : State) (doc : option ProblemDoc) : Prop :=
  ∃ pid d,
    doc = Some d
    ∧ p_status d = failed
    ∧ p_user d = _id (req_user st)
    ∧ db_problems st !! pid = None
    ∧ db_problems st' !! pid = Some d
    ∧ once st st'.

(** The message is one the store refuses an operation with. *)
Definition store_refusal (W : World) (e : jsstring) : Prop :=
  ∃ n, store_error W n = Some e.

(** What each reply of the handler stands for. *)
Definition reply_spec (W : World) (body : Body) (st : State) (r : reply)
    (st' : State) : Prop :=
  match r with
  | Created populated => created_facts body st st' populated
  | GenerationFailed e doc => failed_facts st st' doc
  | CreateFailed e => store_refusal W e ∧ once st st'
  | BadRequest => ¬ valid_body body ∧ st' = st
  | TooManyRequests _ _ _ => False
  end.

(** The stored solution [sid] belongs to problem [pid] and holds the
    code of [ai]; with [ran] given, it has an execution result exactly
    when [ran] is true. *)
Definition stored (pid sid : nat) (ai : AIResult) (ran : option bool)
    (st : State) : Prop :=
  ∃ sdoc, db_solutions st !! sid = Some sdoc ∧ s_problem sdoc = pid
          ∧ s_code sdoc = ai_code ai
          ∧ match ran with
            | Some b => is_Some (executionResult sdoc) ↔ b = true
            | None => True
            end.

(** The same of the solution object in memory. *)
Definition inmem (pid sid : nat) (ai : AIResult) (ran : bool) (st : State)
    : Prop :=
  ∃ sdoc, solutions st !! sid = Some sdoc ∧ s_problem sdoc = pid
          ∧ s_code sdoc = ai_code ai
          ∧ (ran = true → is_Some (executionResult sdoc)).

(** Where the handler stands after the solution was created: the user
    object, the problem object it holds, and the stored solution. *)
Definition at_stage (st0 : State) (pid sid : nat) (ai : AIResult)
    (user : User) (held : ProblemDoc) (ran : option bool) (st : State)
    : Prop :=
  req_user st = user ∧ problems st !! pid = Some held
  ∧ db_problems st0 !! pid = None ∧ db_solutions st0 !! sid = None
  ∧ stored pid sid ai ran st.

(** Where it stands right after the problem was created. *)
Definition after_create (body : Body) (st0 : State) (pid : nat) (st : State)
    : Prop :=
  req_user st = req_user st0
  ∧ problems st !! pid = Some (new_problem (_id (req_user st0)) body)
  ∧ db_problems st0 !! pid = None
  ∧ db_solutions st = db_solutions st0.

(** Where it stands whenever something is thrown after that. *)
Definition interrupted (st0 : State) (pid : nat) (st : State) : Prop :=
  once st0 st
  ∧ (∃ d, problems st !! pid = Some d ∧ p_user d = _id (req_user st0))
  ∧ db_problems st0 !! pid = None.

(** What was stored before the request is still stored as it was, no
    document object in memory stands for any of it, and no other user's
    record has changed. *)
Definition untouched (before_p : gmap nat ProblemDoc)
    (before_s : gmap nat SolutionDoc) (before_u : gmap nat User) (uid : nat)
    (st : State) : Prop :=
  (∀ id doc, before_p !! id = Some doc →
     db_problems st !! id = Some doc ∧ problems st !! id = None)
  ∧ (∀ id doc, before_s !! id = Some doc →
       db_solutions st !! id = Some doc ∧ solutions st !! id = None)
  ∧ (∀ id, id ≠ uid → db_users st !! id = before_u !! id)
  ∧ _id (req_user st) = uid.

(** ** The other routes *)

(** A store that refuses nothing. *)
Definition honest (refuses : nat → option jsstring) : Prop :=
  ∀ n, refuses n = None.

(** The two states hold the same documents. *)
Definition same_collections (c c' : Routes.Collections) : Prop :=
  Routes.c_problems c' = Routes.c_problems c
  ∧ Routes.c_solutions c' = Routes.c_solutions c
  ∧ Routes.c_users c' = Routes.c_users c.

(** The route answered with an error status. *)
Definition refused {A} (r : outcome (Routes.answer A)) : Prop :=
  ∃ code message detail, r = Returns (Routes.Error code message detail).

(** ** Further concrete services and requests *)

(** A sandbox whose second answer is an error. *)
Definition failing_sandbox_world : World :=
  {| now := january;
     toLowerCase := ascii_lower;
     openai_create := λ _, inr python_response;
     anthropic := None;
     RAPIDAPI_KEY := Some (js "key");
     judge0_post := λ _, inr (js "token");
     judge0_get := λ n _, if (n <? 1)%nat then inr processing
                          else inl (js "timeout");
     store_error := λ _, None |}.

(** A store that refuses its first operation. *)
Definition refusing_store_world : World :=
  {| now := january;
     toLowerCase := ascii_lower;
     openai_create := λ _, inr python_response;
     anthropic := None;
     RAPIDAPI_KEY := Some (js "key");
     judge0_post := λ _, inr (js "token");
     judge0_get := λ _ _, inr processing;
     store_error := λ n, if (n =? 0)%nat then Some (js "disk full") else None |}.

(** The user of [limited_user] with the month's three queries made. *)
Definition exhausted_user : User := countQuery (countQuery (countQuery limited_user)).

Definition exhausted_store : State := initial_state ∅ ∅ ∅ exhausted_user.

(** A request without a title. *)
Definition untitled_body : Body :=
  {| b_title := None;
     b_description := Some (js "Sum the items of an array");
     b_category := Some (js "programming");
     b_language := Some (js "python");
     b_difficulty := None;
     b_tags := None |}.

(** A store with one solved problem of user 7, its solution, that user
    and an admin. *)
Definition shelf_problem : Routes.ProblemRecord :=
  {| Routes.fields := set_solved 2 (new_problem 7 python_body);
     Routes.views := 0; Routes.bookmarked := false |}.

Definition shelf_solution : SolutionDoc :=
  new_solution 1 (ai_result python_response python_sections).

Definition owner_account : Routes.Account :=
  {| Routes.account := limited_user; Routes.role := Routes.role_user |}.

Definition admin_account : Routes.Account :=
  {| Routes.account := new_user 8 january; Routes.role := Routes.role_admin |}.

Definition shelf : Routes.Collections :=
  {| Routes.c_problems := {[1 := shelf_problem]};
     Routes.c_solutions := {[2 := shelf_solution]};
     Routes.c_users := {[7 := owner_account; 8 := admin_account]};
     Routes.c_ops := 0 |}.

Definition owner_request : Routes.Requester :=
  {| Routes.r_id := 7; Routes.r_account := owner_account |}.

Definition admin_request : Routes.Requester :=
  {| Routes.r_id := 8; Routes.r_account := admin_account |}.

(** A third user, without the admin role. *)
Definition stranger_request : Routes.Requester :=
  {| Routes.r_id := 9;
     Routes.r_account := {| Routes.account := new_user 9 january;
                            Routes.role := Routes.role_user |} |}.

(** A store that refuses nothing, one that refuses its third
    operation, and a verifier that knows one token. *)
Definition never : nat → option jsstring := λ _, None.

Definition third_refused : nat → option jsstring :=
  λ n, if (n =? 2)%nat then Some (js "connection lost") else None.

Definition one_token : jsstring → jsstring + nat :=
  λ token, if bool_decide (token = js "abc") then inr 7
           else inl (js "jwt malformed").

(** The value of a string of decimal digits. *)
Definition digits_value (s : jsstring) : option Z :=
  match s with
  | [] => None
  | _ =>
      foldl (λ acc c,
               n ← acc;
               if ((48 <=? c) && (c <=? 57))%N
               then Some (10 * n + Z.of_N (c - 48))%Z
               else None)
        (Some 0%Z) s
  end.

(** A string given as it is, or as the [_id] of an object. *)
Definition as_string (v : Routes.JSON) : option jsstring :=
  match v with
  | Routes.JString s => Some s
  | Routes.JObject members =>
      match Routes.member (js "_id") members with
      | Some (Routes.JString s) => Some s
      | _ => None
      end
  | _ => None
  end.

(** A schema that takes the names of the roles and of the plans, given
    as strings or as the [_id] of an object, booleans, and limits given
    as numbers or as strings of digits. *)
Definition lenient_schema : Routes.Schema :=
  {| Routes.cast_role v :=
       match as_string v with
       | Some s =>
           if bool_decide (s = js "user") then inr Routes.role_user
           else if bool_decide (s = js "admin") then inr Routes.role_admin
           else inl (js "role: not a valid enum value")
       | None => inl (js "role: Cast to string failed")
       end;
     Routes.cast_isActive v :=
       match v with
       | Routes.JBool b => inr b
       | _ => inl (js "isActive: Cast to Boolean failed")
       end;
     Routes.cast_plan v :=
       match as_string v with
       | Some s =>
           if bool_decide (s = js "free") then inr free
           else if bool_decide (s = js "pro") then inr pro
           else if bool_decide (s = js "enterprise") then inr enterprise
           else inl (js "subscription.plan: not a valid enum value")
       | None => inl (js "subscription.plan: Cast to string failed")
       end;
     Routes.cast_queryLimit v :=
       match v with
       | Routes.JNumber n => inr n
       | Routes.JString s =>
           match digits_value s with
           | Some n => inr n
           | None => inl (js "subscription.queryLimit: Cast to Number failed")
           end
       | _ => inl (js "subscription.queryLimit: Cast to Number failed")
       end;
     Routes.validation_failed errors :=
       js "User validation failed: " ++ join 44 errors |}.

(** Updates: the plan [pro] with the number 0 as limit; the same with
    the string of the digit 0; the role [user] as a string; and the role
    as an object whose [_id] is that string. *)
Definition subscription_update (limit : Routes.JSON) : Routes.UserUpdate :=
  {| Routes.u_role := None; Routes.u_isActive := None;
     Routes.u_subscription :=
       Some (Routes.JObject [(js "plan", Routes.JString (js "pro"));
                             (js "queryLimit", limit)]) |}.

Definition role_update (role : Routes.JSON) : Routes.UserUpdate :=
  {| Routes.u_role := Some role; Routes.u_isActive := None;
     Routes.u_subscription := None |}.

Definition zero_limit_update : Routes.UserUpdate :=
  subscription_update (Routes.JNumber 0).

Definition zero_string_update : Routes.UserUpdate :=
  subscription_update (Routes.JString (js "0")).

Definition demotion : Routes.UserUpdate :=
  role_update (Routes.JString (js "user")).

Definition demotion_by_object : Routes.UserUpdate :=
  role_update (Routes.JObject [(js "_id", Routes.JString (js "user"))]).

(** * Properties *)

(** ** Quota tracker *)

Section Quota.

Local Open Scope Z_scope.

Lemma reset_same_month now u :
  same_month now (lastResetDate (apiUsage u)) →
  resetMonthlyQueries now u = u.
Proof.
  intros [Hm Hy]. unfold resetMonthlyQueries.
  rewrite Hm, Hy, !Z.eqb_refl. reflexivity.
Qed.

Lemma reset_other_month now u :
  ¬ same_month now (lastResetDate (apiUsage u)) →
  resetMonthlyQueries now u =
    {| _id := _id u; isActive := isActive u;
       apiUsage := {| totalQueries := totalQueries (apiUsage u);
                      monthlyQueries := 0; lastResetDate := now |};
       subscription := subscription u |}.
Proof.
  intros Hne. unfold resetMonthlyQueries.
  destruct (Z.eqb_spec (getMonth now) (getMonth (lastResetDate (apiUsage u))));
    [|reflexivity].
  destruct (Z.eqb_spec (getFullYear now)
              (getFullYear (lastResetDate (apiUsage u)))); [|reflexivity].
  exfalso. apply Hne. split; assumption.
Qed.

Lemma same_month_dec a b : same_month a b ∨ ¬ same_month a b.
Proof.
  unfold same_month.
  destruct (Z.eq_dec (getMonth a) (getMonth b));
    destruct (Z.eq_dec (getFullYear a) (getFullYear b)); tauto.
Qed.

(** Neither method touches the plan, and the window counter never goes
    below zero once it is not. *)
Lemma reset_keeps now u :
  subscription (resetMonthlyQueries now u) = subscription u
  ∧ (0 ≤ monthlyQueries (apiUsage u) →
     0 ≤ monthlyQueries (apiUsage (resetMonthlyQueries now u))).
Proof.
  destruct (same_month_dec now (lastResetDate (apiUsage u))) as [H|H].
  - rewrite reset_same_month by assumption. auto.
  - rewrite reset_other_month by assumption. simpl. split; [reflexivity|lia].
Qed.

Lemma run_limit_zero calls : ∀ u,
  queryLimit (subscription u) = 0 →
  0 ≤ monthlyQueries (apiUsage u) →
  Forall (λ answer, answer = false) (fst (run calls u)).
Proof.
  induction calls as [|[now|save] calls IH]; intros u Hlim Hwin; simpl.
  - constructor.
  - destruct (reset_keeps now u) as [Hsub Hpos].
    specialize (IH (resetMonthlyQueries now u)).
    rewrite Hsub in IH. specialize (IH Hlim (Hpos Hwin)).
    destruct (run calls (resetMonthlyQueries now u)) as [answers u'] eqn:E.
    simpl in *. constructor; [|assumption].
    rewrite Hsub, Hlim. apply Z.ltb_ge. auto.
  - apply IH; simpl; [assumption|lia].
Qed.

End Quota.

(** C2. [canMakeQuery] first performs the lazy reset (when the month or
    the year of the current date differs from that of the stored reset
    date, the window counter becomes 0 and the reset date the current
    date; otherwise nothing changes) and then answers whether the window
    counter is strictly below the plan's limit.  With a limit of 3, after
    three [incrementQueryCount] calls in the month of the reset date the
    next check answers false; a check in another month answers true and
    leaves the counter at 0; with a limit of 0 no check in any history of
    calls ever answers true.  The window counter is taken not to start
    below zero. *)
Theorem quota_admission (now : Date) (u : User) :
  (same_month now (lastResetDate (apiUsage u)) →
   snd (canMakeQuery now u) = u)
  ∧ (¬ same_month now (lastResetDate (apiUsage u)) →
     monthlyQueries (apiUsage (snd (canMakeQuery now u))) = 0%Z
     ∧ lastResetDate (apiUsage (snd (canMakeQuery now u))) = now
     ∧ totalQueries (apiUsage (snd (canMakeQuery now u)))
       = totalQueries (apiUsage u)
     ∧ subscription (snd (canMakeQuery now u)) = subscription u)
  ∧ (fst (canMakeQuery now u) = true ↔
     (monthlyQueries (apiUsage (snd (canMakeQuery now u)))
      < queryLimit (subscription (snd (canMakeQuery now u))))%Z)
  ∧ (∀ save1 save2 save3 rollover,
       queryLimit (subscription u) = 3%Z →
       (0 ≤ monthlyQueries (apiUsage u))%Z →
       same_month now (lastResetDate (apiUsage u)) →
       ¬ same_month rollover (lastResetDate (apiUsage u)) →
       ∃ u',
         run [IncrementQueryCount save1; IncrementQueryCount save2;
              IncrementQueryCount save3; CanMakeQuery now;
              CanMakeQuery rollover] u
         = ([false; true], u')
         ∧ monthlyQueries (apiUsage u') = 0%Z)
  ∧ (∀ calls,
       queryLimit (subscription u) = 0%Z →
       (0 ≤ monthlyQueries (apiUsage u))%Z →
       Forall (λ answer, answer = false) (fst (run calls u))).
Proof.
  split; [|split; [|split; [|split]]].
  - intros H. simpl. apply reset_same_month, H.
  - intros H. simpl. rewrite reset_other_month by assumption. simpl. auto.
  - simpl. apply Z.ltb_lt.
  - intros s1 s2 s3 rollover Hlim Hwin Hsame Hroll.
    set (u3 := countQuery (countQuery (countQuery u))).
    assert (H3 : resetMonthlyQueries now u3 = u3)
      by (apply reset_same_month; exact Hsame).
    assert (Hr : ¬ same_month rollover (lastResetDate (apiUsage u3)))
      by exact Hroll.
    exists (resetMonthlyQueries rollover u3). simpl. fold u3. rewrite H3.
    rewrite (reset_other_month rollover u3 Hr). simpl.
    rewrite Hlim. split; [|reflexivity].
    replace (monthlyQueries (apiUsage u) + 1 + 1 + 1 <? 3)%Z with false
      by (symmetry; apply Z.ltb_ge; lia).
    reflexivity.
  - intros calls. apply run_limit_zero.
Qed.

(** ** Response parser *)

Section Matcher.

(** *** The matcher returns words of the pattern *)

(** Induction on patterns, with the hypothesis for every node inside a
    group. *)
Lemma node_nested_ind (P : node → Prop) :
  (∀ p, P (Chr p)) →
  (∀ p min greedy, P (Rep p min greedy)) →
  (∀ i body, Forall P body → P (Grp i body)) →
  (∀ body, Forall P body → P (Opt body)) →
  ∀ r, P r.
Proof.
  intros HChr HRep HGrp HOpt. fix IH 1.
  intros [p|p min greedy|i body|body].
  - apply HChr.
  - apply HRep.
  - apply HGrp. induction body as [|r body IHbody]; constructor;
      [apply IH|exact IHbody].
  - apply HOpt. induction body as [|r body IHbody]; constructor;
      [apply IH|exact IHbody].
Qed.

Lemma m_rep_sound p min greedy caps k : ∀ s n res,
  m_rep p min greedy caps k s n = Some res →
  ∃ w s', s = w ++ s' ∧ forallb p w = true ∧ min ≤ n + length w
          ∧ k s' caps = Some res.
Proof.
  induction s as [|c s IH]; intros n res H; cbn [m_rep] in H.
  - assert (Hstop : (if (min <=? n)%nat then k [] caps else None) = Some res)
      by (destruct (if (min <=? n)%nat then k [] caps else None), greedy;
          congruence).
    destruct (Nat.leb_spec min n); [|discriminate].
    exists [], []. cbn. repeat split; [lia|exact Hstop].
  - assert (Hcases :
      (if (min <=? n)%nat then k (c :: s) caps else None) = Some res
      ∨ (p c = true ∧ m_rep p min greedy caps k s (S n) = Some res)).
    { destruct (p c),
        (if (min <=? n)%nat then k (c :: s) caps else None),
        (m_rep p min greedy caps k s (S n)), greedy; auto; congruence. }
    destruct Hcases as [Hstop|[Hc Hmore]].
    + destruct (Nat.leb_spec min n); [|discriminate].
      exists [], (c :: s). cbn. repeat split; [lia|exact Hstop].
    + destruct (IH _ _ Hmore) as (w & s' & -> & Hw & Hmin & Hk).
      exists (c :: w), s'. cbn. rewrite Hc, Hw.
      repeat split; [lia|exact Hk].
Qed.

Lemma sound_seq_of rs : Forall sound rs → sound_seq rs.
Proof.
  induction 1 as [|r rs Hr _ IH]; intros s caps k res H; cbn in H.
  - exists [], s, caps. cbn. auto.
  - destruct (Hr _ _ _ _ H) as (w1 & s1 & caps1 & -> & H1 & Hk).
    destruct (IH _ _ _ _ Hk) as (w2 & s2 & caps2 & -> & H2 & Hk2).
    exists (w1 ++ w2), s2, caps2. rewrite <- app_assoc.
    split; [reflexivity|split; [|exact Hk2]].
    cbn. exists w1, w2, caps1. auto.
Qed.

Lemma m_node_sound : ∀ r, sound r.
Proof.
  induction r as [p|p min greedy|i body IH|body IH] using node_nested_ind;
    intros s caps k res H.
  - cbn in H. destruct s as [|c s]; [discriminate|].
    destruct (p c) eqn:Hc; [|discriminate].
    exists [c], s, caps. cbn. eauto 6.
  - cbn in H. destruct (m_rep_sound _ _ _ _ _ _ _ _ H)
      as (w & s' & -> & Hw & Hmin & Hk).
    exists w, s', caps. cbn. auto.
  - change (m_seq body s caps
              (λ s' caps', k s' (<[i := take (length s - length s') s]> caps'))
            = Some res) in H.
    destruct (sound_seq_of body IH _ _ _ _ H)
      as (w & s' & caps' & -> & Hw & Hk).
    exists w, s', (<[i := w]> caps'). split; [reflexivity|].
    split; [cbn; fold consumes_seq; eauto|].
    rewrite length_app in Hk.
    replace (length w + length s' - length s') with (length w) in Hk by lia.
    rewrite take_app_length in Hk. exact Hk.
  - change (match m_seq body s caps k with
            | Some r => Some r
            | None => k s caps
            end = Some res) in H.
    destruct (m_seq body s caps k) as [res'|] eqn:E.
    + injection H as ->.
      destruct (sound_seq_of body IH _ _ _ _ E)
        as (w & s' & caps' & -> & Hw & Hk).
      exists w, s', caps'. split; [reflexivity|].
      split; [cbn; fold consumes_seq; auto|exact Hk].
    + exists [], s, caps. cbn. auto.
Qed.

Lemma m_seq_sound rs : sound_seq rs.
Proof. apply sound_seq_of, Forall_forall. intros r _. apply m_node_sound. Qed.

Lemma match_at_sound re s rest caps :
  match_at re s = Some (rest, caps) →
  ∃ w, s = w ++ rest ∧ consumes_seq re w ∅ caps.
Proof.
  intros H. destruct (m_seq_sound re _ _ _ _ H)
    as (w & s' & caps' & -> & Hw & [= -> ->]).
  eauto.
Qed.

(** *** Searching *)

Lemma take_consumed (w rest : jsstring) :
  take (length (w ++ rest) - length rest) (w ++ rest) = w.
Proof.
  rewrite length_app.
  replace (length w + length rest - length rest) with (length w) by lia.
  apply take_app_length.
Qed.

Lemma search_eq re s i :
  search re s i
  = match match_at re s with
    | Some (rest, caps) =>
        Some {| index := i;
                matched := take (length s - length rest) s;
                groups := caps |}
    | None =>
        match s with
        | [] => None
        | _ :: s' => search re s' (S i)
        end
    end.
Proof. destruct s; reflexivity. Qed.

Lemma search_found re : ∀ s i m,
  search re s i = Some m →
  ∃ pre rest,
    s = pre ++ matched m ++ rest
    ∧ index m = i + length pre
    ∧ match_at re (matched m ++ rest) = Some (rest, groups m)
    ∧ ∀ j, j < length pre → match_at re (drop j s) = None.
Proof.
  induction s as [|c s IH]; intros i m H; rewrite search_eq in H.
  - destruct (match_at re []) as [[rest caps]|] eqn:E; [|discriminate].
    apply (inj Some) in H. subst m. cbn [matched index groups].
    destruct (match_at_sound _ _ _ _ E) as (w & Hw & _).
    symmetry in Hw. apply app_eq_nil in Hw as [-> ->].
    exists [], []. cbn. repeat split; [lia|exact E|lia].
  - destruct (match_at re (c :: s)) as [[rest caps]|] eqn:E.
    + apply (inj Some) in H. subst m. cbn [matched index groups].
      destruct (match_at_sound _ _ _ _ E) as (w & Hw & _).
      exists [], rest. rewrite Hw in *. rewrite take_consumed.
      cbn [app length].
      repeat split; [lia|exact E|lia].
    + destruct (IH _ _ H) as (pre & rest & Hs & Hi & Hm & Hnone).
      exists (c :: pre), rest. cbn [app length].
      repeat split; [congruence|lia|exact Hm|].
      intros [|j] Hj; cbn [drop]; [exact E|]. apply Hnone. lia.
Qed.

Lemma search_none re : ∀ s i,
  search re s i = None → ∀ j, j ≤ length s → match_at re (drop j s) = None.
Proof.
  induction s as [|c s IH]; intros i H j Hj; rewrite search_eq in H.
  - destruct (match_at re []) as [[rest caps]|] eqn:E; [discriminate|].
    destruct j; exact E.
  - destruct (match_at re (c :: s)) as [[rest caps]|] eqn:E; [discriminate|].
    destruct j as [|j]; cbn [drop]; [exact E|].
    eapply IH; [exact H|]. cbn [length] in Hj. lia.
Qed.


(** *** [exec] and the loops over it *)

Lemma exec_found re str lastIndex m lastIndex' :
  exec re str lastIndex = (Some m, lastIndex') →
  lastIndex ≤ index m
  ∧ lastIndex' = index m + length (matched m)
  ∧ lastIndex' ≤ length str
  ∧ match_at re (drop (index m) str)
    = Some (drop lastIndex' str, groups m)
  ∧ take (length (matched m)) (drop (index m) str) = matched m.
Proof.
  unfold exec. destruct (Nat.ltb_spec (length str) lastIndex) as [|Hle];
    [discriminate|].
  destruct (search re (drop lastIndex str) lastIndex) as [m'|] eqn:E;
    [|discriminate].
  intros [= -> <-].
  destruct (search_found _ _ _ _ E) as (pre & rest & Hs & Hi & Hm & _).
  assert (Hstr : str = take lastIndex str ++ pre ++ matched m ++ rest)
    by (rewrite <- Hs; symmetry; apply take_drop).
  assert (Hlen : length (take lastIndex str) = lastIndex)
    by (rewrite length_take; lia).
  assert (Hd1 : drop (index m) str = matched m ++ rest).
  { rewrite Hstr at 1. rewrite Hi, app_assoc.
    rewrite drop_app_length'; [reflexivity|]. rewrite length_app. lia. }
  assert (Hd2 : drop (index m + length (matched m)) str = rest).
  { rewrite <- drop_drop, Hd1. apply drop_app_length. }
  split; [lia|]. split; [reflexivity|]. split.
  - apply (f_equal length) in Hstr. rewrite !length_app in Hstr. lia.
  - rewrite Hd1, Hd2. split; [exact Hm|apply take_app_length].
Qed.

Lemma exec_advances re str lastIndex m lastIndex' :
  advancing re →
  exec re str lastIndex = (Some m, lastIndex') →
  lastIndex < lastIndex' ≤ length str.
Proof.
  intros Hadv H.
  destruct (exec_found _ _ _ _ _ H) as (Hi & -> & Hle & Hm & Ht).
  apply Hadv in Hm. rewrite !length_drop in Hm. lia.
Qed.

Lemma scan_total re str :
  advancing re →
  ∀ n lastIndex, length str - lastIndex < n →
  ∃ ms, scan re str lastIndex ms ∧ length ms < n.
Proof.
  intros Hadv. induction n as [|n IH]; intros lastIndex Hn; [lia|].
  destruct (exec re str lastIndex) as [[m|] lastIndex'] eqn:E.
  - destruct (exec_advances _ _ _ _ _ Hadv E) as [Hlt Hle].
    destruct (IH lastIndex') as (ms & Hms & Hlen); [lia|].
    exists (m :: ms). split; [econstructor; eassumption|cbn; lia].
  - exists []. split; [constructor; rewrite E; reflexivity|cbn; lia].
Qed.

Lemma scan_functional re str : ∀ lastIndex ms ms',
  scan re str lastIndex ms → scan re str lastIndex ms' → ms = ms'.
Proof.
  intros lastIndex ms ms' H. revert ms'.
  induction H as [li Hnone|li m li' ms Hexec _ IH]; intros ms' H'.
  - destruct H' as [|li m li' ms' Hexec']; [reflexivity|].
    rewrite Hexec' in Hnone. discriminate.
  - destruct H' as [li Hnone|li m' li'' ms' Hexec' H'].
    + rewrite Hexec in Hnone. discriminate.
    + rewrite Hexec in Hexec'. injection Hexec' as <- <-.
      f_equal. apply IH, H'.
Qed.

(** *** The two expressions of the parser *)

Lemma codeBlockRegex_eq :
  codeBlockRegex
  = [chr BACKTICK; chr BACKTICK; chr BACKTICK;
     Opt [Grp 1 [Rep isWord 1 true]]; chr LF; Grp 2 [Rep any 0 false];
     chr BACKTICK; chr BACKTICK; chr BACKTICK].
Proof. reflexivity. Qed.

Lemma fence_eq : fence = [BACKTICK; BACKTICK; BACKTICK].
Proof. reflexivity. Qed.

Lemma codeBlockRegex_consumes w caps :
  consumes_seq codeBlockRegex w ∅ caps →
  ∃ tag content, fenced w tag content ∧ caps = fenced_captures tag content.
Proof.
  rewrite codeBlockRegex_eq. cbn [consumes_seq consumes].
  intros (w1 & r1 & c1 & -> & (b1 & -> & Hb1 & ->) &
          w2 & r2 & c2 & -> & (b2 & -> & Hb2 & ->) &
          w3 & r3 & c3 & -> & (b3 & -> & Hb3 & ->) &
          w4 & r4 & c4 & -> & Hopt &
          w5 & r5 & c5 & -> & (b5 & -> & Hb5 & ->) &
          w6 & r6 & c6 & -> & (c6' & (w6' & r6' & c6'' & -> & (_ & _ & ->) & -> & ->) & ->) &
          w7 & r7 & c7 & -> & (b7 & -> & Hb7 & ->) &
          w8 & r8 & c8 & -> & (b8 & -> & Hb8 & ->) &
          w9 & r9 & c9 & -> & (b9 & -> & Hb9 & ->) & -> & ->).
  apply N.eqb_eq in Hb1, Hb2, Hb3, Hb5, Hb7, Hb8, Hb9. subst.
  rewrite !app_nil_r.
  destruct Hopt as [(w & r & c & -> & (c' & (w' & r' & c'' & -> & (Hw & Hmin & ->) & -> & ->) & ->) & -> & ->)|[-> ->]].
  - rewrite !app_nil_r in *. exists w', w6'. split; [split; [reflexivity|exact Hw]|].
    unfold fenced_captures. destruct w'; [cbn in Hmin; lia|reflexivity].
  - exists [], w6'. split; [split; reflexivity|reflexivity].
Qed.

Lemma codeBlockRegex_advancing : advancing codeBlockRegex.
Proof.
  intros s rest caps H.
  destruct (match_at_sound _ _ _ _ H) as (w & -> & Hw).
  destruct (codeBlockRegex_consumes _ _ Hw) as (tag & content & [-> _] & _).
  rewrite !length_app. cbn. lia.
Qed.

Lemma stepRegex_consumes w caps :
  consumes_seq stepRegex w ∅ caps →
  ∃ digits space rest,
    numbered w digits space rest ∧ caps = <[2 := rest]> (<[1 := digits]> ∅).
Proof.
  unfold stepRegex. cbn [consumes_seq consumes].
  intros (w1 & r1 & c1 & -> & (c1' & (w1' & r1' & c1'' & -> & (Hd & Hdl & ->) & -> & ->) & ->) &
          w2 & r2 & c2 & -> & (b2 & -> & Hb2 & ->) &
          w3 & r3 & c3 & -> & (Hs & Hsl & ->) &
          w4 & r4 & c4 & -> & (c4' & (w4' & r4' & c4'' & -> & (Ht & Htl & ->) & -> & ->) & ->) &
          -> & ->).
  apply N.eqb_eq in Hb2. subst b2. rewrite !app_nil_r.
  exists w1', w3, w4'. split; [|reflexivity].
  unfold numbered. cbn [app]. auto 10.
Qed.

Lemma stepRegex_advancing : advancing stepRegex.
Proof.
  intros s rest caps H.
  destruct (match_at_sound _ _ _ _ H) as (w & -> & Hw).
  destruct (stepRegex_consumes _ _ Hw)
    as (digits & space & t & (-> & _ & Hd & _) & _).
  rewrite !length_app. cbn. lia.
Qed.

(** *** The two loops of [parseResponse] *)

Lemma exec_matched re str lastIndex m lastIndex' w :
  exec re str lastIndex = (Some m, lastIndex') →
  drop (index m) str = w ++ drop lastIndex' str →
  matched m = w.
Proof.
  intros H Hw.
  destruct (exec_found _ _ _ _ _ H) as (_ & Hl & Hle & _ & Ht).
  assert (Hlen : length (matched m) = length w).
  { apply (f_equal length) in Hw.
    rewrite length_app, !length_drop in Hw. lia. }
  rewrite <- Ht, Hw, Hlen. apply take_app_length.
Qed.

Lemma codeBlockRegex_group2 raw lastIndex m lastIndex' :
  exec codeBlockRegex raw lastIndex = (Some m, lastIndex') →
  ∃ tag content,
    groups m = fenced_captures tag content
    ∧ fenced (matched m) tag content.
Proof.
  intros H. destruct (exec_found _ _ _ _ _ H) as (_ & _ & _ & Hm & _).
  destruct (match_at_sound _ _ _ _ Hm) as (w & Hw & Hc).
  destruct (codeBlockRegex_consumes _ _ Hc) as (tag & content & Hf & Hg).
  exists tag, content. split; [exact Hg|].
  rewrite (exec_matched _ _ _ _ _ _ H Hw). exact Hf.
Qed.

Lemma stepRegex_group2 raw lastIndex m lastIndex' :
  exec stepRegex raw lastIndex = (Some m, lastIndex') →
  ∃ digits space rest,
    groups m = <[2 := rest]> (<[1 := digits]> ∅)
    ∧ numbered (matched m) digits space rest.
Proof.
  intros H. destruct (exec_found _ _ _ _ _ H) as (_ & _ & _ & Hm & _).
  destruct (match_at_sound _ _ _ _ Hm) as (w & Hw & Hc).
  destruct (stepRegex_consumes _ _ Hc) as (digits & space & rest & Hf & Hg).
  exists digits, space, rest. split; [exact Hg|].
  rewrite (exec_matched _ _ _ _ _ _ H Hw). exact Hf.
Qed.

Lemma codeBlocks_loop_scan raw : ∀ lastIndex ms,
  scan codeBlockRegex raw lastIndex ms →
  ∀ fuel codeBlocks,
    length ms < fuel →
    codeBlocks_loop fuel raw lastIndex codeBlocks
    = Returns (codeBlocks ++ (block_of <$> ms)).
Proof.
  induction 1 as [li Hnone|li m li' ms Hexec _ IH]; intros fuel acc Hfuel;
    (destruct fuel as [|fuel]; [cbn in Hfuel; lia|]); cbn [codeBlocks_loop].
  - destruct (exec codeBlockRegex raw li) as [[m|] li']; [discriminate|].
    cbn. rewrite app_nil_r. reflexivity.
  - rewrite Hexec.
    destruct (codeBlockRegex_group2 _ _ _ _ Hexec)
      as (tag & content & Hg & _).
    assert (H2 : group m 2 = Some content)
      by (unfold group; rewrite Hg; apply lookup_insert_eq).
    cbv beta iota. rewrite H2. rewrite IH by (cbn in Hfuel; lia).
    rewrite <- app_assoc. cbn [fmap list_fmap app]. unfold block_of.
    rewrite H2. reflexivity.
Qed.

Lemma steps_loop_scan raw : ∀ lastIndex ms,
  scan stepRegex raw lastIndex ms →
  ∀ fuel stepNumber steps,
    length ms < fuel →
    steps_loop fuel raw lastIndex stepNumber steps
    = Returns (steps ++ number_from stepNumber ms).
Proof.
  induction 1 as [li Hnone|li m li' ms Hexec _ IH];
    intros fuel n acc Hfuel;
    (destruct fuel as [|fuel]; [cbn in Hfuel; lia|]); cbn [steps_loop].
  - destruct (exec stepRegex raw li) as [[m|] li']; [discriminate|].
    cbn. rewrite app_nil_r. reflexivity.
  - rewrite Hexec.
    destruct (stepRegex_group2 _ _ _ _ Hexec)
      as (digits & space & rest & Hg & _).
    assert (H2 : group m 2 = Some rest)
      by (unfold group; rewrite Hg; apply lookup_insert_eq).
    cbv beta iota. rewrite H2. rewrite IH by (cbn in Hfuel; lia).
    rewrite <- app_assoc. cbn [number_from app].
    rewrite H2. reflexivity.
Qed.

(** The result of the parser in terms of the matches of its two
    expressions. *)
Lemma parseResponse_scan raw :
  ∃ blocks lines,
    scan codeBlockRegex raw 0 blocks
    ∧ scan stepRegex raw 0 lines
    ∧ ∀ fuel, length raw < fuel →
        parseResponse_fuel fuel raw
        = Returns {| explanation := explanation_of raw;
                     code := code_of_blocks (block_of <$> blocks);
                     steps := number_from 1 lines;
                     complexity := [] |}.
Proof.
  destruct (scan_total codeBlockRegex raw codeBlockRegex_advancing
              (S (length raw)) 0) as (blocks & Hb & Hbl); [lia|].
  destruct (scan_total stepRegex raw stepRegex_advancing
              (S (length raw)) 0) as (lines & Hl & Hll); [lia|].
  exists blocks, lines. split; [exact Hb|split; [exact Hl|]].
  intros fuel Hfuel. unfold parseResponse_fuel.
  rewrite (codeBlocks_loop_scan _ _ _ Hb) by lia.
  rewrite (steps_loop_scan _ _ _ Hl) by lia.
  reflexivity.
Qed.

(** *** Matching a fenced block *)

Lemma m_seq_nil s caps k : m_seq [] s caps k = k s caps.
Proof. reflexivity. Qed.

Lemma m_seq_cons r rs s caps k :
  m_seq (r :: rs) s caps k
  = m_node r s caps (λ s' caps', m_seq rs s' caps' k).
Proof. reflexivity. Qed.

Lemma m_node_Grp i body s caps k :
  m_node (Grp i body) s caps k
  = m_seq body s caps
      (λ s' caps', k s' (<[i := take (length s - length s') s]> caps')).
Proof. reflexivity. Qed.

Lemma m_node_Opt body s caps k :
  m_node (Opt body) s caps k
  = match m_seq body s caps k with
    | Some r => Some r
    | None => k s caps
    end.
Proof. reflexivity. Qed.

Lemma m_node_Rep p min greedy s caps k :
  m_node (Rep p min greedy) s caps k = m_rep p min greedy caps k s 0.
Proof. reflexivity. Qed.

Lemma m_seq_chr c rs s caps k :
  m_seq (chr c :: rs) (c :: s) caps k = m_seq rs s caps k.
Proof. cbn. rewrite N.eqb_refl. reflexivity. Qed.

(** The closing (or opening) fence as a pattern. *)
Lemma m_seq_fence s caps k :
  m_seq [chr BACKTICK; chr BACKTICK; chr BACKTICK] s caps k
  = if startsWith fence s then k (drop 3 s) caps else None.
Proof.
  rewrite fence_eq. unfold chr.
  destruct s as [|a [|b [|c s]]]; cbn -[N.eqb];
    rewrite ?(N.eqb_sym BACKTICK);
    repeat (destruct (_ =? BACKTICK)%N; cbn -[N.eqb]); reflexivity.
Qed.

(** A greedy repetition takes the whole run when what follows the run
    is accepted. *)
Lemma m_rep_greedy p min caps k r s' :
  match s' with c :: _ => p c = false | [] => True end →
  k s' caps = Some r →
  ∀ t n, forallb p t = true → min ≤ n + length t →
    m_rep p min true caps k (t ++ s') n = Some r.
Proof.
  intros Hhead Hk. induction t as [|c t IH]; intros n Ht Hmin.
  - cbn [app length] in *.
    destruct s' as [|c s']; cbn [m_rep].
    + destruct (Nat.leb_spec min n); [exact Hk|lia].
    + rewrite Hhead. destruct (Nat.leb_spec min n); [exact Hk|lia].
  - cbn [app m_rep]. cbn [forallb] in Ht.
    apply andb_true_iff in Ht as [-> Ht].
    rewrite IH; [reflexivity|exact Ht|cbn [length] in Hmin; lia].
Qed.

(** A lazy repetition stops at the first place where what follows is
    accepted. *)
Lemma m_rep_lazy p caps k r s' :
  k s' caps = Some r →
  ∀ c n, forallb p c = true →
    (∀ i, i < length c → k (drop i (c ++ s')) caps = None) →
    m_rep p 0 false caps k (c ++ s') n = Some r.
Proof.
  intros Hk. induction c as [|a c IH]; intros n Hc Hnone.
  - cbn [app]. destruct s'; cbn [m_rep]; cbn; rewrite Hk; reflexivity.
  - cbn [app m_rep]. cbn [forallb] in Hc.
    apply andb_true_iff in Hc as [-> Hc].
    pose proof (Hnone 0 ltac:(cbn; lia)) as H0. cbn [drop app] in H0.
    cbn [Nat.leb]. rewrite H0.
    apply IH; [exact Hc|].
    intros i Hi. apply (Hnone (S i)). cbn. lia.
Qed.

Lemma isWord_LF : isWord LF = false.
Proof. reflexivity. Qed.

Lemma fenced_match tag content rest :
  forallb isWord tag = true →
  closes_first content rest →
  match_at codeBlockRegex (fence ++ tag ++ LF :: content ++ fence ++ rest)
  = Some (rest, fenced_captures tag content).
Proof.
  intros Htag Hclose. unfold match_at.
  rewrite codeBlockRegex_eq, fence_eq. cbn [app].
  rewrite !m_seq_chr. rewrite m_seq_cons, m_node_Opt.
  set (K := λ s' caps', m_seq _ s' caps' _).
  assert (HK : ∀ caps,
    K (LF :: content ++ BACKTICK :: BACKTICK :: BACKTICK :: rest) caps
    = Some (rest, <[2 := content]> caps)).
  { intros caps. unfold K. rewrite m_seq_chr, m_seq_cons, m_node_Grp.
    rewrite m_seq_cons, m_node_Rep.
    change (BACKTICK :: BACKTICK :: BACKTICK :: rest) with (fence ++ rest).
    apply m_rep_lazy.
    - rewrite m_seq_nil, m_seq_fence.
      change (startsWith fence (fence ++ rest)) with true. cbv iota.
      rewrite take_consumed. reflexivity.
    - clear. induction content; [reflexivity|assumption].
    - intros i Hi. rewrite m_seq_nil, m_seq_fence, (Hclose i Hi).
      reflexivity. }
  destruct tag as [|c tag].
  - cbn [app]. rewrite m_seq_cons, m_node_Grp, m_seq_cons, m_node_Rep.
    cbn [m_rep]. rewrite isWord_LF. cbn [Nat.leb].
    apply HK.
  - rewrite m_seq_cons, m_node_Grp, m_seq_cons, m_node_Rep.
    erewrite m_rep_greedy;
      [reflexivity|exact isWord_LF| |exact Htag|cbn; lia].
    rewrite m_seq_nil. rewrite take_consumed. apply HK.
Qed.

(** *** Fenced blocks in document order *)

Lemma match_opens s rest caps :
  match_at codeBlockRegex s = Some (rest, caps) → opens_block s.
Proof.
  intros H. destruct (match_at_sound _ _ _ _ H) as (w & -> & Hw).
  destruct (codeBlockRegex_consumes _ _ Hw)
    as (tag & content & [-> Htag] & _).
  exists tag, content, rest. split; [exact Htag|].
  rewrite <- !app_assoc. cbn [app]. rewrite <- !app_assoc. reflexivity.
Qed.

Lemma no_block_no_match s :
  ¬ opens_block s → match_at codeBlockRegex s = None.
Proof.
  intros H. destruct (match_at codeBlockRegex s) as [[rest caps]|] eqn:E;
    [|reflexivity].
  exfalso. eapply H, match_opens, E.
Qed.

Lemma search_nothing re : ∀ s i,
  (∀ j, j ≤ length s → match_at re (drop j s) = None) →
  search re s i = None.
Proof.
  induction s as [|c s IH]; intros i H; rewrite search_eq.
  - pose proof (H 0 ltac:(cbn; lia)) as H0. cbn [drop] in H0. rewrite H0.
    reflexivity.
  - pose proof (H 0 ltac:(cbn; lia)) as H0. cbn [drop] in H0. rewrite H0.
    apply IH. intros j Hj. apply (H (S j)). cbn. lia.
Qed.


Lemma startsWith_app needle rest : startsWith needle (needle ++ rest) = true.
Proof.
  induction needle as [|a needle IH]; [reflexivity|].
  cbn [app startsWith]. rewrite N.eqb_refl. exact IH.
Qed.

Lemma startsWith_inv needle : ∀ s,
  startsWith needle s = true → ∃ rest, s = needle ++ rest.
Proof.
  induction needle as [|a needle IH]; intros s H; [eauto|].
  destruct s as [|b s]; [discriminate|]. cbn [startsWith] in H.
  apply andb_true_iff in H as [Hab H]. apply N.eqb_eq in Hab as <-.
  destruct (IH _ H) as (rest & ->). eauto.
Qed.

(** Where a marker occurs there is a first occurrence. *)
Lemma first_occurrence needle : ∀ s,
  (∃ i, i ≤ length s ∧ startsWith needle (drop i s) = true) →
  ∃ pre rest,
    s = pre ++ needle ++ rest
    ∧ ∀ j, j < length pre → startsWith needle (drop j s) = false.
Proof.
  induction s as [|c s IH]; intros (i & Hi & Hocc).
  - destruct i; cbn in Hocc; apply startsWith_inv in Hocc as (rest & E);
      exists [], rest; (split; [exact E|cbn; lia]).
  - destruct (startsWith needle (c :: s)) eqn:Hhere.
    + apply startsWith_inv in Hhere as (rest & E).
      exists [], rest. split; [exact E|cbn; lia].
    + destruct i as [|i]; [cbn in Hocc; congruence|].
      destruct IH as (pre & rest & E & Hfirst).
      { exists i. split; [cbn in Hi; lia|exact Hocc]. }
      exists (c :: pre), rest. split; [cbn; congruence|].
      intros [|j] Hj; [exact Hhere|]. apply Hfirst. cbn in Hj. lia.
Qed.

(** A block that is opened is closed by a nearest fence. *)
Lemma opens_block_nearest s :
  opens_block s →
  ∃ tag content rest,
    s = fence ++ tag ++ LF :: content ++ fence ++ rest
    ∧ forallb isWord tag = true
    ∧ closes_first content rest.
Proof.
  intros (tag & content & rest & Htag & ->).
  destruct (first_occurrence fence (content ++ fence ++ rest))
    as (content' & rest' & E & Hfirst).
  { exists (length content). split; [rewrite length_app; lia|].
    rewrite drop_app_length. apply startsWith_app. }
  exists tag, content', rest'. rewrite E. split; [reflexivity|].
  split; [exact Htag|]. intros i Hi. rewrite <- E. apply Hfirst, Hi.
Qed.

Lemma opens_block_matches s :
  opens_block s → ∃ rest caps, match_at codeBlockRegex s = Some (rest, caps).
Proof.
  intros H. destruct (opens_block_nearest _ H)
    as (tag & content & rest & -> & Htag & Hclose).
  eexists _, _. apply fenced_match; assumption.
Qed.



(** A block opens with a marker. *)
Lemma opens_block_fence s : opens_block s → startsWith fence s = true.
Proof. intros (tag & content & rest & _ & ->). apply startsWith_app. Qed.



(** *** Totality *)

(** C9. For every input string the parser returns a value, the same
    for every amount of fuel above the length of the input: it never
    throws and never runs on. *)
Theorem parser_total raw :
  ∃ sections,
    parseResponse raw = Returns sections
    ∧ ∀ fuel, length raw < fuel → parseResponse_fuel fuel raw = Returns sections.
Proof.
  destruct (parseResponse_scan raw) as (blocks & lines & _ & _ & H).
  eexists. split; [apply H; lia|exact H].
Qed.

(** *** Steps *)

Lemma scan_ordered re str :
  advancing re →
  ∀ lastIndex ms, scan re str lastIndex ms →
    Forall (λ m, lastIndex ≤ index m) ms
    ∧ StronglySorted lt (index <$> ms).
Proof.
  intros Hadv. induction 1 as [li Hnone|li m li' ms Hexec _ [IH1 IH2]].
  - split; constructor.
  - destruct (exec_found _ _ _ _ _ Hexec) as (Hi & Hl & Hle & Hm & _).
    apply Hadv in Hm. rewrite !length_drop in Hm.
    split.
    + constructor; [exact Hi|].
      eapply Forall_impl; [exact IH1|]. cbn. intros m' Hm'. lia.
    + cbn [fmap list_fmap]. constructor; [exact IH2|].
      apply Forall_fmap. eapply Forall_impl; [exact IH1|].
      cbn. intros m' Hm'. lia.
Qed.

Lemma number_from_numbers ms : ∀ n,
  stepNumber <$> number_from n ms
  = (λ i, n + Z.of_nat i)%Z <$> seq 0 (length ms).
Proof.
  induction ms as [|m ms IH]; intros n; [reflexivity|].
  cbn [number_from fmap list_fmap length seq stepNumber].
  f_equal; [lia|]. fold (fmap (M:=list) stepNumber). rewrite IH.
  rewrite <- seq_shift, <- list_fmap_compose.
  apply list_fmap_ext. intros i x _. cbn. lia.
Qed.

Lemma number_from_length ms : ∀ n, length (number_from n ms) = length ms.
Proof. induction ms as [|m ms IH]; intros n; cbn; [|rewrite IH]; reflexivity. Qed.

Lemma number_from_lines raw : ∀ lastIndex ms,
  scan stepRegex raw lastIndex ms →
  ∀ n,
    Forall2 (λ step m,
               ∃ digits space text,
                 numbered (matched m) digits space text
                 ∧ description step = trim text)
      (number_from n ms) ms.
Proof.
  induction 1 as [li Hnone|li m li' ms Hexec _ IH]; intros n;
    cbn [number_from]; constructor; [|apply IH].
  destruct (stepRegex_group2 _ _ _ _ Hexec)
    as (digits & space & text & Hg & Hnum).
  exists digits, space, text. split; [exact Hnum|].
  cbn [description]. unfold group. rewrite Hg, lookup_insert_eq. reflexivity.
Qed.

(** C7. For every text the parser returns; its steps correspond, in
    order, to the numbered lines the loop finds, which come at strictly
    increasing positions; the description of a step is the text of its
    line after the digits, the full stop and the white space, trimmed;
    and the step numbers are 1, 2, ..., n whatever the digits are. *)
Theorem step_renumbering raw :
  ∃ sections lines,
    parseResponse raw = Returns sections
    ∧ scan stepRegex raw 0 lines
    ∧ StronglySorted lt (index <$> lines)
    ∧ Forall2 (λ step m,
                 ∃ digits space text,
                   numbered (matched m) digits space text
                   ∧ description step = trim text)
        (steps sections) lines
    ∧ stepNumber <$> steps sections
      = Z.of_nat <$> seq 1 (length (steps sections)).
Proof.
  destruct (parseResponse_scan raw) as (blocks & lines & _ & Hlines & H).
  eexists _, lines. split; [apply H; lia|]. cbn [steps].
  split; [exact Hlines|]. split; [|split].
  - eapply scan_ordered; [exact stepRegex_advancing|exact Hlines].
  - eapply number_from_lines, Hlines.
  - rewrite number_from_numbers, number_from_length.
    rewrite <- seq_shift, <- list_fmap_compose.
    apply list_fmap_ext. intros i x _. cbn. lia.
Qed.

(** *** Explanation *)

Lemma indexOf_from_first needle rest : ∀ pre i,
  (∀ j, j < length pre →
     startsWith needle (drop j (pre ++ needle ++ rest)) = false) →
  indexOf_from needle (pre ++ needle ++ rest) i = (i + Z.of_nat (length pre))%Z.
Proof.
  induction pre as [|c pre IH]; intros i Hnone.
  - cbn [app length]. destruct (needle ++ rest) eqn:E;
      cbn [indexOf_from]; rewrite <- E, startsWith_app; lia.
  - pose proof (Hnone 0 ltac:(cbn; lia)) as H0. cbn [drop app] in H0.
    cbn [app]. cbn [indexOf_from]. rewrite H0.
    rewrite IH; [cbn [length]; lia|].
    intros j Hj. apply (Hnone (S j)). cbn. lia.
Qed.

Lemma indexOf_from_absent needle : ∀ s i,
  (∀ j, j ≤ length s → startsWith needle (drop j s) = false) →
  indexOf_from needle s i = (-1)%Z.
Proof.
  induction s as [|c s IH]; intros i Hnone;
    pose proof (Hnone 0 ltac:(cbn; lia)) as H0; cbn [drop] in H0;
    cbn [indexOf_from]; rewrite H0; [reflexivity|].
  apply IH. intros j Hj. apply (Hnone (S j)). cbn. lia.
Qed.

Lemma split_cons_inv sep s : ∃ piece pieces, split sep s = piece :: pieces.
Proof.
  induction s as [|c s (piece & pieces & IH)]; cbn [split]; [eauto|].
  destruct (c =? sep)%N; [eauto|]. rewrite IH. eauto.
Qed.

Lemma join_split_take : ∀ s n,
  join LF (take n (split LF s)) = first_lines n s.
Proof.
  intros s. induction s as [|c s IH]; intros [|n]; try reflexivity.
  { destruct n; reflexivity. }
  cbn [split first_lines]. destruct (N.eqb_spec c LF) as [->|Hc].
  - cbn [take]. specialize (IH n). destruct n as [|n]; [reflexivity|].
    rewrite <- IH.
    destruct (split_cons_inv LF s) as (piece & pieces & E). rewrite E.
    reflexivity.
  - specialize (IH (S n)). rewrite <- IH.
    destruct (split_cons_inv LF s) as (piece & pieces & E). rewrite E.
    cbn [take]. destruct (take n pieces); reflexivity.
Qed.

(** C8, as amended. For every text the parser returns; when the first
    fence marker of the text is at a position other than 0, whether or
    not it opens a complete block, the explanation is the text before
    that marker, trimmed; when the text has no fence marker at all, the
    explanation is its first three lines, trimmed. *)
Theorem explanation_extraction raw :
  ∃ sections,
    parseResponse raw = Returns sections
    ∧ (∀ pre, first_fence_after pre raw → pre ≠ [] →
         explanation sections = trim pre)
    ∧ (no_fence raw → explanation sections = trim (first_lines 3 raw)).
Proof.
  destruct (parseResponse_scan raw) as (blocks & lines & _ & _ & H).
  eexists. split; [apply H; lia|]. cbn [explanation].
  unfold explanation_of, indexOf. split.
  - intros pre [[rest ->] Hfirst] Hpre.
    rewrite indexOf_from_first by exact Hfirst.
    destruct pre as [|c pre]; [congruence|].
    replace (0 <? 0 + Z.of_nat (length (c :: pre)))%Z with true
      by (symmetry; apply Z.ltb_lt; cbn [length]; lia).
    unfold substring0.
    replace (Z.to_nat (0 + Z.of_nat (length (c :: pre))))
      with (length (c :: pre)) by lia.
    rewrite take_app_length. reflexivity.
  - intros Hnone. rewrite indexOf_from_absent by exact Hnone.
    cbn [Z.ltb Z.compare]. rewrite join_split_take. reflexivity.
Qed.

End Matcher.

(** ** Running the monad *)

Section Running.

Variable W : World.

Lemma observed_observed es1 n1 es2 n2 st :
  observed es2 n2 (observed es1 n1 st) = observed (es1 ++ es2) (n2 + n1) st.
Proof.
  unfold observed. simpl. rewrite app_assoc, Nat.add_assoc. reflexivity.
Qed.

Lemma observed_nil st : observed [] 0 st = st.
Proof. destruct st. unfold observed. simpl. rewrite app_nil_r. reflexivity. Qed.

Lemma bind_returns {A B} (m : M A) (f : A → M B) st a st' :
  m st = (Returns a, st') → (m ≫= f) st = f a st'.
Proof. intros H. unfold mbind, M_bind, bind. rewrite H. reflexivity. Qed.

Lemma bind_throws {A B} (m : M A) (f : A → M B) st e st' :
  m st = (Throws e, st') → (m ≫= f) st = (Throws e, st').
Proof. intros H. unfold mbind, M_bind, bind. rewrite H. reflexivity. Qed.

Lemma try_catch_returns {A} (m : M A) h st a st' :
  m st = (Returns a, st') → try_catch m h st = (Returns a, st').
Proof. intros H. unfold try_catch. rewrite H. reflexivity. Qed.

Lemma try_catch_throws {A} (m : M A) h st e st' :
  m st = (Throws e, st') → try_catch m h st = h e st'.
Proof. intros H. unfold try_catch. rewrite H. reflexivity. Qed.

Lemma log_run e st : log e st = (Returns tt, observed [e] 0 st).
Proof. reflexivity. Qed.

Lemma getSubmissionResult_ok token st data :
  judge0_get W (gets st) token = inr data →
  getSubmissionResult W token st
  = (Returns data, observed [SubmissionGet token] 1 st).
Proof.
  intros H. unfold getSubmissionResult.
  apply try_catch_returns.
  unfold mbind, M_bind, bind, get_state, put_state. simpl.
  rewrite H. reflexivity.
Qed.

Lemma getSubmissionResult_fails token st message :
  judge0_get W (gets st) token = inl message →
  getSubmissionResult W token st
  = (Throws (js "Failed to get submission result: " ++ message),
     observed [SubmissionGet token] 1 st).
Proof.
  intros H. unfold getSubmissionResult, try_catch.
  unfold mbind, M_bind, bind, get_state, put_state. simpl.
  rewrite H. reflexivity.
Qed.

(** With [n] attempts left before the ceiling and more fuel than that,
    the loop makes exactly [n] rounds and returns what the last request
    answered. *)
Lemma poll_loop_busy token (Hbusy : always_busy W token) :
  ∀ n fuel result attempts st,
    (attempts = maxAttempts - Z.of_nat n)%Z →
    n < fuel →
    (status_id result ≤ 2)%Z →
    ∃ last,
      poll_loop W fuel token result attempts st
      = (Returns last, observed (rounds n token) n st)
      ∧ (status_id last ≤ 2)%Z
      ∧ match n with
        | O => last = result
        | S n' => judge0_get W (n' + gets st) token = inr last
        end.
Proof.
  induction n as [|n IH]; intros fuel result attempts st Hatt Hfuel Hres.
  - destruct fuel as [|fuel]; [lia|]. simpl.
    replace (attempts <? maxAttempts)%Z with false
      by (symmetry; apply Z.ltb_ge; lia).
    rewrite andb_false_r. exists result.
    unfold ret. rewrite observed_nil. auto.
  - destruct fuel as [|fuel]; [lia|]. simpl.
    replace (status_id result <=? 2)%Z with true
      by (symmetry; apply Z.leb_le; lia).
    replace (attempts <? maxAttempts)%Z with true
      by (symmetry; apply Z.ltb_lt; lia).
    simpl.
    destruct (Hbusy (gets st)) as (data & Hget & Hdata).
    erewrite bind_returns by (unfold delay; apply log_run).
    erewrite bind_returns
      by (apply getSubmissionResult_ok; simpl; exact Hget).
    destruct (IH fuel data (attempts + 1)%Z
                (observed [SubmissionGet token] 1
                   (observed [Delay 1000] 0 st)))
      as (last & Hrun & Hlast & Hwhich); [lia|lia|assumption|].
    exists last. rewrite Hrun. rewrite !observed_observed. simpl.
    split; [|split; [assumption|]].
    + f_equal. f_equal. lia.
    + destruct n as [|n'].
      * subst last. simpl. exact Hget.
      * simpl in Hwhich. rewrite <- Hwhich. f_equal. lia.
Qed.

Lemma store_op_ok e write st :
  store_error W (store_ops st) = None →
  store_op W e write st = (Returns tt, observed [e] 0 (write (tick st))).
Proof. intros H. unfold store_op. rewrite H. reflexivity. Qed.

Lemma store_op_fails e write st message :
  store_error W (store_ops st) = Some message →
  store_op W e write st = (Throws message, tick st).
Proof. intros H. unfold store_op. rewrite H. reflexivity. Qed.

Lemma framed_refl st : framed st st.
Proof. exists [], 0. symmetry. apply observed_nil. Qed.

Lemma framed_trans st1 st2 st3 :
  framed st1 st2 → framed st2 st3 → framed st1 st3.
Proof.
  intros (es1 & n1 & ->) (es2 & n2 & ->). rewrite observed_observed.
  eexists _, _. reflexivity.
Qed.

Lemma framed_observed es n st : framed st (observed es n st).
Proof. eexists _, _. reflexivity. Qed.

Lemma getSubmissionResult_framed token st :
  framed st (snd (getSubmissionResult W token st)).
Proof.
  destruct (judge0_get W (gets st) token) as [message|data] eqn:E.
  - rewrite (getSubmissionResult_fails _ _ _ E). apply framed_observed.
  - rewrite (getSubmissionResult_ok _ _ _ E). apply framed_observed.
Qed.

Lemma poll_loop_framed token : ∀ fuel result attempts st,
  framed st (snd (poll_loop W fuel token result attempts st)).
Proof.
  induction fuel as [|fuel IH]; intros result attempts st; simpl.
  - apply framed_refl.
  - destruct ((status_id result <=? 2)%Z && (attempts <? maxAttempts)%Z);
      [|apply framed_refl].
    unfold mbind, M_bind, bind, delay. rewrite (log_run (Delay 1000) st).
    pose proof (getSubmissionResult_framed token
                  (observed [Delay 1000] 0 st)) as Hg.
    destruct (getSubmissionResult W token (observed [Delay 1000] 0 st))
      as [[data|e|] st1]; cbn [snd] in *.
    + eapply framed_trans; [|apply IH].
      eapply framed_trans; [apply framed_observed|exact Hg].
    + eapply framed_trans; [apply framed_observed|exact Hg].
    + eapply framed_trans; [apply framed_observed|exact Hg].
Qed.

Lemma executeCode_framed code language input st :
  framed st (snd (executeCode W code language input st)).
Proof.
  unfold executeCode.
  unfold mbind at 1. unfold M_bind, bind.
  rewrite (log_run (ExecuteCode code language) st).
  set (st0 := observed [ExecuteCode code language] 0 st).
  assert (H0 : framed st st0) by apply framed_observed.
  clearbody st0.
  destruct (negb (truthy (RAPIDAPI_KEY W))); [exact H0|].
  cbv zeta. unfold try_catch.
  destruct (not_languageId (languageIds_get (toLowerCase W language)));
    [exact H0|].
  fold (submission W code language input).
  unfold mbind, M_bind, bind.
  rewrite (log_run (SubmissionPost (submission W code language input)) st0).
  set (st1 := observed _ 0 st0).
  assert (H1 : framed st st1)
    by (eapply framed_trans; [exact H0|apply framed_observed]).
  clearbody st1.
  destruct (judge0_post W (submission W code language input))
    as [message|token]; cbn [throw ret snd]; [exact H1|].
  pose proof (getSubmissionResult_framed token st1) as Hg.
  destruct (getSubmissionResult W token st1) as [[data|e|] st2];
    cbn [throw ret snd] in *;
    try (eapply framed_trans; [exact H1|exact Hg]).
  pose proof (poll_loop_framed token (S (Z.to_nat maxAttempts)) data 0%Z st2)
    as Hp.
  destruct (poll_loop W (S (Z.to_nat maxAttempts)) token data 0%Z st2)
    as [[r|e|] st3];
    cbn [throw ret snd] in *;
    (eapply framed_trans; [exact H1|]; eapply framed_trans; eassumption).
Qed.

End Running.

(** ** Execution client *)

Section Execution.

Variable W : World.

(** The start of every call that gets past the two guards. *)
Lemma executeCode_submits code language input st :
  truthy (RAPIDAPI_KEY W) = true →
  not_languageId (languageIds_get (toLowerCase W language)) = false →
  ∃ later,
    trace (snd (executeCode W code language input st))
    = trace st ++ ExecuteCode code language
        :: SubmissionPost (submission W code language input) :: later.
Proof.
  intros Hkey Hlang. unfold executeCode.
  unfold mbind at 1. unfold M_bind, bind.
  rewrite (log_run (ExecuteCode code language) st).
  rewrite Hkey. change (negb true) with false. cbv beta iota zeta.
  rewrite Hlang.
  fold (submission W code language input).
  set (st0 := observed [ExecuteCode code language] 0 st).
  unfold try_catch, mbind, M_bind, bind.
  rewrite (log_run (SubmissionPost (submission W code language input)) st0).
  set (st1 := observed _ 0 st0).
  assert (Hfin : ∀ st2, framed st1 st2 →
            ∃ later, trace st2 = trace st ++ ExecuteCode code language
              :: SubmissionPost (submission W code language input) :: later).
  { intros st2 (es & n & ->). exists es. subst st1 st0. cbn [trace observed].
    rewrite <- !app_assoc. reflexivity. }
  clearbody st1.
  destruct (judge0_post W (submission W code language input))
    as [message|token]; cbn [throw ret snd];
    [apply Hfin, framed_refl|].
  pose proof (getSubmissionResult_framed W token st1) as Hg.
  destruct (getSubmissionResult W token st1) as [[data|e|] st2];
    cbn [throw ret snd] in *; try (apply Hfin, Hg).
  pose proof (poll_loop_framed W token (S (Z.to_nat maxAttempts)) data 0%Z st2)
    as Hp.
  destruct (poll_loop W (S (Z.to_nat maxAttempts)) token data 0%Z st2)
    as [[r|e|] st3];
    cbn [throw ret snd] in *; apply Hfin; eapply framed_trans; eassumption.
Qed.

(** C3. Against a sandbox that answers every result request with status
    2 ("Processing"), a call that gets past the key and language guards
    and whose submission is accepted makes the first result request and
    then exactly 10 rounds of the loop, each a wait of 1000 ms followed
    by a result request, and returns normally: what it returns is the
    formatted answer to the last request, still with status 2 and the
    label "Processing".  Nothing is thrown. *)
Theorem poll_ceiling code language input token st :
  truthy (RAPIDAPI_KEY W) = true →
  not_languageId (languageIds_get (toLowerCase W language)) = false →
  judge0_post W (submission W code language input) = inr token →
  (∀ n, ∃ data, judge0_get W n token = inr data ∧ status_id data = 2%Z) →
  ∃ last,
    executeCode W code language input st
    = (Returns (formatResult last),
       observed ([ExecuteCode code language;
                  SubmissionPost (submission W code language input);
                  SubmissionGet token] ++ rounds 10 token) 11 st)
    ∧ judge0_get W (10 + gets st) token = inr last
    ∧ status_id last = 2%Z
    ∧ status (formatResult last) = js "Processing"
    ∧ length (filter is_get (rounds 10 token)) = 10.
Proof.
  intros Hkey Hlang Hpost Hbusy.
  assert (Hb : always_busy W token).
  { intros n. destruct (Hbusy n) as (d & Hd & Hs). exists d. split; [assumption|lia]. }
  unfold executeCode.
  unfold mbind at 1. unfold M_bind, bind.
  rewrite (log_run (ExecuteCode code language) st).
  rewrite Hkey. change (negb true) with false. cbv beta iota zeta. rewrite Hlang.
  fold (submission W code language input).
  set (st0 := observed [ExecuteCode code language] 0 st).
  destruct (Hbusy (gets st)) as (first & Hfirst & Hfs).
  set (st1 := observed [SubmissionPost (submission W code language input)] 0 st0).
  set (st2 := observed [SubmissionGet token] 1 st1).
  destruct (poll_loop_busy W token Hb 10 (S (Z.to_nat maxAttempts)) first 0%Z st2)
    as (last & Hrun & Hlast & Hwhich); [reflexivity|unfold maxAttempts; lia|lia|].
  exists last.
  assert (Hl2 : status_id last = 2%Z).
  { destruct (Hbusy (9 + gets st2)) as (d & Hd & Hs). rewrite Hwhich in Hd.
    congruence. }
  split; [|split; [|split; [|split]]].
  - erewrite try_catch_returns; [reflexivity|].
    erewrite bind_returns by apply log_run. fold st1.
    rewrite Hpost.
    erewrite bind_returns by reflexivity.
    erewrite bind_returns by (apply getSubmissionResult_ok; exact Hfirst).
    fold st2.
    erewrite bind_returns by exact Hrun.
    unfold ret. f_equal.
    subst st2 st1 st0. rewrite !observed_observed. reflexivity.
  - exact Hwhich.
  - exact Hl2.
  - unfold formatResult. simpl. rewrite Hl2. reflexivity.
  - reflexivity.
Qed.

End Execution.

(** ** Coordinator *)

Section Coordinator.

Variable W : World.

(** *** One path at a time *)

Lemma dispatch_default :
  bool_decide (default (js "gpt-4") None = js "claude-3")
  || bool_decide (default (js "gpt-4") None = js "claude-2") = false.
Proof. reflexivity. Qed.

Lemma generateSolutionGPT_fails p st message :
  openai_create W p = inl message →
  generateSolutionGPT W p st
  = (Throws (js "AI service error: " ++ message),
     observed [OpenAIRequest p] 0 st).
Proof.
  intros H. unfold generateSolutionGPT.
  erewrite try_catch_throws; [reflexivity|].
  erewrite bind_returns by apply log_run. rewrite H. reflexivity.
Qed.

Lemma generateSolution_fails p st message :
  openai_create W p = inl message →
  generateSolution W p None st
  = (Throws (js "AI service error: " ++ message),
     observed [OpenAIRequest p] 0 st).
Proof.
  intros H. unfold generateSolution. cbv zeta. rewrite dispatch_default.
  erewrite try_catch_throws; [reflexivity|].
  erewrite bind_throws; [reflexivity|].
  apply generateSolutionGPT_fails, H.
Qed.

Lemma Problem_create_ok doc st :
  store_error W (store_ops st) = None →
  Problem_create W doc st
  = (Returns (fresh_problem st),
     observed [ProblemCreate (fresh_problem st)] 0
       (with_problems (insert (fresh_problem st) doc)
          (with_db_problems (insert (fresh_problem st) doc) (tick st)))).
Proof.
  intros H. unfold Problem_create.
  erewrite bind_returns by reflexivity.
  erewrite bind_returns by (apply store_op_ok, H). reflexivity.
Qed.

Lemma Problem_save_ok id doc st :
  store_error W (store_ops st) = None →
  problems st !! id = Some doc →
  Problem_save W id st
  = (Returns tt,
     observed [ProblemSave id] 0 (with_db_problems (insert id doc) (tick st))).
Proof.
  intros H Hdoc. unfold Problem_save. rewrite (store_op_ok W _ _ _ H).
  cbn [problems tick]. rewrite Hdoc. reflexivity.
Qed.

Ltac lookup :=
  cbn [db_problems db_solutions db_users problems solutions req_user
       observed tick with_db_problems with_db_solutions with_db_users
       with_problems with_solutions with_req_user];
  rewrite ?lookup_alter_eq, ?lookup_insert_eq;
  reflexivity.

(** C4. When the request has its three required fields, the store
    accepts its operations and the call to the primary provider fails,
    the handler answers with the failure reply; the problem it created is
    stored with status [failed]; no solution is stored or held; the user
    object and the stored users are unchanged; and the trace is the
    creation of the problem, the request to the provider and the save of
    the problem: the execution client is never called. *)
Theorem generation_failure body st message :
  valid_body body →
  reliable_store W →
  openai_create W (input_of body) = inl message →
  let id := fresh_problem st in
  let doc := set_failed (new_problem (_id (req_user st)) body) in
  ∃ st',
    post_problem W body st
    = (Returns (GenerationFailed (js "AI service error: " ++ message)
                  (Some doc)), st')
    ∧ db_problems st' = <[id := doc]> (db_problems st)
    ∧ p_status doc = failed
    ∧ db_solutions st' = db_solutions st
    ∧ solutions st' = solutions st
    ∧ req_user st' = req_user st
    ∧ db_users st' = db_users st
    ∧ trace st' = trace st ++ [ProblemCreate id; OpenAIRequest (input_of body);
                               ProblemSave id].
Proof.
  intros (Ht & Hd & Hc) Hstore Hai id doc.
  unfold post_problem. rewrite Ht, Hd, Hc. cbn [negb orb].
  eexists. split.
  - erewrite try_catch_returns; [reflexivity|].
    erewrite bind_returns by reflexivity.
    erewrite bind_returns by (apply Problem_create_ok, Hstore).
    fold id.
    erewrite try_catch_throws
      by (erewrite bind_throws; [reflexivity|apply generateSolution_fails, Hai]).
    erewrite bind_returns by reflexivity.
    erewrite bind_returns by (apply Problem_save_ok; [apply Hstore|lookup]).
    erewrite bind_returns by reflexivity.
    unfold ret. f_equal. f_equal. f_equal. lookup.
  - cbn [db_problems db_solutions solutions req_user db_users trace
         problems observed with_problems with_db_problems tick].
    rewrite insert_insert_eq.
    repeat split; try reflexivity.
    rewrite <- !app_assoc. reflexivity.
Qed.

Lemma Solution_create_ok doc st :
  store_error W (store_ops st) = None →
  Solution_create W doc st
  = (Returns (fresh_solution st),
     observed [SolutionCreate (fresh_solution st)] 0
       (with_solutions (insert (fresh_solution st) doc)
          (with_db_solutions (insert (fresh_solution st) doc) (tick st)))).
Proof.
  intros H. unfold Solution_create.
  erewrite bind_returns by reflexivity.
  erewrite bind_returns by (apply store_op_ok, H). reflexivity.
Qed.

Lemma Solution_save_ok id doc st :
  store_error W (store_ops st) = None →
  solutions st !! id = Some doc →
  Solution_save W id st
  = (Returns tt,
     observed [SolutionSave id] 0
       (with_db_solutions (insert id doc) (tick st))).
Proof.
  intros H Hdoc. unfold Solution_save. rewrite (store_op_ok W _ _ _ H).
  cbn [solutions tick]. rewrite Hdoc. reflexivity.
Qed.

Lemma incrementQueryCount_ok st :
  store_error W (store_ops st) = None →
  req_user_incrementQueryCount W st
  = (Returns tt,
     observed [UserSave (_id (req_user st))] 0
       (with_db_users (insert (_id (req_user st)) (countQuery (req_user st)))
          (tick (with_req_user countQuery st)))).
Proof.
  intros H. unfold req_user_incrementQueryCount.
  erewrite bind_returns by reflexivity.
  erewrite bind_returns by reflexivity.
  rewrite store_op_ok by exact H. reflexivity.
Qed.

Lemma Problem_findById_ok id doc st :
  store_error W (store_ops st) = None →
  db_problems st !! id = Some doc →
  Problem_findById W id st
  = (Returns (Some (doc, p_solution doc ≫= λ sid, db_solutions st !! sid)),
     observed [ProblemFind id] 0 (tick st)).
Proof.
  intros H Hdoc. unfold Problem_findById.
  erewrite bind_returns by (apply store_op_ok, H).
  erewrite bind_returns by reflexivity.
  cbn [db_problems db_solutions observed tick]. rewrite Hdoc. reflexivity.
Qed.

Lemma generateSolution_ok p st response parsed :
  openai_create W p = inr response →
  parseResponse (content response) = Returns parsed →
  generateSolution W p None st
  = (Returns (ai_result response parsed), observed [OpenAIRequest p] 0 st).
Proof.
  intros H Hp. unfold generateSolution. cbv zeta. rewrite dispatch_default.
  erewrite try_catch_returns; [reflexivity|].
  erewrite bind_returns; cycle 1.
  { unfold generateSolutionGPT. erewrite try_catch_returns; [reflexivity|].
    erewrite bind_returns by apply log_run. rewrite H. reflexivity. }
  cbn [pr_answer]. rewrite Hp.
  erewrite bind_returns by reflexivity. reflexivity.
Qed.

(** C5. When generation succeeds with a snippet that is not empty, a
    language was given, the store accepts its operations and the call of
    the execution client throws with message [e], the handler answers
    201; the stored solution carries the execution result with status
    "Execution Failed" and error [e]; and the stored problem has status
    [solved] and refers to that solution. *)
Theorem execution_degradation body st response parsed e :
  valid_body body →
  reliable_store W →
  openai_create W (input_of body) = inr response →
  parseResponse (content response) = Returns parsed →
  truthy (Some (snippet (code parsed))) = true →
  truthy (b_language body) = true →
  (∀ st1, gets st1 = gets st →
     fst (executeCode W (snippet (code parsed))
            (default [] (b_language body)) None st1) = Throws e) →
  let pid := fresh_problem st in
  let sid := fresh_solution st in
  let sdoc := set_executionResult (executionFailed e)
                (new_solution pid (ai_result response parsed)) in
  let pdoc := set_solved sid (new_problem (_id (req_user st)) body) in
  ∃ st',
    post_problem W body st = (Returns (Created (Some (pdoc, Some sdoc))), st')
    ∧ db_problems st' = <[pid := pdoc]> (db_problems st)
    ∧ p_status pdoc = solved
    ∧ p_solution pdoc = Some sid
    ∧ db_solutions st' = <[sid := sdoc]> (db_solutions st)
    ∧ executionResult sdoc = Some (executionFailed e)
    ∧ status (executionFailed e) = js "Execution Failed"
    ∧ error (executionFailed e) = Some e
    ∧ req_user st' = countQuery (req_user st).
Proof.
  intros (Ht & Hd & Hc) Hstore Hai Hparse Hsnip Hlang Hexec pid sid sdoc pdoc.
  unfold post_problem. rewrite Ht, Hd, Hc. cbn [negb orb].
  set (st1 := observed [ProblemCreate pid] 0
       (with_problems (insert pid (new_problem (_id (req_user st)) body))
          (with_db_problems (insert pid (new_problem (_id (req_user st)) body)) (tick st)))).
  set (st2 := observed [OpenAIRequest (input_of body)] 0 st1).
  set (st3 := observed [SolutionCreate sid] 0
       (with_solutions (insert sid (new_solution pid (ai_result response parsed)))
          (with_db_solutions (insert sid (new_solution pid (ai_result response parsed))) (tick st2)))).
  pose proof (executeCode_framed W (snippet (code parsed))
                (default [] (b_language body)) None st3) as (es & n & Hfr).
  pose proof (Hexec st3 eq_refl) as Hthrow.
  destruct (executeCode W (snippet (code parsed))
              (default [] (b_language body)) None st3) as [r st4] eqn:Hrun.
  cbn [fst snd] in *. subst r st4.
  eexists. split.
  - erewrite try_catch_returns; [reflexivity|].
    erewrite bind_returns by reflexivity.
    erewrite bind_returns by (apply Problem_create_ok, Hstore).
    fold pid. fold st1.
    erewrite try_catch_returns; [reflexivity|].
    erewrite bind_returns by (apply generateSolution_ok; eassumption).
    fold st2.
    erewrite bind_returns by (apply Solution_create_ok, Hstore).
    change (fresh_solution st2) with sid. fold st3.
    cbn [ai_code ai_result]. rewrite Hsnip, Hlang. cbn [andb].
    erewrite bind_returns; cycle 1.
    { erewrite try_catch_throws
        by (erewrite bind_throws; [reflexivity|exact Hrun]).
      erewrite bind_returns by reflexivity.
      apply Solution_save_ok; [apply Hstore|subst st3; lookup]. }
    erewrite bind_returns by reflexivity.
    erewrite bind_returns by (apply Problem_save_ok; [apply Hstore|subst st3 st2 st1; lookup]).
    erewrite bind_returns by (apply incrementQueryCount_ok, Hstore).
    erewrite bind_returns by (apply Problem_findById_ok; [apply Hstore|subst st3 st2 st1; lookup]).
    unfold ret. f_equal. f_equal. f_equal. f_equal.
    cbn [p_solution set_solved mbind option_bind].
    subst st3 st2 st1. lookup.
  - subst st3 st2 st1.
    cbn [db_problems db_solutions db_users problems solutions req_user
         observed tick with_db_problems with_db_solutions with_db_users
         with_problems with_solutions with_req_user].
    rewrite !insert_insert_eq.
    repeat split; reflexivity.
Qed.

(** *** Invariants of a run *)

Lemma keeps_ret {A} I (Q : A → Prop) a : Q a → keeps I Q (ret a).
Proof. intros Ha st Hst. split; [exact Hst|]. intros a' [= <-]. exact Ha. Qed.

Lemma keeps_throw {A} I (Q : A → Prop) e : keeps I Q (throw e).
Proof. intros st Hst. split; [exact Hst|]. intros a' [=]. Qed.

Lemma keeps_lift {A} I (Q : A → Prop) (o : outcome A) :
  (∀ a, o = Returns a → Q a) → keeps I Q (lift o).
Proof. intros Ho st Hst. split; [exact Hst|]. exact Ho. Qed.

Lemma keeps_bind {A B} I (Q : A → Prop) (R : B → Prop) m (f : A → M B) :
  keeps I Q m → (∀ a, Q a → keeps I R (f a)) → keeps I R (m ≫= f).
Proof.
  intros Hm Hf st Hst. destruct (Hm st Hst) as [H1 H2].
  unfold mbind, M_bind, bind.
  destruct (m st) as [[a|e|] st1]; cbn [fst snd] in *.
  - apply Hf; [apply H2; reflexivity|exact H1].
  - split; [exact H1|]. intros a' [=].
  - split; [exact H1|]. intros a' [=].
Qed.

Lemma keeps_try_catch {A} I (Q : A → Prop) m h :
  keeps I Q m → (∀ e, keeps I Q (h e)) → keeps I Q (try_catch m h).
Proof.
  intros Hm Hh st Hst. destruct (Hm st Hst) as [H1 H2].
  unfold try_catch.
  destruct (m st) as [[a|e|] st1]; cbn [fst snd] in *.
  - split; [exact H1|exact H2].
  - apply Hh, H1.
  - split; [exact H1|]. intros a' [=].
Qed.

Lemma keeps_get_state I : keeps I I get_state.
Proof. intros st Hst. split; [exact Hst|]. intros a [= <-]. exact Hst. Qed.

Lemma keeps_modify I f :
  (∀ st, I st → I (f st)) → keeps I (λ _, True) (modify f).
Proof. intros Hf st Hst. split; [apply Hf, Hst|]. auto. Qed.

Lemma keeps_log I e :
  (∀ st, I st → I (observed [e] 0 st)) → keeps I (λ _, True) (log e).
Proof. intros He st Hst. rewrite log_run. split; [apply He, Hst|]. auto. Qed.

Lemma keeps_store_op I e write :
  (∀ st, I st → I (tick st)) →
  (∀ st, I st → I (write st)) →
  (∀ st, I st → I (observed [e] 0 st)) →
  keeps I (λ _, True) (store_op W e write).
Proof.
  intros Ht Hw He st Hst.
  destruct (store_error W (store_ops st)) as [message|] eqn:E.
  - rewrite (store_op_fails W _ _ _ _ E). split; [apply Ht, Hst|]. auto.
  - rewrite (store_op_ok W _ _ _ E). split; [|auto]. apply He, Hw, Ht, Hst.
Qed.

Section Primary.

Variable before : gmap nat SolutionDoc.

Local Abbreviation I := (primary_only before).

Lemma primary_tick st : I st → I (tick st).
Proof. auto. Qed.

Lemma primary_observed e n st :
  is_anthropic e = false → I st → I (observed [e] n st).
Proof.
  intros He (H1 & H2 & H3). split; [exact H1|split; [exact H2|]].
  cbn [trace observed]. apply Forall_app. split; [exact H3|].
  constructor; [exact He|constructor].
Qed.

Lemma primary_other st st' :
  I st →
  db_solutions st' = db_solutions st →
  solutions st' = solutions st →
  trace st' = trace st →
  I st'.
Proof.
  intros (H1 & H2 & H3) E1 E2 E3. unfold primary_only.
  rewrite E1, E2, E3. auto.
Qed.

Ltac unchanged :=
  let st := fresh "st" in
  let H := fresh "H" in
  intros st H; eapply primary_other; [exact H|reflexivity..].

Lemma keeps_getSubmissionResult token :
  keeps I (λ _, True) (getSubmissionResult W token).
Proof.
  intros st Hst.
  destruct (judge0_get W (gets st) token) as [message|data] eqn:E.
  - rewrite (getSubmissionResult_fails W _ _ _ E).
    split; [apply primary_observed; [reflexivity|exact Hst]|auto].
  - rewrite (getSubmissionResult_ok W _ _ _ E).
    split; [apply primary_observed; [reflexivity|exact Hst]|auto].
Qed.

Lemma keeps_poll_loop token : ∀ fuel result attempts,
  keeps I (λ _, True) (poll_loop W fuel token result attempts).
Proof.
  induction fuel as [|fuel IH]; intros result attempts; cbn [poll_loop].
  - apply keeps_lift. auto.
  - destruct (_ && _); [|apply keeps_ret; exact Logic.I].
    eapply keeps_bind.
    { apply keeps_log. intros st. apply primary_observed. reflexivity. }
    intros _ _. eapply keeps_bind; [apply keeps_getSubmissionResult|].
    intros data _. apply IH.
Qed.

Lemma keeps_executeCode code language input :
  keeps I (λ _, True) (executeCode W code language input).
Proof.
  unfold executeCode. eapply keeps_bind.
  { apply keeps_log. intros st. apply primary_observed. reflexivity. }
  intros _ _. destruct (negb _); [apply keeps_throw|].
  apply keeps_try_catch; [|intros e; apply keeps_throw].
  cbv zeta. destruct (not_languageId _); [apply keeps_throw|].
  eapply keeps_bind.
  { apply keeps_log. intros st. apply primary_observed. reflexivity. }
  intros _ _. apply (keeps_bind _ (λ _, True)).
  { destruct (judge0_post W _);
      [apply keeps_throw|apply keeps_ret; exact Logic.I]. }
  intros token _. eapply keeps_bind; [apply keeps_getSubmissionResult|].
  intros data _. eapply keeps_bind; [apply keeps_poll_loop|].
  intros last _. apply keeps_ret. exact Logic.I.
Qed.

Lemma keeps_generateSolution p :
  keeps I (λ r, ai_aiModel r = js "gpt-4") (generateSolution W p None).
Proof.
  unfold generateSolution. cbv zeta. rewrite dispatch_default.
  apply keeps_try_catch; [|intros e; apply keeps_throw].
  apply (keeps_bind _ (λ r, pr_model r = js "gpt-4")).
  { unfold generateSolutionGPT.
    apply keeps_try_catch; [|intros e; apply keeps_throw].
    eapply keeps_bind.
    { apply keeps_log. intros st. apply primary_observed. reflexivity. }
    intros _ _. destruct (openai_create W p);
      [apply keeps_throw|apply keeps_ret; reflexivity]. }
  intros result Hresult. apply (keeps_bind _ (λ _, True)).
  { apply keeps_lift. auto. }
  intros parsed _. apply keeps_ret. exact Hresult.
Qed.

Lemma keeps_Problem_create doc :
  keeps I (λ _, True) (Problem_create W doc).
Proof.
  unfold Problem_create.
  eapply keeps_bind; [apply keeps_get_state|]. intros st _.
  eapply keeps_bind; [|intros; apply keeps_ret; exact Logic.I].
  apply keeps_store_op.
  - apply primary_tick.
  - unchanged.
  - intros st'. apply primary_observed. reflexivity.
Qed.

Lemma keeps_Problem_save id : keeps I (λ _, True) (Problem_save W id).
Proof.
  apply keeps_store_op.
  - apply primary_tick.
  - intros st H. destruct (problems st !! id); [|exact H].
    revert st H. unchanged.
  - intros st'. apply primary_observed. reflexivity.
Qed.

Lemma keeps_Problem_findById id :
  keeps I (λ _, True) (Problem_findById W id).
Proof.
  unfold Problem_findById.
  eapply keeps_bind.
  { apply keeps_store_op; [apply primary_tick|auto|].
    intros st'. apply primary_observed. reflexivity. }
  intros _ _. eapply keeps_bind; [apply keeps_get_state|].
  intros st _. apply keeps_ret. exact Logic.I.
Qed.

Lemma primary_insert sid doc st :
  aiModel doc = js "gpt-4" → I st →
  I (with_solutions (insert sid doc) (with_db_solutions (insert sid doc) st)).
Proof.
  intros Hdoc (H1 & H2 & H3). split; [|split; [|exact H3]].
  - intros sid' doc'. cbn [db_solutions with_solutions with_db_solutions].
    rewrite lookup_insert_Some. intros [[_ <-]|[_ Hold]]; [auto|].
    apply H1, Hold.
  - intros sid' doc'. cbn [solutions with_solutions with_db_solutions].
    rewrite lookup_insert_Some. intros [[_ <-]|[_ Hold]]; [auto|].
    eapply H2, Hold.
Qed.

Lemma primary_alter r sid st :
  I st → I (with_solutions (alter (set_executionResult r) sid) st).
Proof.
  intros (H1 & H2 & H3). split; [exact H1|split; [|exact H3]].
  intros sid' doc'. cbn [solutions with_solutions].
  rewrite lookup_alter_Some.
  intros [(_ & doc & Hdoc & ->)|[_ Hold]].
  - cbn [aiModel set_executionResult]. eapply H2, Hdoc.
  - eapply H2, Hold.
Qed.

Lemma keeps_Solution_create doc :
  aiModel doc = js "gpt-4" → keeps I (λ _, True) (Solution_create W doc).
Proof.
  intros Hdoc. unfold Solution_create.
  eapply keeps_bind; [apply keeps_get_state|]. intros st _.
  eapply keeps_bind; [|intros; apply keeps_ret; exact Logic.I].
  apply keeps_store_op.
  - apply primary_tick.
  - intros st'. apply primary_insert, Hdoc.
  - intros st'. apply primary_observed. reflexivity.
Qed.

Lemma keeps_Solution_save id : keeps I (λ _, True) (Solution_save W id).
Proof.
  apply keeps_store_op.
  - apply primary_tick.
  - intros st (H1 & H2 & H3).
    destruct (solutions st !! id) as [doc|] eqn:E; [|repeat split; assumption].
    split; [|split; [exact H2|exact H3]].
    intros sid' doc'. cbn [db_solutions with_db_solutions].
    rewrite lookup_insert_Some. intros [[_ <-]|[_ Hold]].
    + right. eapply H2, E.
    + apply H1, Hold.
  - intros st'. apply primary_observed. reflexivity.
Qed.

Lemma keeps_incrementQueryCount :
  keeps I (λ _, True) (req_user_incrementQueryCount W).
Proof.
  unfold req_user_incrementQueryCount.
  eapply keeps_bind.
  { apply keeps_modify. unchanged. }
  intros _ _. eapply keeps_bind; [apply keeps_get_state|]. intros st _.
  apply keeps_store_op.
  - apply primary_tick.
  - unchanged.
  - intros st'. apply primary_observed. reflexivity.
Qed.

Lemma keeps_post_problem body : keeps I (λ _, True) (post_problem W body).
Proof.
  unfold post_problem.
  apply keeps_try_catch; [|intros e; apply keeps_ret; exact Logic.I].
  destruct (_ || _); [apply keeps_ret; exact Logic.I|].
  eapply keeps_bind; [apply keeps_get_state|]. intros st _.
  eapply keeps_bind; [apply keeps_Problem_create|]. intros problem _.
  apply keeps_try_catch.
  - eapply keeps_bind; [apply keeps_generateSolution|].
    intros aiResult Hmodel.
    eapply keeps_bind; [apply keeps_Solution_create; exact Hmodel|].
    intros solution _.
    apply (keeps_bind _ (λ _, True)).
    { destruct (_ && _); [|apply keeps_ret; exact Logic.I].
      apply keeps_try_catch.
      - eapply keeps_bind; [apply keeps_executeCode|]. intros r _.
        eapply keeps_bind; [|intros; apply keeps_Solution_save].
        apply keeps_modify. intros st'. apply primary_alter.
      - intros e.
        eapply keeps_bind; [|intros; apply keeps_Solution_save].
        apply keeps_modify. intros st'. apply primary_alter. }
    intros _ _. eapply keeps_bind.
    { apply keeps_modify. unchanged. }
    intros _ _. eapply keeps_bind; [apply keeps_Problem_save|].
    intros _ _. eapply keeps_bind; [apply keeps_incrementQueryCount|].
    intros _ _. eapply keeps_bind; [apply keeps_Problem_findById|].
    intros populated _. apply keeps_ret. exact Logic.I.
  - intros aiError. eapply keeps_bind.
    { apply keeps_modify. unchanged. }
    intros _ _. eapply keeps_bind; [apply keeps_Problem_save|].
    intros _ _. eapply keeps_bind; [apply keeps_get_state|].
    intros st' _. apply keeps_ret. exact Logic.I.
Qed.

Lemma keeps_solve body : keeps I (λ _, True) (solve W body).
Proof.
  unfold solve. apply (keeps_bind _ (λ _, True)).
  - unfold checkQueryLimit.
    eapply keeps_bind; [apply keeps_get_state|]. intros st _.
    destruct (canMakeQuery (now W) (req_user st)) as [admitted user].
    eapply keeps_bind.
    { apply keeps_modify. unchanged. }
    intros _ _. destruct admitted; apply keeps_ret; exact Logic.I.
  - intros [r|] _; [apply keeps_ret; exact Logic.I|apply keeps_post_problem].
Qed.

End Primary.

(** The secondary provider answers only when it is asked for by
    name. *)
Lemma generateSolution_claude p st create response parsed :
  anthropic W = Some create →
  create p = inr response →
  parseResponse (text response) = Returns parsed →
  ∃ r,
    generateSolution W p (Some (js "claude-3")) st
    = (Returns r, observed [AnthropicRequest p] 0 st)
    ∧ ai_aiModel r = js "claude-3".
Proof.
  intros Hclient Hcreate Hparse. unfold generateSolution. cbv zeta.
  change (bool_decide (default (js "gpt-4") (Some (js "claude-3"))
                       = js "claude-3")) with true.
  cbn [orb]. eexists. split.
  - erewrite try_catch_returns; [reflexivity|].
    erewrite bind_returns; cycle 1.
    { unfold generateSolutionClaude. rewrite Hclient.
      erewrite try_catch_returns; [reflexivity|].
      erewrite bind_returns by apply log_run. rewrite Hcreate. reflexivity. }
    cbn [pr_answer]. rewrite Hparse.
    erewrite bind_returns by reflexivity. reflexivity.
  - reflexivity.
Qed.

(** C10. The route calls [generateSolution] without a model, so the
    dispatch takes the branch of the primary provider: a call that
    returns has made exactly one request, to the primary provider, and
    reports the model 'gpt-4'.  Consequently, after any run of the route
    (gate and handler) on a store, whatever the outcome, every stored
    solution is one that was stored before or has [aiModel] 'gpt-4', and
    the trace holds no request to the secondary provider. *)
Theorem default_dispatch body db_problems db_solutions db_users user :
  let st := initial_state db_problems db_solutions db_users user in
  let st' := snd (solve W body st) in
  (∀ sid doc,
     Model.db_solutions st' !! sid = Some doc →
     db_solutions !! sid = Some doc ∨ aiModel doc = js "gpt-4")
  ∧ Forall (λ e, is_anthropic e = false) (trace st')
  ∧ (∀ p s r s',
       generateSolution W p None s = (Returns r, s') →
       ai_aiModel r = js "gpt-4"
       ∧ trace s' = trace s ++ [OpenAIRequest p]).
Proof.
  intros st st'.
  assert (Hinit : primary_only db_solutions st).
  { split; [auto|split; [|constructor]].
    intros sid doc. cbn. rewrite lookup_empty. discriminate. }
  destruct (keeps_solve db_solutions body st Hinit) as [(H1 & H2 & H3) _].
  split; [exact H1|split; [exact H3|]].
  intros p s r s' Hrun.
  destruct (openai_create W p) as [message|response] eqn:E.
  - rewrite (generateSolution_fails _ _ _ E) in Hrun. discriminate.
  - destruct (parseResponse_scan (content response))
      as (blocks & lines & _ & _ & Hparsed).
    rewrite (generateSolution_ok _ _ _ _ E (Hparsed _ (Nat.lt_succ_diag_r _)))
      in Hrun.
    injection Hrun as <- <-. split; reflexivity.
Qed.

End Coordinator.

(** ** Examples *)

Lemma quota_admission_witness :
  ∃ u',
    run [IncrementQueryCount (λ _, Returns tt);
         IncrementQueryCount (λ _, Returns tt);
         IncrementQueryCount (λ _, Returns tt);
         CanMakeQuery january; CanMakeQuery february] limited_user
    = ([false; true], u')
    ∧ monthlyQueries (apiUsage u') = 0%Z.
Proof.
  apply (proj1 (proj2 (proj2 (proj2 (quota_admission january limited_user))))).
  - reflexivity.
  - simpl. lia.
  - split; reflexivity.
  - intros [H _]. discriminate H.
Defined.

Lemma poll_ceiling_witness :
  ∃ last,
    executeCode busy_world (js "print(1)") (js "Python") None empty_store
    = (Returns (formatResult last),
       observed ([ExecuteCode (js "print(1)") (js "Python");
                  SubmissionPost
                    (submission busy_world (js "print(1)") (js "Python") None);
                  SubmissionGet (js "token")] ++ rounds 10 (js "token"))
         11 empty_store)
    ∧ judge0_get busy_world (10 + gets empty_store) (js "token") = inr last
    ∧ status_id last = 2%Z
    ∧ status (formatResult last) = js "Processing"
    ∧ length (filter is_get (rounds 10 (js "token"))) = 10.
Proof.
  apply (poll_ceiling busy_world).
  - reflexivity.
  - vm_compute. reflexivity.
  - reflexivity.
  - intros n. exists processing. split; reflexivity.
Defined.

(** C1, evaluated. [validateCode] rejects the text [os.system('rm -rf /')]
    and the empty text; [executeCode] never calls it: with a key
    configured and the language "python", any code, these two included,
    is posted to the sandbox as it is. *)
Theorem skipped_validation :
  validateCode (Some dangerous_code) (Some (js "python"))
  = Throws (js "Code contains potentially dangerous operations")
  ∧ validateCode (Some []) (Some (js "python"))
    = Throws (js "Code cannot be empty")
  ∧ ∀ W code input st,
      truthy (RAPIDAPI_KEY W) = true →
      toLowerCase W (js "python") = js "python" →
      ∃ later,
        trace (snd (executeCode W code (js "python") input st))
        = trace st ++ ExecuteCode code (js "python")
            :: SubmissionPost
                 {| source_code := code; language_id := OwnId 71;
                    stdin := default [] input; cpu_time_limit := 2;
                    memory_limit := 128000 |}
            :: later.
Proof.
  split; [vm_compute; reflexivity|split; [vm_compute; reflexivity|]].
  intros W code input st Hkey Hlower.
  destruct (executeCode_submits W code (js "python") input st Hkey)
    as (later & Hlater).
  - rewrite Hlower. vm_compute. reflexivity.
  - exists later. rewrite Hlater. unfold submission. rewrite Hlower.
    reflexivity.
Qed.

Lemma skipped_validation_witness :
  ∃ later,
    trace (snd (executeCode busy_world dangerous_code (js "python") None
                  empty_store))
    = ExecuteCode dangerous_code (js "python")
        :: SubmissionPost
             {| source_code := dangerous_code; language_id := OwnId 71;
                stdin := []; cpu_time_limit := 2; memory_limit := 128000 |}
        :: later.
Proof.
  apply (proj2 (proj2 skipped_validation) busy_world dangerous_code None
           empty_store); reflexivity.
Defined.

Lemma generation_failure_witness :
  ∃ st' doc,
    post_problem failing_ai_world python_body empty_store
    = (Returns (GenerationFailed (js "AI service error: timeout") (Some doc)),
       st')
    ∧ p_status doc = failed
    ∧ db_problems st' = {[fresh_problem empty_store := doc]}
    ∧ db_solutions st' = ∅
    ∧ req_user st' = limited_user.
Proof.
  destruct (generation_failure failing_ai_world python_body empty_store
              (js "timeout"))
    as (st' & Hrun & Hdb & Hst & Hsol & _ & Huser & _).
  - repeat split.
  - intros n. reflexivity.
  - reflexivity.
  - eexists st', _. split; [exact Hrun|]. split; [exact Hst|].
    split; [exact Hdb|]. split; [exact Hsol|exact Huser].
Defined.

Lemma execution_degradation_witness :
  ∃ st' problem solution,
    post_problem no_key_world python_body empty_store
    = (Returns (Created (Some (problem, Some solution))), st')
    ∧ p_status problem = solved
    ∧ executionResult solution
      = Some (executionFailed (js "Judge0 API key not configured")).
Proof.
  destruct (execution_degradation no_key_world python_body empty_store
              python_response python_sections
              (js "Judge0 API key not configured"))
    as (st' & Hrun & _ & Hst & _ & _ & Hres & _).
  - repeat split.
  - intros n. reflexivity.
  - reflexivity.
  - vm_compute. reflexivity.
  - reflexivity.
  - reflexivity.
  - intros st1 _. reflexivity.
  - eexists st', _, _. split; [exact Hrun|]. split; [exact Hst|exact Hres].
Defined.

(** Checking a bounded range of positions by evaluation. *)
Lemma checked_below (P : nat → bool) n :
  forallb P (seq 0 n) = true → ∀ i, i < n → P i = true.
Proof.
  intros H i Hi. rewrite forallb_forall in H. apply H, in_seq. lia.
Qed.

Lemma no_fence_no_block s n :
  forallb (λ i, negb (startsWith fence (drop i s))) (seq 0 n) = true →
  ∀ i, i < n → ¬ opens_block (drop i s).
Proof.
  intros H i Hi Hopen. apply opens_block_fence in Hopen.
  pose proof (checked_below _ _ H i Hi) as Hneg. cbv beta in Hneg.
  rewrite Hopen in Hneg. discriminate.
Qed.

Lemma no_LF_no_block s :
  forallb notLF s = true → ∀ i, ¬ opens_block (drop i s).
Proof.
  intros H i (tag & content & rest & _ & E).
  rewrite <- (take_drop i s), forallb_app in H.
  apply andb_true_iff in H as [_ H]. rewrite E in H.
  rewrite !forallb_app in H. cbn [forallb] in H.
  rewrite !andb_true_iff in H. destruct H as (_ & _ & H & _).
  discriminate H.
Qed.



Lemma explanation_extraction_witness :
  ∃ sections,
    parseResponse python_answer = Returns sections
    ∧ explanation sections = trim prose.
Proof.
  destruct (explanation_extraction python_answer)
    as (sections & Hrun & Hfence & _).
  exists sections. split; [exact Hrun|]. apply Hfence.
  - split.
    + eexists. reflexivity.
    + intros i Hi.
      apply (checked_below
               (λ i, negb (startsWith fence (drop i python_answer)))
               (length prose)) in Hi;
        [|vm_compute; reflexivity].
      apply negb_true_iff in Hi. exact Hi.
  - discriminate.
Defined.

(** C8 as stated fails: a text whose only fence is never closed has no
    fenced block, yet its explanation is the text before the marker and
    not its first three lines. *)
Lemma explanation_counterexample :
  fenced_blocks unclosed_fence []
  ∧ ∃ sections,
      parseResponse unclosed_fence = Returns sections
      ∧ explanation sections = js "abc"
      ∧ trim (first_lines 3 unclosed_fence) = js "abc ``` def"
      ∧ explanation sections ≠ trim (first_lines 3 unclosed_fence).
Proof.
  split.
  - constructor. intros i _. apply no_LF_no_block. reflexivity.
  - eexists. split; [vm_compute; reflexivity|].
    split; [reflexivity|]. split; [reflexivity|]. discriminate.
Qed.


(** Two fences the pattern passes over: between two blocks tagged
    [c++] it pairs the closing marker of the first with the opening
    marker of the second, and the snippet is the prose between them; a
    block whose lines end with a carriage return is not seen. *)
Example code_block_passed_over :
  (∃ sections,
     parseResponse cpp_twice = Returns sections
     ∧ code sections
       = {| language := js "text"; snippet := js "Faster:";
            optimizedVersion := [] |})
  ∧ ∃ sections,
      parseResponse crlf_answer = Returns sections
      ∧ code sections
        = {| language := []; snippet := []; optimizedVersion := [] |}.
Proof. split; eexists; (split; [vm_compute; reflexivity|reflexivity]). Qed.

(** The other case: for a text that opens with its code block the
    condition [firstCodeIndex > 0] is false, and the explanation is the
    first three lines, fence and code included, where the text before the
    fence is empty. *)
Lemma explanation_fence_first :
  fenced_blocks fence_first [(js "js", js "x" ++ [LF])]
  ∧ ∃ sections,
      parseResponse fence_first = Returns sections
      ∧ snippet (code sections) = js "x"
      ∧ explanation sections = fence_first.
Proof.
  split.
  - change fence_first
      with ([] ++ fence ++ js "js" ++ LF :: (js "x" ++ [LF]) ++ fence ++ []).
    constructor.
    + intros i Hi. cbn in Hi. lia.
    + reflexivity.
    + intros i Hi.
      apply (checked_below
               (λ i, negb (startsWith fence
                             (drop i ((js "x" ++ [LF]) ++ fence ++ []))))
               (length (js "x" ++ [LF])))
        in Hi; [|vm_compute; reflexivity].
      apply negb_true_iff in Hi. exact Hi.
    + constructor. intros i Hi. apply no_fence_no_block with (n := 1);
        [vm_compute; reflexivity|cbn in Hi; lia].
  - eexists. split; [vm_compute; reflexivity|].
    split; reflexivity.
Qed.

Lemma default_dispatch_witness :
  ∃ r s',
    generateSolution busy_world (input_of python_body) None empty_store
    = (Returns r, s')
    ∧ ai_aiModel r = js "gpt-4"
    ∧ trace s' = [OpenAIRequest (input_of python_body)].
Proof.
  eexists _, _. split.
  - apply (generateSolution_ok busy_world (input_of python_body) empty_store
             python_response python_sections); [reflexivity|].
    vm_compute. reflexivity.
  - apply (proj2 (proj2 (default_dispatch busy_world python_body ∅ ∅ ∅
                           limited_user)) (input_of python_body) empty_store).
    apply (generateSolution_ok busy_world (input_of python_body) empty_store
             python_response python_sections); [reflexivity|].
    vm_compute. reflexivity.
Defined.

(** The end-to-end run of the specification: one fenced python block,
    three numbered lines, a sandbox that accepts after two busy
    answers. *)
Example end_to_end :
  summary (solve accepting_world python_body empty_store)
  = Some (solved, js "python", [1; 2; 3]%Z, Some (js "Accepted"), 1%Z, 3).
Proof. vm_compute. reflexivity. Qed.

(** The white space of a numbered line gives back its last unit when the
    line ends there. *)
Example step_backtracks :
  (λ m, (index m, group m 1, group m 2))
    <$> fst (exec stepRegex (js "ab 12.  ") 0)
  = Some (3, Some (js "12"), Some (js " ")).
Proof. vm_compute. reflexivity. Qed.

(** A fence is looked for at every position. *)
Example four_backticks :
  (λ m, (index m, group m 1, group m 2))
    <$> fst (exec codeBlockRegex (js "````" ++ LF :: js "x````") 0)
  = Some (1, None, Some (js "x")).
Proof. vm_compute. reflexivity. Qed.

Example renumbered :
  (λ s, (stepNumber <$> steps s, description <$> steps s))
    <$> match parseResponse (js "7. first" ++ LF :: js "3) no" ++ LF
                             :: js "12.  second ") with
        | Returns s => Some s
        | _ => None
        end
  = Some ([1; 2]%Z, [js "first"; js "second"]).
Proof. vm_compute. reflexivity. Qed.

(** The language guard of [executeCode] looks a name up in an object
    literal, so an inherited member passes for a language. *)
Example inherited_language :
  not_languageId (languageIds_get (js "constructor")) = false
  ∧ not_languageId (languageIds_get (js "cobol")) = true
  ∧ languageIds_get (js "python") = OwnId 71.
Proof. vm_compute. auto. Qed.
(** * Further properties *)

(** ** Trimming *)

Section Text.

Lemma trimStart_blank s : trimStart s = [] ↔ blank s.
Proof.
  unfold blank. induction s as [|c s IH]; cbn; [tauto|].
  destruct (isWhiteSpace c); cbn; [exact IH|]. split; discriminate.
Qed.

Lemma trimStart_head s : no_space_first (trimStart s).
Proof.
  induction s as [|x s IH]; cbn [trimStart]; [exact I|].
  destruct (isWhiteSpace x) eqn:E; [exact IH|exact E].
Qed.

Lemma trimStart_suffix s : ∃ a, s = a ++ trimStart s ∧ blank a.
Proof.
  induction s as [|x s IH]; cbn [trimStart]; [exists []; split; [reflexivity|reflexivity]|].
  destruct IH as (a & IH & Ha).
  destruct (isWhiteSpace x) eqn:E.
  - exists (x :: a). cbn [app]. split; [congruence|].
    unfold blank. cbn [forallb]. rewrite E. exact Ha.
  - exists []. split; reflexivity.
Qed.

Lemma blank_rev s : blank (rev s) ↔ blank s.
Proof.
  unfold blank. rewrite !forallb_forall.
  split; intros H x Hx; apply H; [apply in_rev in Hx|apply in_rev]; exact Hx.
Qed.

Lemma trim_infix s : ∃ a b, s = a ++ trim s ++ b ∧ blank a ∧ blank b.
Proof.
  unfold trim, trimEnd.
  destruct (trimStart_suffix s) as (a & Ha & Hba).
  destruct (trimStart_suffix (rev (trimStart s))) as (b & Hb & Hbb).
  exists a, (rev b). split; [|split; [exact Hba|apply blank_rev, Hbb]].
  rewrite <- rev_app_distr, <- Hb, rev_involutive. exact Ha.
Qed.

Lemma trim_trimmed s : trimmed (trim s).
Proof.
  unfold trimmed, trim, trimEnd. rewrite rev_involutive.
  split; [|apply trimStart_head].
  pose proof (trimStart_head s) as Hhead.
  destruct (trimStart s) as [|c t]; [exact I|]. cbn [no_space_first] in Hhead.
  destruct (trimStart_suffix (rev (c :: t))) as (a & Ha & _).
  assert (Hx : trimStart (rev (c :: t)) = []
               ∨ ∃ u y, trimStart (rev (c :: t)) = u ++ [y])
    by (destruct (trimStart (rev (c :: t))) using rev_ind; eauto).
  destruct Hx as [E|(u & y & E)].
  - apply (proj1 (trimStart_blank _)) in E. apply (proj1 (blank_rev _)) in E.
    unfold blank in E. cbn [forallb] in E.
    rewrite Hhead in E. discriminate.
  - rewrite E in *. cbn [rev] in Ha. rewrite app_assoc in Ha.
    apply app_inj_tail in Ha as [_ <-].
    rewrite rev_app_distr. exact Hhead.
Qed.

Lemma trim_blank s : length (trim s) = 0 ↔ blank s.
Proof.
  unfold trim, trimEnd. rewrite length_rev. split.
  - intros H. apply nil_length_inv in H.
    apply (proj1 (trimStart_blank _)) in H. apply (proj1 (blank_rev _)) in H.
    pose proof (trimStart_head s) as Hhead.
    destruct (trimStart s) as [|c t] eqn:E; [apply trimStart_blank, E|].
    cbn [no_space_first] in Hhead. unfold blank in H. cbn [forallb] in H.
    rewrite Hhead in H. discriminate.
  - intros H. apply trimStart_blank in H. rewrite H. reflexivity.
Qed.

End Text.

(** ** Execution client: every sandbox *)

Section Polling.
Variable W : World.

Lemma poll_loop_settles token : ∀ k fuel result attempts st,
  (0 ≤ attempts)%Z → (attempts + Z.of_nat k ≤ maxAttempts)%Z → k < fuel →
  match k with
  | O => (2 < status_id result)%Z ∨ attempts = maxAttempts
  | S k' =>
      (status_id result ≤ 2)%Z
      ∧ busy_before W token (gets st) k'
      ∧ ∃ data, judge0_get W (k' + gets st) token = inr data
                ∧ ((2 < status_id data)%Z ∨ (attempts + Z.of_nat k = maxAttempts)%Z)
  end →
  ∃ last,
    poll_loop W fuel token result attempts st
    = (Returns last, observed (rounds k token) k st)
    ∧ match k with
      | O => last = result
      | S k' => judge0_get W (k' + gets st) token = inr last
      end.
Proof.
  induction k as [|k IH]; intros fuel result attempts st H0 Hatt Hfuel H.
  - destruct fuel as [|fuel]; [lia|]. simpl.
    exists result. split; [|reflexivity].
    replace ((status_id result <=? 2)%Z && (attempts <? maxAttempts)%Z) with false.
    + unfold ret. rewrite observed_nil. reflexivity.
    + symmetry. apply andb_false_iff. destruct H as [H| ->].
      * left. apply Z.leb_gt. lia.
      * right. apply Z.ltb_irrefl.
  - destruct fuel as [|fuel]; [lia|]. simpl.
    destruct H as (Hres & Hbusy & last & Hlast & Hend).
    replace (status_id result <=? 2)%Z with true
      by (symmetry; apply Z.leb_le; lia).
    replace (attempts <? maxAttempts)%Z with true
      by (symmetry; apply Z.ltb_lt; lia).
    simpl.
    erewrite bind_returns by (unfold delay; apply log_run).
    set (st1 := observed [Delay 1000] 0 st).
    destruct k as [|k'].
    + erewrite bind_returns
        by (apply getSubmissionResult_ok; simpl; exact Hlast).
      destruct (IH fuel last (attempts + 1)%Z
                  (observed [SubmissionGet token] 1 st1))
        as (last' & Hrun & ->); [lia|lia|lia| |].
      { destruct Hend as [H|H]; [left; exact H|right; lia]. }
      exists last. rewrite Hrun. unfold st1. rewrite !observed_observed. simpl.
      split; [reflexivity|exact Hlast].
    + destruct (Hbusy 0) as (d & Hd & Hds); [lia|].
      erewrite bind_returns
        by (apply getSubmissionResult_ok; simpl; exact Hd).
      destruct (IH fuel d (attempts + 1)%Z
                  (observed [SubmissionGet token] 1 st1))
        as (last' & Hrun & Hl'); [lia|lia|lia| |].
      { split; [exact Hds|]. split.
        - intros i Hi. destruct (Hbusy (S i)) as (d' & Hd' & Hds'); [lia|].
          exists d'. split; [|exact Hds']. simpl. rewrite <- Hd'. f_equal. lia.
        - exists last. split.
          + simpl. rewrite <- Hlast. f_equal. lia.
          + destruct Hend as [H|H]; [left; exact H|right; lia]. }
      exists last'. rewrite Hrun. unfold st1. rewrite !observed_observed. simpl.
      split; [f_equal; f_equal; lia|].
      simpl in Hl'. rewrite <- Hl'. f_equal. lia.
Qed.


Lemma poll_loop_fails token : ∀ k fuel result attempts st message,
  (0 ≤ attempts)%Z → (attempts + Z.of_nat (S k) ≤ maxAttempts)%Z → S k < fuel →
  (status_id result ≤ 2)%Z →
  busy_before W token (gets st) k →
  judge0_get W (k + gets st) token = inl message →
  poll_loop W fuel token result attempts st
  = (Throws (js "Failed to get submission result: " ++ message),
     observed (rounds (S k) token) (S k) st).
Proof.
  induction k as [|k IH]; intros fuel result attempts st message H0 Hatt Hfuel
    Hres Hbusy Hfail.
  - destruct fuel as [|fuel]; [lia|]. simpl.
    replace (status_id result <=? 2)%Z with true
      by (symmetry; apply Z.leb_le; lia).
    replace (attempts <? maxAttempts)%Z with true
      by (symmetry; apply Z.ltb_lt; lia).
    simpl.
    erewrite bind_returns by (unfold delay; apply log_run).
    erewrite bind_throws
      by (apply getSubmissionResult_fails; simpl; exact Hfail).
    rewrite !observed_observed. reflexivity.
  - destruct fuel as [|fuel]; [lia|]. simpl.
    replace (status_id result <=? 2)%Z with true
      by (symmetry; apply Z.leb_le; lia).
    replace (attempts <? maxAttempts)%Z with true
      by (symmetry; apply Z.ltb_lt; lia).
    simpl.
    erewrite bind_returns by (unfold delay; apply log_run).
    destruct (Hbusy 0) as (d & Hd & Hds); [lia|].
    erewrite bind_returns
      by (apply getSubmissionResult_ok; simpl; exact Hd).
    rewrite (IH fuel d (attempts + 1)%Z _ message
               ltac:(lia) ltac:(lia) ltac:(lia) Hds).
    + rewrite !observed_observed. simpl. do 3 f_equal. lia.
    + intros i Hi. destruct (Hbusy (S i)) as (d' & Hd' & Hds'); [lia|].
      exists d'. split; [|exact Hds']. simpl. rewrite <- Hd'. f_equal. lia.
    + simpl. rewrite <- Hfail. f_equal. lia.
Qed.

(** Whatever the sandbox answers, the loop ends within the rounds the
    ceiling leaves. *)
Lemma poll_loop_ends token : ∀ n fuel result attempts st,
  (attempts = maxAttempts - Z.of_nat n)%Z → n < fuel →
  ∃ r k,
    poll_loop W fuel token result attempts st
    = (r, observed (rounds k token) k st)
    ∧ k ≤ n ∧ r ≠ OutOfFuel.
Proof.
  induction n as [|n IH]; intros fuel result attempts st Hatt Hfuel.
  - destruct fuel as [|fuel]; [lia|]. simpl.
    replace (attempts <? maxAttempts)%Z with false
      by (symmetry; apply Z.ltb_ge; lia).
    rewrite andb_false_r. exists (Returns result), 0.
    unfold ret. rewrite observed_nil. split; [reflexivity|]. split; [lia|discriminate].
  - destruct fuel as [|fuel]; [lia|]. simpl.
    destruct ((status_id result <=? 2)%Z && (attempts <? maxAttempts)%Z).
    + erewrite bind_returns by (unfold delay; apply log_run).
      destruct (judge0_get W (gets st) token) as [message|data] eqn:E.
      * erewrite bind_throws by (apply getSubmissionResult_fails; simpl; exact E).
        eexists _, 1. rewrite !observed_observed.
        split; [reflexivity|]. split; [lia|discriminate].
      * erewrite bind_returns by (apply getSubmissionResult_ok; simpl; exact E).
        destruct (IH fuel data (attempts + 1)%Z
                    (observed [SubmissionGet token] 1
                       (observed [Delay 1000] 0 st)))
          as (r & k & Hrun & Hk & Hr); [lia|lia|].
        exists r, (S k). rewrite Hrun, !observed_observed. simpl.
        split; [do 2 f_equal; lia|]. split; [lia|exact Hr].
    + exists (Returns result), 0. unfold ret. rewrite observed_nil.
      split; [reflexivity|]. split; [lia|discriminate].
Qed.

Lemma executeCode_guarded code language input st :
  truthy (RAPIDAPI_KEY W) = true →
  not_languageId (languageIds_get (toLowerCase W language)) = false →
  executeCode W code language input st
  = try_catch
      (token ← match judge0_post W (submission W code language input) with
               | inl message => throw message
               | inr token => ret token
               end;
       result ← getSubmissionResult W token;
       result ← poll_loop W (S (Z.to_nat maxAttempts)) token result 0%Z;
       ret (formatResult result))
      (λ error, throw (js "Code execution failed: " ++ error))
      (observed [ExecuteCode code language;
                 SubmissionPost (submission W code language input)] 0 st).
Proof.
  intros Hkey Hlang. unfold executeCode.
  unfold mbind at 1. unfold M_bind, bind.
  rewrite (log_run (ExecuteCode code language) st).
  rewrite Hkey. change (negb true) with false. cbv beta iota zeta. rewrite Hlang.
  fold (submission W code language input).
  unfold try_catch.
  erewrite (bind_returns (log (SubmissionPost _))) by apply log_run.
  rewrite observed_observed. reflexivity.
Qed.

Lemma executeCode_no_key code language input st :
  truthy (RAPIDAPI_KEY W) = false →
  executeCode W code language input st
  = (Throws (js "Judge0 API key not configured"),
     observed [ExecuteCode code language] 0 st).
Proof.
  intros Hkey. unfold executeCode.
  unfold mbind at 1. unfold M_bind, bind.
  rewrite (log_run (ExecuteCode code language) st).
  rewrite Hkey. reflexivity.
Qed.

Lemma executeCode_unsupported code language input st :
  truthy (RAPIDAPI_KEY W) = true →
  not_languageId (languageIds_get (toLowerCase W language)) = true →
  executeCode W code language input st
  = (Throws (js "Code execution failed: Language '" ++ language
             ++ js "' not supported for execution"),
     observed [ExecuteCode code language] 0 st).
Proof.
  intros Hkey Hlang. unfold executeCode.
  unfold mbind at 1. unfold M_bind, bind.
  rewrite (log_run (ExecuteCode code language) st).
  rewrite Hkey. change (negb true) with false. cbv beta iota zeta. rewrite Hlang.
  reflexivity.
Qed.

Lemma executeCode_submission_fails code language input st message :
  truthy (RAPIDAPI_KEY W) = true →
  not_languageId (languageIds_get (toLowerCase W language)) = false →
  judge0_post W (submission W code language input) = inl message →
  executeCode W code language input st
  = (Throws (js "Code execution failed: " ++ message),
     observed [ExecuteCode code language;
               SubmissionPost (submission W code language input)] 0 st).
Proof.
  intros Hkey Hlang Hpost. rewrite executeCode_guarded by assumption.
  rewrite Hpost. reflexivity.
Qed.

(** X3. A call that gets past the two guards and a token, and whose
    first [k] result requests (at most 10) are answered busy and the next
    one with a status above 2, returns that answer formatted, after the
    first request and exactly [k] rounds of waiting and asking: the loop
    stops at the first answer that is not busy. *)
Theorem executeCode_first_settled code language input token k data st :
  truthy (RAPIDAPI_KEY W) = true →
  not_languageId (languageIds_get (toLowerCase W language)) = false →
  judge0_post W (submission W code language input) = inr token →
  k ≤ 10 →
  busy_before W token (gets st) k →
  judge0_get W (k + gets st) token = inr data →
  (2 < status_id data)%Z →
  executeCode W code language input st
  = (Returns (formatResult data),
     observed (call_events W code language input token k) (S k) st).
Proof.
  intros Hkey Hlang Hpost Hk Hbusy Hdata Hsettled.
  rewrite executeCode_guarded by assumption. rewrite Hpost.
  set (st1 := observed _ 0 st).
  destruct k as [|k].
  - erewrite try_catch_returns; [reflexivity|].
    erewrite bind_returns by reflexivity.
    erewrite bind_returns by (apply getSubmissionResult_ok; exact Hdata).
    destruct (poll_loop_settles token 0 (S (Z.to_nat maxAttempts)) data 0%Z
                (observed [SubmissionGet token] 1 st1))
      as (last & Hrun & ->); [lia|unfold maxAttempts; lia|lia|left; exact Hsettled|].
    erewrite bind_returns by exact Hrun.
    unfold ret, st1. rewrite !observed_observed. reflexivity.
  - destruct (Hbusy 0) as (d & Hd & Hds); [lia|].
    erewrite try_catch_returns; [reflexivity|].
    erewrite bind_returns by reflexivity.
    erewrite bind_returns by (apply getSubmissionResult_ok; exact Hd).
    destruct (poll_loop_settles token (S k) (S (Z.to_nat maxAttempts)) d 0%Z
                (observed [SubmissionGet token] 1 st1))
      as (last & Hrun & Hlast); [lia|unfold maxAttempts; lia|unfold maxAttempts; lia| |].
    { split; [exact Hds|]. split.
      - intros i Hi. destruct (Hbusy (S i)) as (d' & Hd' & Hds'); [lia|].
        exists d'. split; [|exact Hds']. simpl. rewrite <- Hd'. f_equal. lia.
      - exists data. split; [|left; exact Hsettled].
        simpl. rewrite <- Hdata. f_equal. lia. }
    erewrite bind_returns by exact Hrun.
    assert (last = data) as ->.
    { simpl in Hlast. replace (k + S (gets st)) with (S k + gets st) in Hlast by lia.
      congruence. }
    unfold ret, st1. rewrite !observed_observed.
    replace (S k + 1 + 0) with (S (S k)) by lia. reflexivity.
Qed.

(** X4. When the result request that follows [k] busy answers (at most
    10) fails with [message], the call throws "Code execution failed:
    Failed to get submission result: " followed by [message], wrapped
    twice, and no further request is made. *)
Theorem executeCode_request_fails code language input token k message st :
  truthy (RAPIDAPI_KEY W) = true →
  not_languageId (languageIds_get (toLowerCase W language)) = false →
  judge0_post W (submission W code language input) = inr token →
  k ≤ 10 →
  busy_before W token (gets st) k →
  judge0_get W (k + gets st) token = inl message →
  executeCode W code language input st
  = (Throws (js "Code execution failed: Failed to get submission result: "
             ++ message),
     observed (call_events W code language input token k) (S k) st).
Proof.
  intros Hkey Hlang Hpost Hk Hbusy Hfail.
  rewrite executeCode_guarded by assumption. rewrite Hpost.
  set (st1 := observed _ 0 st).
  destruct k as [|k].
  - erewrite try_catch_throws.
    2:{ erewrite bind_returns by reflexivity.
        erewrite bind_throws by (apply getSubmissionResult_fails; exact Hfail).
        reflexivity. }
    unfold throw, st1. rewrite !observed_observed. reflexivity.
  - destruct (Hbusy 0) as (d & Hd & Hds); [lia|].
    erewrite try_catch_throws.
    2:{ erewrite bind_returns by reflexivity.
        erewrite bind_returns by (apply getSubmissionResult_ok; exact Hd).
        erewrite bind_throws.
        2:{ apply (poll_loop_fails token k (S (Z.to_nat maxAttempts)) d 0%Z _ message
                     ltac:(lia) ltac:(unfold maxAttempts; lia)
                     ltac:(unfold maxAttempts; lia) Hds).
            - intros i Hi. destruct (Hbusy (S i)) as (d' & Hd' & Hds'); [lia|].
              exists d'. split; [|exact Hds']. simpl. rewrite <- Hd'. f_equal. lia.
            - simpl. rewrite <- Hfail. f_equal. lia. }
        reflexivity. }
    unfold throw, st1. rewrite !observed_observed.
    replace (S k + 1 + 0) with (S (S k)) by lia. reflexivity.
Qed.

(** Whatever the sandbox does, a call ends, and its events are the call
    alone, the call and a submission, or those, a result request and at
    most 10 rounds. *)
Lemma executeCode_shape code language input st :
  ∃ r es n,
    executeCode W code language input st = (r, observed es n st)
    ∧ r ≠ OutOfFuel
    ∧ (es = [ExecuteCode code language] ∧ n = 0
       ∨ es = [ExecuteCode code language;
               SubmissionPost (submission W code language input)] ∧ n = 0
       ∨ ∃ token k, k ≤ 10 ∧ n = S k
           ∧ es = call_events W code language input token k).
Proof.
  destruct (truthy (RAPIDAPI_KEY W)) eqn:Hkey.
  2:{ eexists _, _, _. rewrite executeCode_no_key by assumption.
      split; [reflexivity|]. split; [discriminate|]. left. auto. }
  destruct (not_languageId (languageIds_get (toLowerCase W language))) eqn:Hlang.
  { eexists _, _, _. rewrite executeCode_unsupported by assumption.
    split; [reflexivity|]. split; [discriminate|]. left. auto. }
  destruct (judge0_post W (submission W code language input))
    as [message|token] eqn:Hpost.
  { eexists _, _, _. rewrite (executeCode_submission_fails _ _ _ _ message) by assumption.
    split; [reflexivity|]. split; [discriminate|]. right. left. auto. }
  rewrite executeCode_guarded by assumption. rewrite Hpost.
  set (st1 := observed _ 0 st).
  destruct (judge0_get W (gets st) token) as [message|data] eqn:E.
  - eexists _, _, _. erewrite try_catch_throws.
    2:{ erewrite bind_returns by reflexivity.
        erewrite bind_throws by (apply getSubmissionResult_fails; exact E).
        reflexivity. }
    unfold throw, st1. rewrite !observed_observed.
    split; [reflexivity|]. split; [discriminate|]. right. right.
    exists token, 0. split; [lia|]. split; reflexivity.
  - destruct (poll_loop_ends token 10 (S (Z.to_nat maxAttempts)) data 0%Z
                (observed [SubmissionGet token] 1 st1))
      as (r & k & Hrun & Hk & Hr); [reflexivity|unfold maxAttempts; lia|].
    destruct r as [last|message|]; [| |congruence].
    + eexists _, _, _. erewrite try_catch_returns.
      2:{ erewrite bind_returns by reflexivity.
          erewrite bind_returns by (apply getSubmissionResult_ok; exact E).
          erewrite bind_returns by exact Hrun. reflexivity. }
      unfold st1. rewrite !observed_observed.
      split; [reflexivity|]. split; [discriminate|]. right. right.
      exists token, k. split; [lia|]. split; [lia|reflexivity].
    + eexists _, _, _. erewrite try_catch_throws.
      2:{ erewrite bind_returns by reflexivity.
          erewrite bind_returns by (apply getSubmissionResult_ok; exact E).
          erewrite bind_throws by exact Hrun. reflexivity. }
      unfold throw, st1. rewrite !observed_observed.
      split; [reflexivity|]. split; [discriminate|]. right. right.
      exists token, k. split; [lia|]. split; [lia|reflexivity].
Qed.


Ltac count_events :=
  repeat (first [rewrite filter_cons_True by exact Logic.I
                |rewrite filter_cons_False by (cbn; tauto)]);
  rewrite ?filter_nil; cbn [length].

Lemma rounds_counts token : ∀ k,
  length (filter is_get (rounds k token)) = k
  ∧ length (filter is_delay (rounds k token)) = k
  ∧ length (filter is_post (rounds k token)) = 0.
Proof.
  induction k as [|k (IH1 & IH2 & IH3)]; [repeat split|].
  cbn [rounds round app]. count_events. rewrite IH1, IH2, IH3. repeat split.
Qed.

(** X1. Every call of [executeCode] ends: it returns or throws, whatever
    the key, the language and the sandbox's answers are, and the loop
    never needs more rounds than it is given.  On the way it submits at
    most once, asks for the result at most 11 times, waits at most 10
    times, and asks for no result without a submission. *)
Theorem executeCode_ends code language input st :
  ∃ r es,
    executeCode W code language input st
    = (r, observed es (length (filter is_get es)) st)
    ∧ r ≠ OutOfFuel
    ∧ length (filter is_post es) ≤ 1
    ∧ length (filter is_get es) ≤ 11
    ∧ length (filter is_delay es) ≤ 10
    ∧ (length (filter is_post es) = 0 → length (filter is_get es) = 0).
Proof.
  destruct (executeCode_shape code language input st)
    as (r & es & n & Hrun & Hr & Hes).
  exists r, es.
  destruct Hes as [[-> ->]|[[-> ->]|(token & k & Hk & -> & ->)]].
  - count_events. split; [exact Hrun|]. split; [exact Hr|]. lia.
  - count_events. split; [exact Hrun|]. split; [exact Hr|]. lia.
  - destruct (rounds_counts token k) as (H1 & H2 & H3).
    unfold call_events. cbn [app]. count_events. rewrite H1, H2, H3.
    split; [exact Hrun|]. split; [exact Hr|]. lia.
Qed.

(** X2. [executeCode] submits to the sandbox exactly when a key is
    configured and the language passes the guard.  Without a key it
    throws "Judge0 API key not configured", as it is; with a key and a
    language the guard rejects it throws the message about the language
    behind "Code execution failed: "; in both cases nothing is sent. *)
Theorem executeCode_guards code language input st :
  ((∃ body later,
      trace (snd (executeCode W code language input st))
      = trace st ++ ExecuteCode code language :: SubmissionPost body :: later)
   ↔ truthy (RAPIDAPI_KEY W) = true
     ∧ not_languageId (languageIds_get (toLowerCase W language)) = false)
  ∧ (truthy (RAPIDAPI_KEY W) = false →
     executeCode W code language input st
     = (Throws (js "Judge0 API key not configured"),
        observed [ExecuteCode code language] 0 st))
  ∧ (truthy (RAPIDAPI_KEY W) = true →
     not_languageId (languageIds_get (toLowerCase W language)) = true →
     executeCode W code language input st
     = (Throws (js "Code execution failed: Language '" ++ language
                ++ js "' not supported for execution"),
        observed [ExecuteCode code language] 0 st)).
Proof.
  split; [|split; [apply executeCode_no_key|apply executeCode_unsupported]].
  split.
  - intros (body & later & Htrace).
    destruct (truthy (RAPIDAPI_KEY W)) eqn:Hkey.
    + destruct (not_languageId (languageIds_get (toLowerCase W language)))
        eqn:Hlang; [|auto].
      rewrite executeCode_unsupported in Htrace by assumption.
      cbn [snd trace observed] in Htrace. apply app_inv_head in Htrace.
      discriminate.
    + rewrite executeCode_no_key in Htrace by assumption.
      cbn [snd trace observed] in Htrace. apply app_inv_head in Htrace.
      discriminate.
  - intros [Hkey Hlang].
    destruct (executeCode_submits W code language input st Hkey Hlang)
      as (later & H).
    eauto.
Qed.

End Polling.

(** ** The matcher finds every word of the pattern *)

Section Completeness.

Lemma m_rep_complete p min greedy caps k s' : ∀ w n,
  forallb p w = true → min ≤ n + length w → accepts k s' →
  is_Some (m_rep p min greedy caps k (w ++ s') n).
Proof.
  induction w as [|c w IH]; intros n Hw Hmin Hk.
  - cbn [app]. assert (Hle : (min <=? n)%nat = true) by (apply Nat.leb_le; cbn in Hmin; lia).
    destruct s' as [|c s']; cbn [m_rep]; rewrite Hle.
    + destruct (Hk caps) as [r Hr]. rewrite Hr. destruct greedy; eauto.
    + destruct (Hk caps) as [r Hr]. rewrite Hr.
      destruct greedy; [|eauto].
      destruct (if p c then _ else _); eauto.
  - cbn in Hw. apply andb_true_iff in Hw as [Hc Hw].
    cbn [app m_rep]. rewrite Hc.
    destruct (IH (S n) Hw ltac:(cbn in Hmin; lia) Hk) as [r Hr]. rewrite Hr.
    destruct greedy; [eauto|].
    destruct (if (min <=? n)%nat then _ else _); eauto.
Qed.

Lemma complete_seq_of rs : Forall complete rs → complete_seq rs.
Proof.
  induction 1 as [|r rs Hr _ IH]; intros w s' k c c' Hw Hk caps.
  - destruct Hw as [-> _]. apply Hk.
  - destruct Hw as (w1 & w2 & c1 & -> & H1 & H2).
    cbn [m_seq]. rewrite <- app_assoc.
    eapply Hr; [exact H1|].
    intros caps'. eapply IH; eassumption.
Qed.

Lemma m_node_complete : ∀ r, complete r.
Proof.
  induction r as [p|p min greedy|i body IH|body IH] using node_nested_ind;
    intros w s' k c c' Hw Hk caps.
  - destruct Hw as (x & -> & Hx & _). cbn. rewrite Hx. apply Hk.
  - destruct Hw as (Hp & Hmin & _). cbn [m_node].
    apply m_rep_complete; [exact Hp|lia|exact Hk].
  - cbn in Hw. fold consumes_seq in Hw. destruct Hw as (c0 & Hw & _).
    change (is_Some (m_seq body (w ++ s') caps
              (λ s'' caps', k s'' (<[i := take (length (w ++ s') - length s'') (w ++ s')]> caps')))).
    eapply (complete_seq_of body IH); [exact Hw|].
    intros caps'. apply Hk.
  - cbn in Hw. fold consumes_seq in Hw.
    change (is_Some (match m_seq body (w ++ s') caps k with
                     | Some r => Some r
                     | None => k (w ++ s') caps
                     end)).
    destruct Hw as [Hw|[-> _]].
    + destruct (complete_seq_of body IH _ _ _ _ _ Hw Hk caps) as [r Hr].
      rewrite Hr. eauto.
    + destruct (m_seq body ([] ++ s') caps k); [eauto|apply Hk].
Qed.

Lemma m_seq_complete rs : complete_seq rs.
Proof. apply complete_seq_of, Forall_forall. intros r _. apply m_node_complete. Qed.

Lemma match_at_complete re w rest :
  in_language re w → is_Some (match_at re (w ++ rest)).
Proof.
  intros (c & c' & Hw). unfold match_at.
  eapply m_seq_complete; [exact Hw|]. intros caps. eauto.
Qed.



(** [test] answers whether some part of the text is a word of the
    pattern. *)
Lemma test_language re s :
  test re s = true ↔ contains (in_language re) s.
Proof.
  unfold test. split.
  - destruct (search re s 0) as [m|] eqn:E; [|discriminate]. intros _.
    destruct (search_found _ _ _ _ E) as (pre & rest & Hs & _ & Hm & _).
    destruct (match_at_sound _ _ _ _ Hm) as (w & Hw & Hc).
    apply app_inv_tail in Hw. subst w.
    exists pre, (matched m), rest. split; [exact Hs|]. eexists _, _. exact Hc.
  - intros (pre & w & post & -> & Hw).
    destruct (search re (pre ++ w ++ post) 0) as [m|] eqn:E; [reflexivity|].
    pose proof (search_none _ _ _ E (length pre)) as Hnone.
    rewrite drop_app_length in Hnone.
    destruct (match_at_complete re w post Hw) as [r Hr].
    rewrite Hnone in Hr; [discriminate|]. rewrite length_app. lia.
Qed.


End Completeness.

(** ** The validator *)

Section Validator.

Lemma dangerousPatterns_shapes :
  dangerousPatterns = (λ ps, ps ≫= nodes_of) <$> shapes.
Proof. reflexivity. Qed.

Lemma consumes_letters : ∀ (l : jsstring) rest w c c',
  consumes_seq ((chr_i <$> l) ++ rest) w c c'
  ↔ ∃ w1 w2, w = w1 ++ w2 ∧ same_letters w1 l ∧ consumes_seq rest w2 c c'.
Proof.
  unfold same_letters, ascii_lower.
  induction l as [|x l IH]; intros rest w c c'.
  - cbn [fmap list_fmap app]. split.
    + intros H. exists [], w. auto.
    + intros (w1 & w2 & -> & Hw1 & H). apply fmap_nil_inv in Hw1. subst w1. exact H.
  - rewrite fmap_cons. cbn [app consumes_seq]. split.
    + intros (w1 & w2 & c1 & -> & (y & -> & Hy & ->) & H).
      apply IH in H as (w3 & w4 & -> & Hw3 & H).
      exists (y :: w3), w4. split; [reflexivity|]. split; [|exact H].
      cbn. apply N.eqb_eq in Hy. rewrite Hy. f_equal. exact Hw3.
    + intros (w1 & w2 & -> & Hw1 & H).
      destruct w1 as [|y w1]; [discriminate|]. cbn in Hw1.
      injection Hw1 as Hy Hw1.
      exists [y], (w1 ++ w2), c. split; [reflexivity|]. split.
      * exists y. split; [reflexivity|]. split; [|reflexivity].
        apply N.eqb_eq. exact Hy.
      * apply IH. exists w1, w2. auto.
Qed.

Lemma consumes_piece p rest w c c' :
  consumes_seq (nodes_of p ++ rest) w c c'
  ↔ ∃ w1 w2, w = w1 ++ w2 ∧ piece_word p w1 ∧ consumes_seq rest w2 c c'.
Proof.
  destruct p as [s|min|].
  - apply consumes_letters.
  - cbn. split.
    + intros (w1 & w2 & c1 & -> & (Hw & Hmin & ->) & H). exists w1, w2. auto.
    + intros (w1 & w2 & -> & (Hw & Hmin) & H). exists w1, w2, c. auto.
  - cbn. split.
    + intros (w1 & w2 & c1 & -> & (q & -> & Hq & ->) & H).
      exists [q], w2. eauto 6.
    + intros (w1 & w2 & -> & (q & -> & Hq) & H). exists [q], w2, c. eauto 6.
Qed.

Lemma consumes_pieces : ∀ ps w c c',
  consumes_seq (ps ≫= nodes_of) w c c' ↔ c' = c ∧ pieces_word ps w.
Proof.
  induction ps as [|p ps IH]; intros w c c'.
  - cbn. tauto.
  - rewrite bind_cons, consumes_piece. cbn [pieces_word]. split.
    + intros (w1 & w2 & -> & Hp & H). apply IH in H as [-> H]. eauto 6.
    + intros (-> & w1 & w2 & -> & Hp & H). exists w1, w2.
      split; [reflexivity|]. split; [exact Hp|]. apply IH. auto.
Qed.

Lemma in_language_pieces ps w :
  in_language (ps ≫= nodes_of) w ↔ pieces_word ps w.
Proof.
  unfold in_language. split.
  - intros (c & c' & H). apply consumes_pieces in H. tauto.
  - intros H. exists ∅, ∅. apply consumes_pieces. auto.
Qed.

Lemma lower_ascii_fixed c x :
  in_range 65 90 x = false → lower_ascii x = x →
  lower_ascii c = x → in_range 97 122 x = false → c = x.
Proof.
  unfold lower_ascii, in_range. intros Hx _ Hc Hl.
  destruct ((65 <=? c)%N && (c <=? 90)%N) eqn:E; [|exact Hc].
  apply andb_true_iff in E as [E1 E2].
  apply N.leb_le in E1, E2. subst x.
  apply andb_false_iff in Hl as [Hl|Hl]; apply N.leb_gt in Hl; lia.
Qed.

Lemma same_letters_paren w : same_letters w (js "(") ↔ w = js "(".
Proof.
  unfold same_letters, ascii_lower. change (js "(") with [40%N].
  split; [|intros ->; reflexivity].
  intros H. destruct w as [|c [|? ?]]; try discriminate.
  injection H as H. change (lower_ascii 40) with 40%N in H.
  f_equal. apply lower_ascii_fixed; auto.
Qed.

Lemma same_letters_close w : same_letters w (js ")") ↔ w = js ")".
Proof.
  unfold same_letters, ascii_lower. change (js ")") with [41%N].
  split; [|intros ->; reflexivity].
  intros H. destruct w as [|c [|? ?]]; try discriminate.
  injection H as H. change (lower_ascii 41) with 41%N in H.
  f_equal. apply lower_ascii_fixed; auto.
Qed.

Lemma dangerous_word_shapes w :
  dangerous_word w ↔ ∃ ps, ps ∈ shapes ∧ pieces_word ps w.
Proof.
  split.
  - intros H. destruct H as [name ws Hname Hws|w Hw|w Hw|name ws os Hn Hws Hlen Hos
                            |name ws1 ws2 q1 module q2 ws3 Hn H1 H2 Hq1 Hm Hq2 H3].
    + assert (Hps : ∀ s, same_letters name (js s) →
                pieces_word [Letters s; Spaces 0; Letters "("] (name ++ ws ++ js "(")).
      { intros s Hs. cbn. exists name, (ws ++ js "("). split; [reflexivity|].
        split; [exact Hs|]. exists ws, (js "("). split; [reflexivity|].
        split; [split; [exact Hws|lia]|].
        exists (js "("), []. split; [reflexivity|]. split; reflexivity. }
      destruct Hname as [H|[H|[H|H]]]; eexists; (split; [|apply Hps, H]);
        unfold shapes; set_solver.
    + exists [Letters "os.system"]. split; [unfold shapes; set_solver|].
      cbn. exists w, []. rewrite app_nil_r. auto.
    + exists [Letters "subprocess."]. split; [unfold shapes; set_solver|].
      cbn. exists w, []. rewrite app_nil_r. auto.
    + exists [Letters "import"; Spaces 1; Letters "os"].
      split; [unfold shapes; set_solver|].
      cbn. exists name, (ws ++ os). split; [reflexivity|]. split; [exact Hn|].
      exists ws, os. split; [reflexivity|]. split; [auto|].
      exists os, []. rewrite app_nil_r. auto.
    + eexists. split; [apply (list_elem_of_lookup_2 shapes 7); reflexivity|].
      cbn. exists name, (ws1 ++ js "(" ++ ws2 ++ q1 :: module ++ q2 :: ws3 ++ js ")").
      split; [reflexivity|]. split; [exact Hn|].
      exists ws1, (js "(" ++ ws2 ++ q1 :: module ++ q2 :: ws3 ++ js ")").
      split; [reflexivity|]. split; [split; [exact H1|lia]|].
      exists (js "("), (ws2 ++ q1 :: module ++ q2 :: ws3 ++ js ")").
      split; [reflexivity|]. split; [reflexivity|].
      exists ws2, (q1 :: module ++ q2 :: ws3 ++ js ")").
      split; [reflexivity|]. split; [split; [exact H2|lia]|].
      exists [q1], (module ++ q2 :: ws3 ++ js ")").
      split; [reflexivity|]. split; [eauto|].
      exists module, (q2 :: ws3 ++ js ")").
      split; [reflexivity|]. split; [exact Hm|].
      exists [q2], (ws3 ++ js ")").
      split; [reflexivity|]. split; [eauto|].
      exists ws3, (js ")").
      split; [reflexivity|]. split; [split; [exact H3|lia]|].
      exists (js ")"), []. split; [reflexivity|]. split; reflexivity.
  - intros (ps & Hps & H). unfold shapes in Hps.
    assert (Hcall : ∀ s,
      (js s = js "exec" ∨ js s = js "eval" ∨ js s = js "system" ∨ js s = js "popen") →
      pieces_word [Letters s; Spaces 0; Letters "("] w → dangerous_word w).
    { intros s Hs (name & ? & -> & Hn & ws & ? & -> & [Hws _] & p & ? & -> & Hp & ->).
      apply (proj1 (same_letters_paren _)) in Hp. subst p. rewrite app_nil_r.
      apply dangerous_call; [|exact Hws].
      cbn [piece_word] in Hn.
      destruct Hs as [Hs|[Hs|[Hs|Hs]]]; rewrite Hs in Hn; auto. }
    repeat (apply elem_of_cons in Hps as [->|Hps]).
    + eapply Hcall; [|exact H]. auto.
    + eapply Hcall; [|exact H]. auto.
    + eapply Hcall; [|exact H]. auto.
    + eapply Hcall; [|exact H]. auto 6.
    + destruct H as (w1 & ? & -> & Hw & ->). rewrite app_nil_r.
      apply dangerous_os_system, Hw.
    + destruct H as (w1 & ? & -> & Hw & ->). rewrite app_nil_r.
      apply dangerous_subprocess, Hw.
    + destruct H as (name & ? & -> & Hn & ws & ? & -> & [Hws Hlen] & os & ? & -> & Hos & ->).
      rewrite app_nil_r. apply dangerous_import; assumption.
    + destruct H as (name & ? & -> & Hn & ws1 & ? & -> & [H1 _] & p & ? & -> & Hp
                     & ws2 & ? & -> & [H2 _] & ? & ? & -> & (q1 & -> & Hq1)
                     & module & ? & -> & Hm & ? & ? & -> & (q2 & -> & Hq2)
                     & ws3 & ? & -> & [H3 _] & p' & ? & -> & Hp' & ->).
      apply (proj1 (same_letters_paren _)) in Hp.
      apply (proj1 (same_letters_close _)) in Hp'. subst p p'.
      rewrite app_nil_r.
      apply (dangerous_require name ws1 ws2 q1 module q2 ws3); assumption.
    + apply elem_of_nil in Hps. destruct Hps.
Qed.

Lemma existsb_test_dangerous code :
  existsb (λ pattern, test pattern code) dangerousPatterns = true
  ↔ contains dangerous_word code.
Proof.
  rewrite existsb_exists. split.
  - intros (pattern & Hin & Ht). apply test_language in Ht as (pre & w & post & -> & Hw).
    exists pre, w, post. split; [reflexivity|].
    apply dangerous_word_shapes.
    rewrite dangerousPatterns_shapes in Hin.
    apply in_map_iff in Hin as (ps & <- & Hps).
    exists ps. split; [apply list_elem_of_In, Hps|].
    apply in_language_pieces, Hw.
  - intros (pre & w & post & -> & Hw).
    apply dangerous_word_shapes in Hw as (ps & Hps & Hw).
    exists (ps ≫= nodes_of). split.
    + rewrite dangerousPatterns_shapes. apply in_map_iff.
      exists ps. split; [reflexivity|apply list_elem_of_In, Hps].
    + apply test_language. exists pre, w, post. split; [reflexivity|].
      apply in_language_pieces, Hw.
Qed.

(** X7. [validateCode] returns [true] exactly for a code that is not
    blank, given with a language that is not empty, no part of which is
    one of the texts the blocklist is after, letters in either case:
    [exec], [eval], [system] or [popen], then white space or none, then
    an opening parenthesis; [os.system]; [subprocess.]; [import], at
    least one white space and [os]; and [require] of [child_process]
    in single or double quotes, with white space or none around the
    parenthesis and the quoted name. *)
Theorem validateCode_accepts code language :
  validateCode code language = Returns true
  ↔ ∃ c l, code = Some c ∧ language = Some l ∧ l ≠ []
           ∧ ¬ blank c ∧ ¬ contains dangerous_word c.
Proof.
  unfold validateCode. split.
  - destruct code as [c|]; [|discriminate].
    change (default [] (Some c)) with c.
    destruct (negb (truthy (Some c)) || (length (trim c) =? 0)) eqn:E1;
      [discriminate|].
    apply orb_false_iff in E1 as [_ E1]. apply Nat.eqb_neq in E1.
    destruct language as [[|x l]|]; cbn [truthy negb]; try discriminate.
    destruct (existsb _ _) eqn:E2; [discriminate|]. intros _.
    exists c, (x :: l). repeat split; [discriminate| |].
    + intros Hb. apply E1, trim_blank, Hb.
    + intros Hd. apply existsb_test_dangerous in Hd. congruence.
  - intros (c & l & -> & -> & Hl & Hb & Hd).
    assert (E1 : (length (trim c) =? 0) = false).
    { apply Nat.eqb_neq. intros H. apply Hb, trim_blank, H. }
    assert (Hc : truthy (Some c) = true).
    { destruct c; [|reflexivity]. exfalso. apply Hb. reflexivity. }
    change (default [] (Some c)) with c.
    rewrite Hc. cbn [negb orb]. rewrite E1.
    destruct l; [congruence|]. cbn [truthy negb].
    destruct (existsb _ _) eqn:E2; [|reflexivity].
    exfalso. apply Hd, existsb_test_dangerous, E2.
Qed.


(** X8. [validateCode] throws "Code cannot be empty" exactly when the
    code is missing or nothing but white space, whatever the language
    and whatever else would be wrong. *)
Theorem validateCode_blank code language :
  validateCode code language = Throws (js "Code cannot be empty")
  ↔ code = None ∨ ∃ c, code = Some c ∧ blank c.
Proof.
  unfold validateCode. destruct code as [c|]; [|cbn; split; auto].
  change (default [] (Some c)) with c.
  destruct (Nat.eqb_spec (length (trim c)) 0) as [E|E].
  - rewrite orb_true_r. split; [|reflexivity]. intros _. right.
    exists c. split; [reflexivity|apply trim_blank, E].
  - assert (Hb : ¬ blank c) by (intros Hb; apply E, trim_blank, Hb).
    assert (Hc : truthy (Some c) = true).
    { destruct c; [|reflexivity]. exfalso. apply Hb. reflexivity. }
    rewrite Hc. cbn [negb orb]. split.
    + destruct (negb (truthy language)); [discriminate|].
      destruct (existsb _ _); discriminate.
    + intros [H|(c' & [= <-] & H)]; [discriminate|contradiction].
Qed.

Lemma lower_ascii_cases x :
  lower_ascii x = x ∨ ∃ k, (k < 26)%nat ∧ x = (65 + N.of_nat k)%N.
Proof.
  unfold lower_ascii, in_range.
  destruct (N.leb_spec 65 x); [|auto].
  destruct (N.leb_spec x 90); [|auto]. right.
  exists (N.to_nat (x - 65)). lia.
Qed.

Lemma upper_case_facts k :
  (k < 26)%nat →
  let x := (65 + N.of_nat k)%N in
  isWhiteSpace x = false ∧ isWhiteSpace (lower_ascii x) = false
  ∧ is_quote (lower_ascii x) = false
  ∧ lower_ascii (lower_ascii x) = lower_ascii x
  ∧ is_quote x = false.
Proof.
  intros Hk. do 26 (destruct k as [|k]; [vm_compute; auto 6|]). lia.
Qed.

Lemma isWhiteSpace_lower x : isWhiteSpace (lower_ascii x) = isWhiteSpace x.
Proof.
  destruct (lower_ascii_cases x) as [->|(k & Hk & ->)]; [reflexivity|].
  destruct (upper_case_facts k Hk) as (H1 & H2 & _). congruence.
Qed.

Lemma lower_ascii_idem x : lower_ascii (lower_ascii x) = lower_ascii x.
Proof.
  destruct (lower_ascii_cases x) as [H|(k & Hk & ->)]; [rewrite H; exact H|].
  apply (upper_case_facts k Hk).
Qed.

Lemma is_quote_lower x : is_quote (lower_ascii x) = true → lower_ascii x = x.
Proof.
  destruct (lower_ascii_cases x) as [H|(k & Hk & ->)]; [auto|].
  destruct (upper_case_facts k Hk) as (_ & _ & H & _). congruence.
Qed.

Lemma ascii_lower_idem s : ascii_lower (ascii_lower s) = ascii_lower s.
Proof.
  unfold ascii_lower. rewrite <- list_fmap_compose.
  apply list_fmap_ext. intros _ x _. apply lower_ascii_idem.
Qed.

Lemma blank_lower s : blank (ascii_lower s) ↔ blank s.
Proof.
  unfold blank, ascii_lower. induction s as [|x s IH]; [tauto|].
  cbn [fmap list_fmap forallb]. fold (fmap lower_ascii s).
  rewrite isWhiteSpace_lower, !andb_true_iff, IH. tauto.
Qed.

Lemma piece_word_lower p w :
  piece_word p (ascii_lower w) ↔ piece_word p w.
Proof.
  destruct p as [s|min|]; cbn [piece_word].
  - unfold same_letters. rewrite ascii_lower_idem. tauto.
  - rewrite blank_lower. unfold ascii_lower. rewrite length_fmap. tauto.
  - split.
    + intros (q & Hw & Hq). destruct w as [|x [|? ?]]; try discriminate.
      injection Hw as <-. exists x. split; [reflexivity|].
      rewrite <- (is_quote_lower x Hq). exact Hq.
    + intros (q & -> & Hq). exists (lower_ascii q). split; [reflexivity|].
      assert (lower_ascii q = q) as ->; [|auto].
      destruct (lower_ascii_cases q) as [H|(k & Hk & ->)]; [exact H|].
      destruct (upper_case_facts k Hk) as (_ & _ & _ & _ & H). congruence.
Qed.

Lemma pieces_word_lower : ∀ ps w,
  pieces_word ps (ascii_lower w) ↔ pieces_word ps w.
Proof.
  induction ps as [|p ps IH]; intros w; cbn [pieces_word].
  - unfold ascii_lower. split; [apply fmap_nil_inv|intros ->; reflexivity].
  - split.
    + intros (v1 & v2 & Hv & Hp & Hps). unfold ascii_lower in Hv.
      apply fmap_app_inv in Hv as (w1 & w2 & -> & -> & ->).
      exists w1, w2. split; [reflexivity|].
      split; [apply piece_word_lower, Hp|apply IH, Hps].
    + intros (w1 & w2 & -> & Hp & Hps).
      exists (ascii_lower w1), (ascii_lower w2).
      split; [apply fmap_app|].
      split; [apply piece_word_lower, Hp|apply IH, Hps].
Qed.

Lemma dangerous_word_lower w : dangerous_word (ascii_lower w) ↔ dangerous_word w.
Proof.
  rewrite !dangerous_word_shapes.
  split; intros (ps & Hps & H); exists ps; (split; [exact Hps|]);
    apply pieces_word_lower, H.
Qed.

Lemma contains_dangerous_lower c :
  contains dangerous_word (ascii_lower c) ↔ contains dangerous_word c.
Proof.
  split.
  - intros (pre & w & post & Hc & Hw). unfold ascii_lower in Hc.
    apply fmap_app_inv in Hc as (pre' & rest & -> & Hrest & ->).
    symmetry in Hrest.
    apply fmap_app_inv in Hrest as (w' & post' & -> & -> & ->).
    exists pre', w', post'. split; [reflexivity|].
    apply dangerous_word_lower, Hw.
  - intros (pre & w & post & -> & Hw).
    exists (ascii_lower pre), (ascii_lower w), (ascii_lower post).
    split; [unfold ascii_lower; rewrite !fmap_app; reflexivity|].
    apply dangerous_word_lower, Hw.
Qed.

(** X9. The verdict of [validateCode] does not depend on the case of
    the ASCII letters of the code. *)
Theorem validateCode_case_blind code language :
  validateCode (Some (ascii_lower code)) language
  = validateCode (Some code) language.
Proof.
  unfold validateCode.
  change (default [] (Some (ascii_lower code))) with (ascii_lower code).
  change (default [] (Some code)) with code.
  assert (H1 : truthy (Some (ascii_lower code)) = truthy (Some code))
    by (destruct code; reflexivity).
  assert (H2 : (length (trim (ascii_lower code)) =? 0)
               = (length (trim code) =? 0)).
  { apply eq_true_iff_eq. rewrite !Nat.eqb_eq, !trim_blank. apply blank_lower. }
  assert (H3 : existsb (λ pattern, test pattern (ascii_lower code)) dangerousPatterns
               = existsb (λ pattern, test pattern code) dangerousPatterns).
  { apply eq_true_iff_eq. rewrite !existsb_test_dangerous.
    apply contains_dangerous_lower. }
  rewrite H1, H2, H3. reflexivity.
Qed.

End Validator.

(** ** What the parser returns *)

Section ParserShape.

Lemma startsWith_prefix needle : ∀ s t,
  startsWith needle s = true → startsWith needle (s ++ t) = true.
Proof.
  induction needle as [|a needle IH]; intros s t H; [reflexivity|].
  destruct s as [|b s]; [discriminate|]. cbn [startsWith app] in *.
  apply andb_true_iff in H as [-> H]. apply IH, H.
Qed.

Lemma startsWith_length needle : ∀ s,
  startsWith needle s = true → length needle ≤ length s.
Proof.
  induction needle as [|a needle IH]; intros s H; cbn [length]; [lia|].
  destruct s as [|b s]; [discriminate|]. cbn [startsWith] in H.
  apply andb_true_iff in H as [_ H]. apply IH in H. cbn [length]. lia.
Qed.

Lemma no_fence_infix a t b : no_fence (a ++ t ++ b) → no_fence t.
Proof.
  intros H i Hi. destruct (startsWith fence (drop i t)) eqn:E; [|reflexivity].
  rewrite <- (H (length a + i)).
  - rewrite <- drop_drop, drop_app_length.
    rewrite drop_app_le by exact Hi. symmetry. apply startsWith_prefix, E.
  - rewrite !length_app. lia.
Qed.

Lemma closes_first_no_fence content rest :
  closes_first content rest → no_fence content.
Proof.
  intros H i Hi. destruct (startsWith fence (drop i content)) eqn:E; [|reflexivity].
  pose proof (startsWith_length _ _ E) as Hlen. rewrite length_drop in Hlen.
  change (length fence) with 3 in Hlen.
  rewrite <- (H i) by lia.
  rewrite drop_app_le by lia. symmetry. apply startsWith_prefix, E.
Qed.

Lemma no_fence_nil : no_fence [].
Proof. intros [|i] _; reflexivity. Qed.

Lemma trimmed_nil : trimmed [].
Proof. split; exact I. Qed.

Lemma match_at_codeBlock s rest caps :
  match_at codeBlockRegex s = Some (rest, caps) →
  ∃ tag content,
    forallb isWord tag = true ∧ closes_first content rest
    ∧ caps = fenced_captures tag content.
Proof.
  intros H. destruct (opens_block_nearest s (match_opens _ _ _ H))
    as (tag & content & rest' & -> & Htag & Hclose).
  rewrite (fenced_match tag content rest' Htag Hclose) in H.
  injection H as <- <-. eauto.
Qed.

Lemma scan_blocks_clean raw : ∀ lastIndex ms,
  scan codeBlockRegex raw lastIndex ms → Forall clean_block (block_of <$> ms).
Proof.
  induction 1 as [li Hnone|li m li' ms Hexec _ IH]; [constructor|].
  rewrite fmap_cons. constructor; [|exact IH].
  destruct (exec_found _ _ _ _ _ Hexec) as (_ & _ & _ & Hm & _).
  destruct (match_at_codeBlock _ _ _ Hm) as (tag & content & Htag & Hclose & Hcaps).
  unfold clean_block, block_of, group. rewrite Hcaps. cbn [cb_language cb_code].
  unfold fenced_captures. rewrite lookup_insert_eq.
  rewrite lookup_insert_ne by lia.
  change (default [] (Some content)) with content.
  assert (Hcode : no_fence (trim content) ∧ trimmed (trim content)).
  { split; [|apply trim_trimmed].
    destruct (trim_infix content) as (a & b & Hc & _).
    apply (no_fence_infix a _ b). rewrite <- Hc.
    eapply closes_first_no_fence, Hclose. }
  destruct tag as [|c tag].
  - rewrite lookup_empty. cbn [or_else]. split; [discriminate|].
    split; [reflexivity|exact Hcode].
  - rewrite lookup_insert_eq. cbn [or_else]. split; [discriminate|].
    split; [exact Htag|exact Hcode].
Qed.

Lemma scan_nil_iff raw :
  scan codeBlockRegex raw 0 [] ↔ ∀ i, i ≤ length raw → ¬ opens_block (drop i raw).
Proof.
  split.
  - intros H. inversion H as [li Hnone|]; subst.
    unfold exec in Hnone. cbn [Nat.ltb Nat.leb] in Hnone.
    rewrite drop_0 in Hnone.
    destruct (search codeBlockRegex raw 0) eqn:E; [discriminate|].
    intros i Hi Hopen.
    destruct (opens_block_matches _ Hopen) as (rest & caps & Hm).
    rewrite (search_none _ _ _ E i Hi) in Hm. discriminate.
  - intros H. constructor. unfold exec. cbn [Nat.ltb Nat.leb]. rewrite drop_0.
    rewrite search_nothing; [reflexivity|].
    intros j Hj. apply no_block_no_match, H, Hj.
Qed.

(** X10. For every text the parser returns, and what it puts in
    [sections.code] is clean: the language is made of word characters,
    the snippet and the optimized version hold no fence marker and no
    white space at either end; the language is empty exactly when the
    pattern of [codeBlockRegex] matches at no position of the text (no
    marker followed by word characters or none, a line feed right after
    them and, later, a second marker), and then the other two fields
    are empty as well. *)
Theorem parser_code_clean raw :
  ∃ sections,
    parseResponse raw = Returns sections
    ∧ forallb isWord (language (code sections)) = true
    ∧ no_fence (snippet (code sections))
    ∧ trimmed (snippet (code sections))
    ∧ no_fence (optimizedVersion (code sections))
    ∧ trimmed (optimizedVersion (code sections))
    ∧ (language (code sections) = []
       ↔ ∀ i, i ≤ length raw → ¬ opens_block (drop i raw))
    ∧ (language (code sections) = [] →
       snippet (code sections) = [] ∧ optimizedVersion (code sections) = []).
Proof.
  destruct (parseResponse_scan raw) as (blocks & lines & Hscan & _ & H).
  eexists. split; [apply H; lia|]. cbn [code].
  pose proof (scan_blocks_clean _ _ _ Hscan) as Hclean.
  pose proof (scan_nil_iff raw) as Hnil.
  destruct blocks as [|m blocks].
  - cbn. repeat split; try apply no_fence_nil; try exact I.
    + intros _. apply Hnil, Hscan.
  - rewrite fmap_cons in Hclean. apply Forall_cons in Hclean as [(Hl & Hw & Hf & Ht) Hrest].
    cbn [fmap list_fmap code_of_blocks language snippet optimizedVersion].
    split; [exact Hw|]. split; [exact Hf|]. split; [exact Ht|].
    assert (Hopt : no_fence (match block_of <$> blocks with
                             | b1 :: _ => cb_code b1 | [] => [] end)
                   ∧ trimmed (match block_of <$> blocks with
                             | b1 :: _ => cb_code b1 | [] => [] end)).
    { destruct Hrest as [|b bs (_ & _ & Hf' & Ht') _];
        [split; [apply no_fence_nil|apply trimmed_nil]|auto]. }
    split; [apply Hopt|]. split; [apply Hopt|]. split.
    + split; [intros E; destruct (Hl E)|].
      intros Hno. apply Hnil in Hno.
      pose proof (scan_functional _ _ _ _ _ Hscan Hno). discriminate.
    + intros E. destruct (Hl E).
Qed.

Lemma notLF_infix (a t b : jsstring) :
  forallb notLF (a ++ t ++ b) = true → forallb notLF t = true.
Proof.
  rewrite !forallb_app. intros H.
  apply andb_true_iff in H as [_ H]. apply andb_true_iff in H as [H _]. exact H.
Qed.

(** X11. For every text, the description of every step the parser
    returns holds no line feed and no white space at either end. *)
Theorem parser_steps_clean raw :
  ∃ sections,
    parseResponse raw = Returns sections
    ∧ Forall (λ step, forallb notLF (description step) = true
                      ∧ trimmed (description step))
        (steps sections).
Proof.
  destruct (parseResponse_scan raw) as (blocks & lines & _ & Hscan & H).
  eexists. split; [apply H; lia|]. cbn [steps].
  pose proof (number_from_lines _ _ _ Hscan 1%Z) as Hlines.
  clear H Hscan. generalize dependent (number_from 1 lines). intros found Hlines.
  induction Hlines as [|step m steps' ms (digits & space & text & Hnum & Hd) _ IH];
    constructor; [|exact IH].
  rewrite Hd. split; [|apply trim_trimmed].
  destruct Hnum as (_ & _ & _ & _ & _ & Htext & _).
  destruct (trim_infix text) as (a & b & Ht & _).
  apply (notLF_infix a _ b). rewrite <- Ht. exact Htext.
Qed.

Lemma first_lines_prefix : ∀ n s, ∃ rest, s = first_lines n s ++ rest.
Proof.
  intros n s. revert n. induction s as [|c s IH]; intros [|n]; cbn [first_lines];
    try (eexists; reflexivity).
  destruct (c =? LF)%N.
  - destruct n as [|n]; [eexists; reflexivity|].
    destruct (IH (S n)) as (rest & Hr). exists rest. cbn [app]. congruence.
  - destruct (IH (S n)) as (rest & Hr). exists rest. cbn [app]. congruence.
Qed.

Lemma occurs_or_not needle : ∀ s,
  (∀ j, j ≤ length s → startsWith needle (drop j s) = false)
  ∨ (∃ i, i ≤ length s ∧ startsWith needle (drop i s) = true).
Proof.
  induction s as [|c s IH].
  - destruct (startsWith needle []) eqn:E.
    + right. exists 0. auto.
    + left. intros [|j] _; exact E.
  - destruct (startsWith needle (c :: s)) eqn:E.
    + right. exists 0. split; [lia|exact E].
    + destruct IH as [Hno|(i & Hi & Hyes)].
      * left. intros [|j] Hj; [exact E|]. apply Hno. cbn [length] in Hj. lia.
      * right. exists (S i). split; [cbn [length]; lia|exact Hyes].
Qed.

Lemma no_fence_cases raw :
  no_fence raw ∨ ∃ pre, first_fence_after pre raw.
Proof.
  destruct (occurs_or_not fence raw) as [Hno|Hex].
  - left. exact Hno.
  - right. destruct (first_occurrence fence raw Hex) as (pre & rest & -> & Hfirst).
    exists pre. split; [eauto|exact Hfirst].
Qed.

(** X12. For every text, the explanation the parser returns has no
    white space at either end, and when the text does not start with a
    fence marker it holds no fence marker. *)
Theorem parser_explanation_clean raw :
  ∃ sections,
    parseResponse raw = Returns sections
    ∧ trimmed (explanation sections)
    ∧ (startsWith fence raw = false → no_fence (explanation sections)).
Proof.
  destruct (parseResponse_scan raw) as (blocks & lines & _ & _ & H).
  eexists. split; [apply H; lia|]. cbn [explanation].
  split.
  { unfold explanation_of. destruct (0 <? indexOf fence raw)%Z; apply trim_trimmed. }
  intros Hstart. unfold explanation_of, indexOf.
  destruct (no_fence_cases raw) as [Hnone|(pre & [[rest ->] Hfirst])].
  - rewrite indexOf_from_absent by exact Hnone.
    cbn [Z.ltb Z.compare]. rewrite join_split_take.
    destruct (trim_infix (first_lines 3 raw)) as (a & b & Ht & _).
    destruct (first_lines_prefix 3 raw) as (rest & Hr).
    apply (no_fence_infix a _ (b ++ rest)).
    rewrite app_assoc, (app_assoc _ b), <- (app_assoc a), <- Ht, <- Hr. exact Hnone.
  - rewrite indexOf_from_first by exact Hfirst.
    destruct pre as [|c pre].
    { cbn [app] in Hstart. rewrite startsWith_app in Hstart. discriminate. }
    replace (0 <? 0 + Z.of_nat (length (c :: pre)))%Z with true
      by (symmetry; apply Z.ltb_lt; cbn [length]; lia).
    unfold substring0.
    replace (Z.to_nat (0 + Z.of_nat (length (c :: pre))))
      with (length (c :: pre)) by lia.
    rewrite take_app_length.
    destruct (trim_infix (c :: pre)) as (a & b & Ht & _).
    apply (no_fence_infix a _ b). rewrite <- Ht.
    intros i Hi. destruct (startsWith fence (drop i (c :: pre))) eqn:E; [|reflexivity].
    pose proof (startsWith_length _ _ E) as Hlen. rewrite length_drop in Hlen.
    change (length fence) with 3 in Hlen.
    rewrite <- (Hfirst i) by lia.
    rewrite drop_app_le by lia. symmetry. apply startsWith_prefix, E.
Qed.

End ParserShape.

(** ** Histories of the quota tracker *)

Section QuotaHistory.
Local Open Scope Z_scope.

Lemma reset_fields now u :
  _id (resetMonthlyQueries now u) = _id u
  ∧ isActive (resetMonthlyQueries now u) = isActive u
  ∧ subscription (resetMonthlyQueries now u) = subscription u
  ∧ totalQueries (apiUsage (resetMonthlyQueries now u)) = totalQueries (apiUsage u)
  ∧ (monthlyQueries (apiUsage (resetMonthlyQueries now u)) = 0
     ∨ monthlyQueries (apiUsage (resetMonthlyQueries now u))
       = monthlyQueries (apiUsage u)).
Proof.
  unfold resetMonthlyQueries. destruct (_ || _); cbn; auto 6.
Qed.

(** X13. As long as the lifetime counter is a count that stays a safe
    integer (from 0 up to [Number.MAX_SAFE_INTEGER], where the addition
    of the code is exact), a history of calls on a user object makes it
    grow by the number of [incrementQueryCount] calls, each counted
    whether or not its save succeeded; resets never touch it, and no call
    changes the plan, the limit, the identifier or the active flag. *)
Theorem run_counts calls : ∀ u,
  0 ≤ totalQueries (apiUsage u) →
  totalQueries (apiUsage u)
  + Z.of_nat (length (filter (λ c, is_increment c = true) calls))
  ≤ MAX_SAFE_INTEGER →
  totalQueries (apiUsage (snd (run calls u)))
  = totalQueries (apiUsage u)
    + Z.of_nat (length (filter (λ c, is_increment c = true) calls))
  ∧ subscription (snd (run calls u)) = subscription u
  ∧ _id (snd (run calls u)) = _id u
  ∧ isActive (snd (run calls u)) = isActive u.
Proof.
  induction calls as [|[now|save] calls IH]; intros u Hcount Hsafe.
  - cbn. repeat split; lia.
  - cbn [run]. unfold canMakeQuery.
    destruct (reset_fields now u) as (E1 & E2 & E3 & E4 & _).
    rewrite filter_cons_False in Hsafe |- * by (cbn; discriminate).
    destruct (IH (resetMonthlyQueries now u)) as (H1 & H2 & H3 & H4);
      [rewrite E4; exact Hcount|rewrite E4; exact Hsafe|].
    destruct (run calls (resetMonthlyQueries now u)) as [answers u'].
    cbn [snd] in *.
    rewrite H1, H2, H3, H4, E1, E2, E3, E4. auto.
  - cbn [run]. rewrite filter_cons_True in Hsafe |- * by reflexivity.
    cbn [length] in Hsafe.
    destruct (IH (snd (incrementQueryCount save u))) as (H1 & H2 & H3 & H4);
      [cbn; lia|cbn; lia|].
    rewrite H1, H2, H3, H4. cbn. repeat split. lia.
Qed.

(** X14. A window counter that starts between 0 and the lifetime
    counter stays there through any history of calls. *)
Theorem run_window calls : ∀ u,
  0 ≤ monthlyQueries (apiUsage u) ≤ totalQueries (apiUsage u) →
  0 ≤ monthlyQueries (apiUsage (snd (run calls u)))
    ≤ totalQueries (apiUsage (snd (run calls u))).
Proof.
  induction calls as [|[now|save] calls IH]; intros u Hu.
  - exact Hu.
  - cbn [run]. unfold canMakeQuery.
    specialize (IH (resetMonthlyQueries now u)).
    destruct (run calls (resetMonthlyQueries now u)) as [answers u'].
    cbn [snd] in *. apply IH.
    destruct (reset_fields now u) as (_ & _ & _ & E4 & [E5|E5]); rewrite E4, E5; lia.
  - cbn [run]. apply IH. cbn. lia.
Qed.

End QuotaHistory.

(** ** Assertions on a run *)

Section Triples.
Variable W : World.

Lemma triple_ret {A} (P : State → Prop) (a : A) Q E :
  (∀ st, P st → Q a st) → triple P (ret a) Q E.
Proof. intros H st Hst. apply H, Hst. Qed.

Lemma triple_throw {A} (P : State → Prop) e (Q : A → State → Prop) E :
  (∀ st, P st → E e st) → triple P (throw e) Q E.
Proof. intros H st Hst. apply H, Hst. Qed.

Lemma triple_bind {A B} P (m : M A) Q (f : A → M B) R E :
  triple P m Q E → (∀ a, triple (Q a) (f a) R E) → triple P (m ≫= f) R E.
Proof.
  intros Hm Hf st Hst. specialize (Hm st Hst).
  unfold mbind, M_bind, bind. destruct (m st) as [[a|e|] st1]; [|exact Hm|exact I].
  apply Hf, Hm.
Qed.

Lemma triple_try_catch {A} P (m : M A) Q E' h E :
  triple P m Q E' → (∀ e, triple (E' e) (h e) Q E) →
  triple P (try_catch m h) Q E.
Proof.
  intros Hm Hh st Hst. specialize (Hm st Hst).
  unfold try_catch. destruct (m st) as [[a|e|] st1]; [exact Hm| |exact I].
  apply Hh, Hm.
Qed.

Lemma triple_weaken {A} (P P' : State → Prop) (m : M A) (Q Q' : A → State → Prop)
    (E E' : jsstring → State → Prop) :
  triple P m Q E →
  (∀ st, P' st → P st) → (∀ a st, Q a st → Q' a st) →
  (∀ e st, E e st → E' e st) →
  triple P' m Q' E'.
Proof.
  intros Hm HP HQ HE st Hst. specialize (Hm st (HP st Hst)).
  destruct (m st) as [[a|e|] st1]; auto.
Qed.

Lemma triple_get_state P E :
  triple P get_state (λ s st, st = s ∧ P st) E.
Proof. intros st Hst. cbn. auto. Qed.

Lemma triple_modify P f (Q : unit → State → Prop) E :
  (∀ st, P st → Q tt (f st)) → triple P (modify f) Q E.
Proof. intros H st Hst. apply H, Hst. Qed.

Lemma same_data_refl st : same_data st st.
Proof. repeat split. Qed.

Lemma same_data_trans st1 st2 st3 :
  same_data st1 st2 → same_data st2 st3 → same_data st1 st3.
Proof.
  intros (A1 & A2 & A3 & A4 & A5 & A6) (B1 & B2 & B3 & B4 & B5 & B6).
  repeat split; congruence.
Qed.

Lemma same_data_observed es n st : same_data st (observed es n st).
Proof. repeat split. Qed.

Lemma same_data_tick st : same_data st (tick st).
Proof. repeat split. Qed.

Lemma same_data_framed st st' : framed st st' → same_data st st'.
Proof. intros (es & n & ->). apply same_data_observed. Qed.

Lemma triple_store_op (P : State → Prop) e write (Q : unit → State → Prop) E :
  (∀ st, P st → store_error W (store_ops st) = None →
     Q tt (observed [e] 0 (write (tick st)))) →
  (∀ st message, P st → store_error W (store_ops st) = Some message →
     E message (tick st)) →
  triple P (store_op W e write) Q E.
Proof.
  intros HQ HE st Hst.
  destruct (store_error W (store_ops st)) as [message|] eqn:Hs.
  - rewrite (store_op_fails W _ _ _ _ Hs). apply HE; assumption.
  - rewrite (store_op_ok W _ _ _ Hs). apply HQ; assumption.
Qed.

(** A call that touches nothing but the trace keeps every assertion on the data. *)
Lemma triple_framed {A} (P : State → Prop) (m : M A) :
  (∀ st, framed st (snd (m st))) → loose P →
  triple P m (λ _, P) (λ _, P).
Proof.
  intros Hm HP st Hst. specialize (Hm st).
  destruct (m st) as [[a|e|] st1]; cbn [snd] in Hm; [| |exact I];
    (eapply HP; [apply same_data_framed, Hm|exact Hst]).
Qed.

Lemma generateSolutionGPT_framed p st :
  framed st (snd (generateSolutionGPT W p st)).
Proof.
  unfold generateSolutionGPT, try_catch.
  unfold mbind, M_bind, bind. rewrite (log_run (OpenAIRequest p) st).
  destruct (openai_create W p); cbn; apply framed_observed.
Qed.

Lemma generateSolutionClaude_framed p st :
  framed st (snd (generateSolutionClaude W p st)).
Proof.
  unfold generateSolutionClaude.
  destruct (anthropic W) as [create|]; [|apply framed_refl].
  unfold try_catch, mbind, M_bind, bind. rewrite (log_run (AnthropicRequest p) st).
  destruct (create p); cbn; apply framed_observed.
Qed.

Lemma generateSolution_framed p aiModel st :
  framed st (snd (generateSolution W p aiModel st)).
Proof.
  unfold generateSolution. cbv zeta. unfold try_catch.
  unfold mbind at 1. unfold M_bind, bind.
  assert (Hp : ∀ provider : M ProviderResult,
            framed st (snd (provider st)) →
            framed st
              (snd (match
                      match provider st with
                      | (Returns a, st') =>
                          (parsed ← lift (parseResponse (pr_answer a));
                           ret {| ai_answer := pr_answer a;
                                  ai_explanation := explanation parsed;
                                  ai_code := code parsed;
                                  ai_steps := steps parsed;
                                  ai_aiModel := pr_model a;
                                  ai_tokenUsage := pr_tokenUsage a;
                                  ai_processingTime := pr_processingTime a |}) st'
                      | (Throws e, st') => (Throws e, st')
                      | (OutOfFuel, st') => (OutOfFuel, st')
                      end
                    with
                    | (Throws e, st') => throw e st'
                    | r => r
                    end))).
  { intros provider Hp.
    destruct (provider st) as [[r|e|] st1]; cbn [snd] in *; try exact Hp.
    unfold mbind, M_bind, bind, lift.
    destruct (parseResponse (pr_answer r)); exact Hp. }
  destruct (_ || _); apply Hp;
    [apply generateSolutionClaude_framed|apply generateSolutionGPT_framed].
Qed.

(** finishing *)
Lemma finishes_ret {A} (a : A) : finishes (ret a).
Proof. intros st. discriminate. Qed.

Lemma finishes_throw {A} e : finishes (@throw A e).
Proof. intros st. discriminate. Qed.

Lemma finishes_bind {A B} (m : M A) (f : A → M B) :
  finishes m → (∀ a, finishes (f a)) → finishes (m ≫= f).
Proof.
  intros Hm Hf st. specialize (Hm st). unfold mbind, M_bind, bind.
  destruct (m st) as [[a|e|] st1]; cbn [fst] in *; [apply Hf|discriminate|congruence].
Qed.

Lemma finishes_try_catch {A} (m : M A) h :
  finishes m → (∀ e, finishes (h e)) → finishes (try_catch m h).
Proof.
  intros Hm Hh st. specialize (Hm st). unfold try_catch.
  destruct (m st) as [[a|e|] st1]; cbn [fst] in *; [discriminate|apply Hh|congruence].
Qed.

Lemma finishes_log e : finishes (log e).
Proof. intros st. discriminate. Qed.

Lemma finishes_modify f : finishes (modify f).
Proof. intros st. discriminate. Qed.

Lemma finishes_get_state : finishes get_state.
Proof. intros st. discriminate. Qed.

Lemma finishes_store_op e write : finishes (store_op W e write).
Proof.
  intros st. unfold store_op. destruct (store_error W (store_ops st)); discriminate.
Qed.

Lemma finishes_generateSolution p aiModel : finishes (generateSolution W p aiModel).
Proof.
  unfold generateSolution. cbv zeta.
  apply finishes_try_catch; [|intros; apply finishes_throw].
  apply finishes_bind.
  - destruct (_ || _).
    + unfold generateSolutionClaude. destruct (anthropic W) as [create|];
        [|apply finishes_throw].
      apply finishes_try_catch; [|intros; apply finishes_throw].
      apply finishes_bind; [apply finishes_log|]. intros _.
      destruct (create p); [apply finishes_throw|apply finishes_ret].
    + unfold generateSolutionGPT.
      apply finishes_try_catch; [|intros; apply finishes_throw].
      apply finishes_bind; [apply finishes_log|]. intros _.
      destruct (openai_create W p); [apply finishes_throw|apply finishes_ret].
  - intros r. apply finishes_bind; [|intros; apply finishes_ret].
    intros st. unfold lift. cbn [fst].
    destruct (parseResponse_scan (pr_answer r)) as (blocks & lines & _ & _ & H).
    unfold parseResponse. rewrite H by lia. discriminate.
Qed.

End Triples.

(** ** What the replies stand for *)

Section Replies.
Variable W : World.

Lemma triple_create_problem doc (P : State → Prop) (Q : nat → State → Prop) E :
  (∀ st, P st → store_error W (store_ops st) = None →
     Q (fresh_problem st)
       (observed [ProblemCreate (fresh_problem st)] 0
          (with_problems (insert (fresh_problem st) doc)
             (with_db_problems (insert (fresh_problem st) doc) (tick st))))) →
  (∀ st e, P st → store_error W (store_ops st) = Some e → E e (tick st)) →
  triple P (Problem_create W doc) Q E.
Proof.
  intros HQ HE st Hst.
  destruct (store_error W (store_ops st)) as [e|] eqn:Hs.
  - unfold Problem_create. erewrite bind_returns by reflexivity.
    erewrite bind_throws by (apply store_op_fails, Hs). apply HE; assumption.
  - rewrite (Problem_create_ok W _ _ Hs). apply HQ; assumption.
Qed.

Lemma triple_create_solution doc (P : State → Prop) (Q : nat → State → Prop) E :
  (∀ st, P st → store_error W (store_ops st) = None →
     Q (fresh_solution st)
       (observed [SolutionCreate (fresh_solution st)] 0
          (with_solutions (insert (fresh_solution st) doc)
             (with_db_solutions (insert (fresh_solution st) doc) (tick st))))) →
  (∀ st e, P st → store_error W (store_ops st) = Some e → E e (tick st)) →
  triple P (Solution_create W doc) Q E.
Proof.
  intros HQ HE st Hst.
  destruct (store_error W (store_ops st)) as [e|] eqn:Hs.
  - unfold Solution_create. erewrite bind_returns by reflexivity.
    erewrite bind_throws by (apply store_op_fails, Hs). apply HE; assumption.
  - rewrite (Solution_create_ok W _ _ Hs). apply HQ; assumption.
Qed.

Lemma triple_increment (P : State → Prop) (Q : unit → State → Prop) E :
  (∀ st, P st → store_error W (store_ops st) = None →
     Q tt (observed [UserSave (_id (req_user st))] 0
             (with_db_users (insert (_id (req_user st)) (countQuery (req_user st)))
                (tick (with_req_user countQuery st))))) →
  (∀ st e, P st → store_error W (store_ops st) = Some e →
     E e (tick (with_req_user countQuery st))) →
  triple P (req_user_incrementQueryCount W) Q E.
Proof.
  intros HQ HE st Hst.
  destruct (store_error W (store_ops st)) as [e|] eqn:Hs.
  - unfold req_user_incrementQueryCount.
    erewrite bind_returns by reflexivity.
    erewrite bind_returns by reflexivity.
    rewrite (store_op_fails W _ _ _ e) by exact Hs. apply HE; assumption.
  - rewrite (incrementQueryCount_ok W _ Hs). apply HQ; assumption.
Qed.

Lemma triple_findById id (P : State → Prop)
    (Q : option (ProblemDoc * option SolutionDoc) → State → Prop) E :
  (∀ st, P st → store_error W (store_ops st) = None →
     Q (match db_problems st !! id with
        | Some doc => Some (doc, p_solution doc ≫= λ sid, db_solutions st !! sid)
        | None => None
        end)
       (observed [ProblemFind id] 0 (tick st))) →
  (∀ st e, P st → store_error W (store_ops st) = Some e → E e (tick st)) →
  triple P (Problem_findById W id) Q E.
Proof.
  intros HQ HE st Hst.
  destruct (store_error W (store_ops st)) as [e|] eqn:Hs.
  - unfold Problem_findById.
    erewrite bind_throws by (apply store_op_fails, Hs). apply HE; assumption.
  - unfold Problem_findById.
    rewrite (bind_returns _ _ _ _ _ (store_op_ok W (ProblemFind id) (λ st, st) st Hs)).
    erewrite bind_returns by reflexivity. unfold ret.
    cbn [db_problems db_solutions observed tick]. apply HQ; assumption.
Qed.


Section Spec.

Variable body : Body.
Variable st0 : State.

Local Abbreviation u0 := (req_user st0).
Local Abbreviation uid := (_id (req_user st0)).
Local Abbreviation pdoc0 := (new_problem (_id (req_user st0)) body).

Ltac data :=
  cbn [db_problems db_solutions db_users problems solutions req_user
       observed tick with_db_problems with_db_solutions with_db_users
       with_problems with_solutions with_req_user] in *.

Lemma at_stage_interrupted pid sid ai held ran st :
  p_user held = uid →
  at_stage st0 pid sid ai u0 held ran st → interrupted st0 pid st.
Proof.
  intros Hheld (Hu & Hp & Hn & _). split; [left; exact Hu|].
  split; [eauto|exact Hn].
Qed.

Lemma at_stage_loose pid sid ai user held ran : loose (at_stage st0 pid sid ai user held ran).
Proof.
  intros st st' (E1 & E2 & E3 & E4 & E5 & E6) (Hu & Hp & Hn1 & Hn2 & sdoc & Hs).
  unfold at_stage, stored. rewrite E6, E4, E2. eauto 10.
Qed.

Lemma inmem_loose pid sid ai ran : loose (inmem pid sid ai ran).
Proof.
  intros st st' (E1 & E2 & E3 & E4 & E5 & E6) (sdoc & Hs).
  unfold inmem. rewrite E5. eauto.
Qed.

Lemma stored_forget pid sid ai ran st :
  stored pid sid ai ran st → stored pid sid ai None st.
Proof. intros (sdoc & H1 & H2 & H3 & _). exists sdoc. auto. Qed.

(** The block that runs the code, when it is entered. *)
Lemma triple_run_block pid sid ai :
  triple (λ st, at_stage st0 pid sid ai u0 pdoc0 (Some false) st
                ∧ inmem pid sid ai false st)
    (try_catch
       (executionResult ←
          executeCode W (snippet (ai_code ai)) (default [] (b_language body)) None;
        modify (with_solutions (alter (set_executionResult executionResult) sid));;
        Solution_save W sid)
       (λ execError,
          modify (with_solutions
                    (alter (set_executionResult (executionFailed execError)) sid));;
          Solution_save W sid))
    (λ _, at_stage st0 pid sid ai u0 pdoc0 (Some true))
    (λ _, interrupted st0 pid).
Proof.
  set (S0 := λ st, at_stage st0 pid sid ai u0 pdoc0 None st ∧ inmem pid sid ai false st).
  set (S1 := λ st, at_stage st0 pid sid ai u0 pdoc0 None st ∧ inmem pid sid ai true st).
  assert (Halter : ∀ r st, S0 st →
            S1 (with_solutions (alter (set_executionResult r) sid) st)).
  { intros r st ((Hu & Hp & Hn1 & Hn2 & Hs) & sdoc & Hm & Hpid & Hcode & _).
    split; [unfold at_stage; data; auto|].
    exists (set_executionResult r sdoc). data.
    rewrite lookup_alter_eq, Hm.
    split; [reflexivity|]. split; [exact Hpid|]. split; [exact Hcode|].
    intros _. cbn. eauto. }
  assert (Hsave : triple S1 (Solution_save W sid)
                    (λ _, at_stage st0 pid sid ai u0 pdoc0 (Some true))
                    (λ _, S0)).
  { apply triple_store_op.
    - intros st ((Hu & Hp & Hn1 & Hn2 & Hs) & sdoc & Hm & Hpid & Hcode & Hran) _.
      data. rewrite Hm. unfold at_stage, stored. data.
      split; [exact Hu|]. split; [exact Hp|]. split; [exact Hn1|].
      split; [exact Hn2|].
      exists sdoc. rewrite lookup_insert_eq.
      split; [reflexivity|]. split; [exact Hpid|]. split; [exact Hcode|].
      split; [reflexivity|]. intros _. apply Hran. reflexivity.
    - intros st e ((Hu & Hp & Hn1 & Hn2 & Hs) & sdoc & Hm & Hpid & Hcode & Hran) _.
      split; [unfold at_stage; data; auto|].
      exists sdoc. data. split; [exact Hm|]. split; [exact Hpid|].
      split; [exact Hcode|]. discriminate. }
  assert (HS0 : ∀ st, S0 st → interrupted st0 pid st).
  { intros st [H _]. eapply at_stage_interrupted; [|exact H]. reflexivity. }
  apply (triple_try_catch _ _ _ (λ _, S0)).
  - apply (triple_bind _ _ (λ _, S0)).
    + eapply triple_weaken.
      * apply (triple_framed S0).
        -- intros st. apply executeCode_framed.
        -- intros st st' Hd [H1 H2].
           split; [eapply at_stage_loose|eapply inmem_loose]; eassumption.
      * intros st [(Hu & Hp & Hn1 & Hn2 & Hs) Hm].
        split; [|exact Hm]. unfold at_stage.
        split; [exact Hu|]. split; [exact Hp|]. split; [exact Hn1|].
        split; [exact Hn2|]. eapply stored_forget, Hs.
      * intros a st H. exact H.
      * intros e st H. exact H.
    + intros r. apply (triple_bind _ _ (λ _, S1)).
      * apply triple_modify. intros st H. apply (Halter r), H.
      * intros []. exact Hsave.
  - intros e. apply (triple_bind _ _ (λ _, S1)).
    + apply triple_modify. intros st H. apply (Halter (executionFailed e)), H.
    + intros []. eapply triple_weaken; [exact Hsave| | |]; auto.
Qed.


Lemma after_create_loose pid : loose (after_create body st0 pid).
Proof.
  intros st st' (E1 & E2 & E3 & E4 & E5 & E6) (Hu & Hp & Hn & Hs).
  unfold after_create. rewrite E6, E4, E2. auto.
Qed.

Lemma fresh_problem_None st : db_problems st !! fresh_problem st = None.
Proof.
  apply not_elem_of_dom. unfold fresh_problem.
  pose proof (is_fresh (dom (db_problems st) ∪ dom (problems st))). set_solver.
Qed.

Lemma fresh_solution_None st : db_solutions st !! fresh_solution st = None.
Proof.
  apply not_elem_of_dom. unfold fresh_solution.
  pose proof (is_fresh (dom (db_solutions st) ∪ dom (solutions st))). set_solver.
Qed.

(** What the handler's reply stands for, in every world. *)
Lemma post_problem_spec :
  triple (λ st, st = st0) (post_problem W body)
    (λ r st', reply_spec W body st0 r st') (λ _ _, False).
Proof.
  unfold post_problem.
  apply (triple_try_catch _ _ _ (λ e st, store_refusal W e ∧ once st0 st)).
  2:{ intros e. apply triple_ret. intros st H. exact H. }
  destruct (negb (truthy (b_title body)) || negb (truthy (b_description body))
            || negb (truthy (b_category body))) eqn:Hvalid.
  { apply triple_ret. intros st ->. split; [|reflexivity].
    intros (Ht & Hd & Hc). rewrite Ht, Hd, Hc in Hvalid. discriminate. }
  apply (triple_bind _ _ (λ s st, st = s ∧ st = st0)); [apply triple_get_state|].
  intros s.
  apply (triple_bind _ _ (after_create body st0)).
  { apply triple_create_problem.
    - intros st [-> ->] Hs. unfold after_create. data.
      rewrite lookup_insert_eq. split; [reflexivity|]. split; [reflexivity|].
      split; [apply fresh_problem_None|reflexivity].
    - intros st e [-> ->] Hs. split; [eexists; exact Hs|left; reflexivity]. }
  intros pid.
  assert (HA1 : ∀ st, after_create body st0 pid st → interrupted st0 pid st).
  { intros st (Hu & Hp & Hn & _). split; [left; exact Hu|].
    split; [|exact Hn]. exists pdoc0. auto. }
  assert (Hstage : ∀ sid ai user held ran st,
            user = u0 ∨ user = countQuery u0 → p_user held = uid →
            at_stage st0 pid sid ai user held ran st → interrupted st0 pid st).
  { intros sid ai user held ran st Huser Hheld (Hu & Hp & Hn & _).
    split; [unfold once; rewrite Hu; exact Huser|]. split; [eauto|exact Hn]. }
  apply (triple_try_catch _ _ _ (λ _, interrupted st0 pid)).
  - apply (triple_bind _ _ (λ _, after_create body st0 pid)).
    { eapply triple_weaken.
      - apply (triple_framed (after_create body st0 pid)); [|apply after_create_loose].
        intros st. apply generateSolution_framed.
      - auto.
      - auto.
      - intros e st H. apply HA1, H. }
    intros ai.
    set (ran := truthy (Some (snippet (ai_code ai))) && truthy (b_language body)).
    apply (triple_bind _ _
             (λ sid st, at_stage st0 pid sid ai u0 pdoc0 (Some false) st
                        ∧ inmem pid sid ai false st)).
    { apply triple_create_solution.
      - intros st (Hu & Hp & Hn & Hs) _. split.
        + unfold at_stage, stored. data.
          split; [exact Hu|]. split; [exact Hp|]. split; [exact Hn|].
          split; [rewrite <- Hs; apply fresh_solution_None|].
          eexists. rewrite lookup_insert_eq. split; [reflexivity|].
          cbn. split; [reflexivity|]. split; [reflexivity|].
          split; [intros [x Hx]; discriminate|discriminate].
        + eexists. data. rewrite lookup_insert_eq. split; [reflexivity|].
          cbn. split; [reflexivity|]. split; [reflexivity|discriminate].
      - intros st e H _. apply HA1. eapply after_create_loose; [apply same_data_tick|exact H]. }
    intros sid.
    apply (triple_bind _ _ (λ _, at_stage st0 pid sid ai u0 pdoc0 (Some ran))).
    { fold ran. destruct ran.
      - apply triple_run_block.
      - apply triple_ret. intros st [H _]. exact H. }
    intros _.
    apply (triple_bind _ _
             (λ _, at_stage st0 pid sid ai u0 (set_solved sid pdoc0) (Some ran))).
    { apply triple_modify. intros st (Hu & Hp & Hn1 & Hn2 & Hs).
      unfold at_stage. data. rewrite lookup_alter_eq, Hp. auto. }
    intros _.
    apply (triple_bind _ _
             (λ _ st, at_stage st0 pid sid ai u0 (set_solved sid pdoc0) (Some ran) st
                      ∧ db_problems st !! pid = Some (set_solved sid pdoc0))).
    { apply triple_store_op.
      - intros st (Hu & Hp & Hn1 & Hn2 & Hs) _. data. rewrite Hp.
        unfold at_stage, stored. data. rewrite lookup_insert_eq. auto 10.
      - intros st e H _. eapply (Hstage sid ai u0 (set_solved sid pdoc0)); [left; reflexivity|reflexivity|].
        eapply at_stage_loose; [apply same_data_tick|exact H]. }
    intros _.
    apply (triple_bind _ _
             (λ _ st, at_stage st0 pid sid ai (countQuery u0) (set_solved sid pdoc0)
                        (Some ran) st
                      ∧ db_problems st !! pid = Some (set_solved sid pdoc0)
                      ∧ db_users st !! uid = Some (countQuery u0))).
    { apply triple_increment.
      - intros st ((Hu & Hp & Hn1 & Hn2 & Hs) & Hdb) _.
        unfold at_stage, stored. data. rewrite Hu.
        rewrite lookup_insert_eq. auto 10.
      - intros st e ((Hu & Hp & Hn1 & Hn2 & Hs) & Hdb) _.
        split; [right; data; rewrite Hu; reflexivity|].
        split; [|exact Hn1]. data. eauto. }
    intros _.
    apply (triple_bind _ _ (λ populated st, created_facts body st0 st populated)).
    { apply triple_findById.
      - intros st ((Hu & Hp & Hn1 & Hn2 & sdoc & Hs & Hpid & Hcode & Hran)
                   & Hdb & Husers) _.
        rewrite Hdb. cbn [p_solution set_solved mbind option_bind]. rewrite Hs.
        exists pid, sid, sdoc. cbv zeta. data.
        split; [reflexivity|]. split; [exact Hn1|]. split; [exact Hdb|].
        split; [exact Hn2|]. split; [exact Hs|]. split; [exact Hpid|].
        split; [rewrite Hcode; exact Hran|]. split; [exact Hu|exact Husers].
      - intros st e [H _] _.
        eapply (Hstage sid ai (countQuery u0) (set_solved sid pdoc0)); [right; reflexivity|reflexivity|].
        eapply at_stage_loose; [apply same_data_tick|exact H]. }
    intros populated. apply triple_ret. intros st H. exact H.
  - intros aiError.
    apply (triple_bind _ _
             (λ _ st, once st0 st ∧ db_problems st0 !! pid = None
                      ∧ ∃ d, problems st !! pid = Some d ∧ p_user d = uid
                             ∧ p_status d = failed)).
    { apply triple_modify. intros st (Ho & (d & Hd & Hu) & Hn).
      split; [exact Ho|]. split; [exact Hn|]. exists (set_failed d). data.
      rewrite lookup_alter_eq, Hd. auto. }
    intros _.
    apply (triple_bind _ _
             (λ _ st, once st0 st ∧ db_problems st0 !! pid = None
                      ∧ ∃ d, problems st !! pid = Some d ∧ p_user d = uid
                             ∧ p_status d = failed
                             ∧ db_problems st !! pid = Some d)).
    { apply triple_store_op.
      - intros st (Ho & Hn & d & Hd & Hu & Hf) _. data. rewrite Hd. data.
        split; [exact Ho|]. split; [exact Hn|]. exists d.
        rewrite lookup_insert_eq. auto.
      - intros st e (Ho & _) Hs. split; [eexists; exact Hs|exact Ho]. }
    intros _.
    apply (triple_bind _ _
             (λ s' st, st = s' ∧ once st0 st ∧ db_problems st0 !! pid = None
                      ∧ ∃ d, problems st !! pid = Some d ∧ p_user d = uid
                             ∧ p_status d = failed
                             ∧ db_problems st !! pid = Some d));
      [apply triple_get_state|].
    intros s'. apply triple_ret.
    intros st (-> & Ho & Hn & d & Hd & Hu & Hf & Hdb).
    exists pid, d. rewrite Hd. auto 10.
Qed.

End Spec.


Lemma finishes_executeCode code language input :
  finishes (executeCode W code language input).
Proof.
  intros st.
  destruct (executeCode_shape W code language input st) as (r & es & n & -> & Hr & _).
  exact Hr.
Qed.

Lemma finishes_post_problem body : finishes (post_problem W body).
Proof.
  unfold post_problem.
  apply finishes_try_catch; [|intros; apply finishes_ret].
  destruct (_ || _); [apply finishes_ret|].
  apply finishes_bind; [apply finishes_get_state|]. intros st.
  apply finishes_bind.
  { unfold Problem_create. apply finishes_bind; [apply finishes_get_state|].
    intros s. apply finishes_bind; [apply finishes_store_op|].
    intros; apply finishes_ret. }
  intros problem. apply finishes_try_catch.
  - apply finishes_bind; [apply finishes_generateSolution|]. intros ai.
    apply finishes_bind.
    { unfold Solution_create. apply finishes_bind; [apply finishes_get_state|].
      intros s. apply finishes_bind; [apply finishes_store_op|].
      intros; apply finishes_ret. }
    intros solution. apply finishes_bind.
    { destruct (_ && _); [|apply finishes_ret].
      apply finishes_try_catch.
      - apply finishes_bind; [apply finishes_executeCode|]. intros r.
        apply finishes_bind; [apply finishes_modify|]. intros _.
        apply finishes_store_op.
      - intros e. apply finishes_bind; [apply finishes_modify|]. intros _.
        apply finishes_store_op. }
    intros _. apply finishes_bind; [apply finishes_modify|]. intros _.
    apply finishes_bind; [apply finishes_store_op|]. intros _.
    apply finishes_bind.
    { unfold req_user_incrementQueryCount.
      apply finishes_bind; [apply finishes_modify|]. intros _.
      apply finishes_bind; [apply finishes_get_state|]. intros s.
      apply finishes_store_op. }
    intros _. apply finishes_bind.
    { unfold Problem_findById. apply finishes_bind; [apply finishes_store_op|].
      intros _. apply finishes_bind; [apply finishes_get_state|].
      intros; apply finishes_ret. }
    intros; apply finishes_ret.
  - intros e. apply finishes_bind; [apply finishes_modify|]. intros _.
    apply finishes_bind; [apply finishes_store_op|]. intros _.
    apply finishes_bind; [apply finishes_get_state|].
    intros; apply finishes_ret.
Qed.

(** The handler always replies, and its reply stands for what
    [reply_spec] says. *)
Lemma post_problem_reply body st :
  ∃ r st', post_problem W body st = (Returns r, st') ∧ reply_spec W body st r st'.
Proof.
  pose proof (post_problem_spec body st st eq_refl) as Hspec.
  pose proof (finishes_post_problem body st) as Hfin.
  destruct (post_problem W body st) as [[r|e|] st']; cbn [fst] in *;
    [eauto|destruct Hspec|congruence].
Qed.

Lemma reply_once body st r st' : reply_spec W body st r st' → once st st'.
Proof.
  destruct r as [? ? ?| |populated|e doc|e]; cbn [reply_spec].
  - intros [].
  - intros [_ ->]. left. reflexivity.
  - intros (pid & sid & sdoc & H). cbv zeta in H. right. apply H.
  - intros (pid & d & H). apply H.
  - intros [_ H]. exact H.
Qed.

(** X17. In every world, a 201 reply of the handler stands for a new
    problem stored with status [solved] and a reference to a new stored
    solution that refers back to it; that solution has an execution
    result exactly when it has a snippet and the request named a
    language; and the request was counted, in the user object and in the
    stored user. *)
Theorem created_reply body st populated st' :
  post_problem W body st = (Returns (Created populated), st') →
  ∃ pid sid sdoc,
    let pdoc := set_solved sid (new_problem (_id (req_user st)) body) in
    populated = Some (pdoc, Some sdoc)
    ∧ db_problems st !! pid = None
    ∧ db_problems st' !! pid = Some pdoc
    ∧ db_solutions st !! sid = None
    ∧ db_solutions st' !! sid = Some sdoc
    ∧ s_problem sdoc = pid
    ∧ (is_Some (executionResult sdoc)
       ↔ truthy (Some (snippet (s_code sdoc))) && truthy (b_language body)
         = true)
    ∧ req_user st' = countQuery (req_user st)
    ∧ db_users st' !! _id (req_user st) = Some (countQuery (req_user st)).
Proof.
  intros Hrun. destruct (post_problem_reply body st) as (r & st1 & Hr & Hspec).
  rewrite Hrun in Hr. injection Hr as <- <-. exact Hspec.
Qed.

(** X18. In every world, the reply "Failed to generate solution" of the
    handler comes with a new problem of the requester that is stored
    with status [failed]; the request was counted at most once. *)
Theorem generation_failed_reply body st message doc st' :
  post_problem W body st = (Returns (GenerationFailed message doc), st') →
  ∃ pid d,
    doc = Some d
    ∧ p_status d = failed
    ∧ p_user d = _id (req_user st)
    ∧ db_problems st !! pid = None
    ∧ db_problems st' !! pid = Some d
    ∧ (req_user st' = req_user st ∨ req_user st' = countQuery (req_user st)).
Proof.
  intros Hrun. destruct (post_problem_reply body st) as (r & st1 & Hr & Hspec).
  rewrite Hrun in Hr. injection Hr as <- <-. exact Hspec.
Qed.

(** X19. In every world, the reply "Error creating problem" of the
    handler carries a message the document store refused an operation
    with: no failure of the provider or of the sandbox ends there. *)
Theorem create_failed_reply body st message st' :
  post_problem W body st = (Returns (CreateFailed message), st') →
  (∃ n, store_error W n = Some message)
  ∧ (req_user st' = req_user st ∨ req_user st' = countQuery (req_user st)).
Proof.
  intros Hrun. destruct (post_problem_reply body st) as (r & st1 & Hr & Hspec).
  rewrite Hrun in Hr. injection Hr as <- <-. exact Hspec.
Qed.

Lemma checkQueryLimit_run st :
  checkQueryLimit W st
  = (Returns (if fst (canMakeQuery (now W) (req_user st)) then None
              else Some (TooManyRequests
                           (monthlyQueries (apiUsage (resetMonthlyQueries (now W) (req_user st))))
                           (queryLimit (subscription (resetMonthlyQueries (now W) (req_user st))))
                           (plan (subscription (resetMonthlyQueries (now W) (req_user st)))))),
     with_req_user (λ _, resetMonthlyQueries (now W) (req_user st)) st).
Proof.
  unfold checkQueryLimit. erewrite bind_returns by reflexivity.
  unfold canMakeQuery. cbn [fst].
  erewrite bind_returns by reflexivity.
  destruct (_ <? _)%Z; reflexivity.
Qed.


(** X16. A request answered with 429 or 400 leaves no trace: nothing is
    stored, asked of a provider or run; only the window reset of the
    gate stays on the user object in memory. *)
Theorem rejection_leaves_store body st r st' :
  solve W body st = (Returns r, st') →
  statusCode r = 429%Z ∨ statusCode r = 400%Z →
  st' = with_req_user (λ _, resetMonthlyQueries (now W) (req_user st)) st.
Proof.
  unfold solve. erewrite bind_returns by apply checkQueryLimit_run.
  destruct (fst (canMakeQuery (now W) (req_user st))) eqn:Hgate.
  - set (st1 := with_req_user _ st). intros Hrun Hcode.
    destruct (post_problem_reply body st1) as (r1 & st1' & Hr & Hspec).
    rewrite Hrun in Hr. injection Hr as <- <-.
    destruct r as [? ? ?| |populated|e doc|e]; cbn [reply_spec statusCode] in *.
    + destruct Hspec.
    + apply Hspec.
    + destruct Hcode; discriminate.
    + destruct Hcode; discriminate.
    + destruct Hcode; discriminate.
  - intros [= <- <-] _. reflexivity.
Qed.

(** X20. In every world and whatever a request ends in, it leaves
    the user object as the window reset of the gate left it, or counted
    once on top of that, and it is counted only when the gate found the
    window counter strictly below the limit; the limit and the plan
    never change. *)
Theorem solve_counts_once body st :
  let u := resetMonthlyQueries (now W) (req_user st) in
  let u' := req_user (snd (solve W body st)) in
  (u' = u
   ∨ (monthlyQueries (apiUsage u) < queryLimit (subscription u))%Z
     ∧ u' = countQuery u)
  ∧ subscription u' = subscription (req_user st).
Proof.
  intros u u'. subst u'.
  unfold solve. erewrite bind_returns by apply checkQueryLimit_run.
  assert (Hsub : subscription u = subscription (req_user st))
    by apply reset_keeps.
  destruct (fst (canMakeQuery (now W) (req_user st))) eqn:Hgate.
  - set (st1 := with_req_user _ st).
    destruct (post_problem_reply body st1) as (r & st' & Hr & Hspec).
    rewrite Hr. cbn [snd]. apply reply_once in Hspec.
    unfold canMakeQuery in Hgate. cbn [fst] in Hgate. fold u in Hgate.
    apply Z.ltb_lt in Hgate.
    destruct Hspec as [->| ->]; subst st1; cbn [req_user with_req_user];
      fold u; rewrite <- Hsub; split; auto.
  - cbn [snd req_user with_req_user]. fold u. rewrite <- Hsub. auto.
Qed.

End Replies.

(** ** What a request leaves alone *)

Section Isolation.
Variable W : World.
Variable before_p : gmap nat ProblemDoc.
Variable before_s : gmap nat SolutionDoc.
Variable before_u : gmap nat User.
Variable uid : nat.

Local Abbreviation I := (untouched before_p before_s before_u uid).

Lemma untouched_loose : loose I.
Proof.
  intros st st' (E1 & E2 & E3 & E4 & E5 & E6) H. unfold untouched.
  rewrite E1, E2, E3, E4, E5, E6. exact H.
Qed.

Lemma keeps_framed {A} (m : M A) :
  (∀ st, framed st (snd (m st))) → keeps I (λ _, True) m.
Proof.
  intros Hm st Hst. split; [|auto].
  eapply untouched_loose; [apply same_data_framed, Hm|exact Hst].
Qed.

Lemma untouched_tick st : I st → I (tick st).
Proof. apply untouched_loose, same_data_tick. Qed.

Lemma untouched_observed e st : I st → I (observed [e] 0 st).
Proof. apply untouched_loose, same_data_observed. Qed.

Lemma untouched_fresh_problem s :
  I s → before_p !! fresh (dom (db_problems s) ∪ dom (problems s)) = None.
Proof.
  intros (Hp & _).
  destruct (before_p !! fresh (dom (db_problems s) ∪ dom (problems s)))
    as [doc|] eqn:E; [|reflexivity].
  destruct (Hp _ _ E) as [Hdb _]. exfalso.
  apply (is_fresh (dom (db_problems s) ∪ dom (problems s))).
  apply elem_of_union_l, elem_of_dom. eauto.
Qed.

Lemma untouched_fresh_solution s :
  I s → before_s !! fresh (dom (db_solutions s) ∪ dom (solutions s)) = None.
Proof.
  intros (_ & Hs & _).
  destruct (before_s !! fresh (dom (db_solutions s) ∪ dom (solutions s)))
    as [doc|] eqn:E; [|reflexivity].
  destruct (Hs _ _ E) as [Hdb _]. exfalso.
  apply (is_fresh (dom (db_solutions s) ∪ dom (solutions s))).
  apply elem_of_union_l, elem_of_dom. eauto.
Qed.

Lemma untouched_Problem_create doc : keeps I (λ _, True) (Problem_create W doc).
Proof.
  unfold Problem_create.
  eapply keeps_bind; [apply keeps_get_state|]. intros s Hs.
  eapply keeps_bind; [|intros; apply keeps_ret; exact Logic.I].
  apply keeps_store_op.
  - apply untouched_tick.
  - intros st (Hp & Hrest). split; [|exact Hrest].
    intros id d Hd. cbn [db_problems problems with_problems with_db_problems].
    assert (id ≠ fresh (dom (db_problems s) ∪ dom (problems s)))
      by (intros ->; rewrite (untouched_fresh_problem s Hs) in Hd; discriminate).
    rewrite !lookup_insert_ne by auto. apply Hp, Hd.
  - intros st. apply untouched_observed.
Qed.

Lemma untouched_Solution_create doc : keeps I (λ _, True) (Solution_create W doc).
Proof.
  unfold Solution_create.
  eapply keeps_bind; [apply keeps_get_state|]. intros s Hs.
  eapply keeps_bind; [|intros; apply keeps_ret; exact Logic.I].
  apply keeps_store_op.
  - apply untouched_tick.
  - intros st (Hp & Hsol & Hrest). split; [exact Hp|]. split; [|exact Hrest].
    intros id d Hd. cbn [db_solutions solutions with_solutions with_db_solutions].
    assert (id ≠ fresh (dom (db_solutions s) ∪ dom (solutions s)))
      by (intros ->; rewrite (untouched_fresh_solution s Hs) in Hd; discriminate).
    rewrite !lookup_insert_ne by auto. apply Hsol, Hd.
  - intros st. apply untouched_observed.
Qed.

Lemma untouched_Problem_save id : keeps I (λ _, True) (Problem_save W id).
Proof.
  apply keeps_store_op.
  - apply untouched_tick.
  - intros st H. destruct (problems st !! id) as [doc|] eqn:E; [|exact H].
    destruct H as (Hp & Hrest). split; [|exact Hrest].
    intros id' d Hd. cbn [db_problems problems with_db_problems].
    destruct (Hp _ _ Hd) as [Hdb Hmem].
    assert (id' ≠ id) by congruence.
    rewrite lookup_insert_ne by auto. auto.
  - intros st. apply untouched_observed.
Qed.

Lemma untouched_Solution_save id : keeps I (λ _, True) (Solution_save W id).
Proof.
  apply keeps_store_op.
  - apply untouched_tick.
  - intros st H. destruct (solutions st !! id) as [doc|] eqn:E; [|exact H].
    destruct H as (Hp & Hs & Hrest). split; [exact Hp|]. split; [|exact Hrest].
    intros id' d Hd. cbn [db_solutions solutions with_db_solutions].
    destruct (Hs _ _ Hd) as [Hdb Hmem].
    assert (id' ≠ id) by congruence.
    rewrite lookup_insert_ne by auto. auto.
  - intros st. apply untouched_observed.
Qed.

Lemma untouched_alter_problem f id st :
  I st → I (with_problems (alter f id) st).
Proof.
  intros (Hp & Hrest). split; [|exact Hrest].
  intros id' d Hd. cbn [db_problems problems with_problems].
  destruct (Hp _ _ Hd) as [Hdb Hmem]. split; [exact Hdb|].
  destruct (decide (id' = id)) as [->|Hne].
  - rewrite lookup_alter_eq, Hmem. reflexivity.
  - rewrite lookup_alter_ne by auto. exact Hmem.
Qed.

Lemma untouched_alter_solution f id st :
  I st → I (with_solutions (alter f id) st).
Proof.
  intros (Hp & Hs & Hrest). split; [exact Hp|]. split; [|exact Hrest].
  intros id' d Hd. cbn [db_solutions solutions with_solutions].
  destruct (Hs _ _ Hd) as [Hdb Hmem]. split; [exact Hdb|].
  destruct (decide (id' = id)) as [->|Hne].
  - rewrite lookup_alter_eq, Hmem. reflexivity.
  - rewrite lookup_alter_ne by auto. exact Hmem.
Qed.

Lemma untouched_incrementQueryCount :
  keeps I (λ _, True) (req_user_incrementQueryCount W).
Proof.
  unfold req_user_incrementQueryCount.
  apply (keeps_bind _ (λ _, True)).
  { apply keeps_modify. intros st (Hp & Hs & Hu & Hid).
    split; [exact Hp|]. split; [exact Hs|]. split; [exact Hu|exact Hid]. }
  intros _ _. eapply keeps_bind; [apply keeps_get_state|]. intros s Hs.
  apply keeps_store_op.
  - apply untouched_tick.
  - intros st (Hp & Hsol & Hu & Hid). split; [exact Hp|]. split; [exact Hsol|].
    split; [|exact Hid]. intros id Hne. cbn [db_users with_db_users].
    cbn [req_user]. rewrite Hid.
    rewrite lookup_insert_ne by auto. apply Hu, Hne.
  - intros st. apply untouched_observed.
Qed.

Lemma untouched_findById id : keeps I (λ _, True) (Problem_findById W id).
Proof.
  unfold Problem_findById.
  eapply keeps_bind.
  { apply keeps_store_op; [apply untouched_tick|auto|].
    intros st. apply untouched_observed. }
  intros _ _. eapply keeps_bind; [apply keeps_get_state|].
  intros st _. apply keeps_ret. exact Logic.I.
Qed.

Lemma untouched_post_problem body : keeps I (λ _, True) (post_problem W body).
Proof.
  unfold post_problem.
  apply keeps_try_catch; [|intros e; apply keeps_ret; exact Logic.I].
  destruct (_ || _); [apply keeps_ret; exact Logic.I|].
  eapply keeps_bind; [apply keeps_get_state|]. intros st _.
  eapply keeps_bind; [apply untouched_Problem_create|]. intros problem _.
  apply keeps_try_catch.
  - eapply keeps_bind.
    { apply keeps_framed. intros s. apply generateSolution_framed. }
    intros aiResult _.
    eapply keeps_bind; [apply untouched_Solution_create|].
    intros solution _.
    apply (keeps_bind _ (λ _, True)).
    { destruct (_ && _); [|apply keeps_ret; exact Logic.I].
      apply keeps_try_catch.
      - eapply keeps_bind.
        { apply keeps_framed. intros s. apply executeCode_framed. }
        intros r _.
        eapply keeps_bind; [|intros; apply untouched_Solution_save].
        apply keeps_modify. intros st'. apply untouched_alter_solution.
      - intros e.
        eapply keeps_bind; [|intros; apply untouched_Solution_save].
        apply keeps_modify. intros st'. apply untouched_alter_solution. }
    intros _ _. eapply keeps_bind.
    { apply keeps_modify. intros st'. apply untouched_alter_problem. }
    intros _ _. eapply keeps_bind; [apply untouched_Problem_save|].
    intros _ _. eapply keeps_bind; [apply untouched_incrementQueryCount|].
    intros _ _. eapply keeps_bind; [apply untouched_findById|].
    intros populated _. apply keeps_ret. exact Logic.I.
  - intros aiError. eapply keeps_bind.
    { apply keeps_modify. intros st'. apply untouched_alter_problem. }
    intros _ _. eapply keeps_bind; [apply untouched_Problem_save|].
    intros _ _. eapply keeps_bind; [apply keeps_get_state|].
    intros st' _. apply keeps_ret. exact Logic.I.
Qed.

Lemma untouched_solve body : keeps I (λ _, True) (solve W body).
Proof.
  unfold solve. apply (keeps_bind _ (λ _, True)).
  - unfold checkQueryLimit.
    eapply keeps_bind; [apply keeps_get_state|]. intros st Hst.
    destruct (canMakeQuery (now W) (req_user st)) as [admitted user] eqn:E.
    eapply keeps_bind.
    { apply keeps_modify. intros s (Hp & Hs & Hu & Hid).
      split; [exact Hp|]. split; [exact Hs|]. split; [exact Hu|].
      cbn [req_user with_req_user].
      assert (user = resetMonthlyQueries (now W) (req_user st))
        by (unfold canMakeQuery in E; congruence).
      subst user. destruct Hst as (_ & _ & _ & Hsid). rewrite <- Hsid.
      unfold resetMonthlyQueries. destruct (_ || _); reflexivity. }
    intros _ _. destruct admitted; apply keeps_ret; exact Logic.I.
  - intros [r|] _; [apply keeps_ret; exact Logic.I|apply untouched_post_problem].
Qed.

End Isolation.

Section IsolationTheorem.
Variable W : World.

(** X21. In every world, whatever a request ends in, every problem and
    every solution stored before it is still stored as it was, and no
    other user's record has changed. *)
Theorem solve_isolation body db_problems db_solutions db_users user :
  let st := initial_state db_problems db_solutions db_users user in
  let st' := snd (solve W body st) in
  (∀ id doc, db_problems !! id = Some doc →
     Model.db_problems st' !! id = Some doc)
  ∧ (∀ id doc, db_solutions !! id = Some doc →
       Model.db_solutions st' !! id = Some doc)
  ∧ (∀ id, id ≠ _id user → Model.db_users st' !! id = db_users !! id).
Proof.
  intros st st'.
  assert (Hinit : untouched db_problems db_solutions db_users (_id user) st).
  { split; [|split; [|split; [auto|reflexivity]]]; intros id doc H;
      (split; [exact H|apply lookup_empty]). }
  destruct (untouched_solve W _ _ _ _ body st Hinit) as [(Hp & Hs & Hu & _) _].
  split; [|split; [|exact Hu]]; intros id doc H; [apply (Hp _ _ H)|apply (Hs _ _ H)].
Qed.

End IsolationTheorem.

(** ** The tables of the execution client *)

Section Tables.

Lemma languageIds_lookup key id :
  languageIds !! key = Some id → key ∈ getSupportedLanguages ∧ id ≠ 0%Z.
Proof.
  unfold languageIds. intros H. apply elem_of_list_to_map_2 in H.
  repeat (apply elem_of_cons in H as [[= -> ->]|H];
          [split; [unfold getSupportedLanguages; set_solver|discriminate]|]).
  apply elem_of_nil in H. destruct H.
Qed.

Lemma languageIds_listed key :
  key ∈ getSupportedLanguages → is_Some (languageIds !! key).
Proof.
  unfold getSupportedLanguages. intros H.
  repeat (apply elem_of_cons in H as [->|H]; [vm_compute; eauto|]).
  apply elem_of_nil in H. destruct H.
Qed.

(** X5. A name passes the language guard of [executeCode] exactly when
    [getSupportedLanguages] lists it or it is one of the names every
    object inherits. *)
Theorem language_guard key :
  not_languageId (languageIds_get key) = false
  ↔ key ∈ getSupportedLanguages ∨ key ∈ prototype_names.
Proof.
  unfold languageIds_get.
  destruct (languageIds !! key) as [id|] eqn:E.
  - destruct (languageIds_lookup _ _ E) as [Hin Hid]. cbn [not_languageId].
    split; [auto|]. intros _. apply Z.eqb_neq, Hid.
  - destruct (bool_decide (key ∈ prototype_names)) eqn:Hp; cbn [not_languageId].
    + apply bool_decide_eq_true in Hp. split; auto.
    + apply bool_decide_eq_false in Hp. split; [discriminate|].
      intros [Hin|Hin]; [|contradiction].
      destruct (languageIds_listed _ Hin) as [x Hx]. congruence.
Qed.

Lemma statusMap_lookup (id : Z) label :
  statusMap !! id = Some label → (1 ≤ id ≤ 14)%Z.
Proof.
  unfold statusMap. intros H. apply elem_of_list_to_map_2 in H.
  repeat (apply elem_of_cons in H as [[= -> ->]|H]; [lia|]).
  apply elem_of_nil in H. destruct H.
Qed.

(** X6. The label [formatResult] gives is never empty; it is "Unknown"
    exactly for a status outside 1..14, "Accepted" exactly for 3, and
    one of "In Queue" and "Processing" exactly for 1 and 2. *)
Theorem formatResult_label rawResult :
  let label := status (formatResult rawResult) in
  label ≠ []
  ∧ (label = js "Unknown" ↔ ¬ (1 ≤ status_id rawResult ≤ 14)%Z)
  ∧ (label = js "Accepted" ↔ status_id rawResult = 3%Z)
  ∧ (label = js "In Queue" ∨ label = js "Processing"
     ↔ status_id rawResult = 1%Z ∨ status_id rawResult = 2%Z).
Proof.
  cbv zeta. unfold formatResult. cbn [status].
  destruct (decide (1 ≤ status_id rawResult ≤ 14)%Z) as [Hin|Hout].
  - assert (Hid : ∃ n, (n < 14)%nat ∧ status_id rawResult = Z.of_nat (S n)).
    { exists (Z.to_nat (status_id rawResult - 1)). lia. }
    destruct Hid as (n & Hn & ->).
    do 14 (destruct n as [|n];
           [vm_compute; repeat split; try discriminate; try tauto;
            try (intros [H|H]; discriminate); try (intros H; exfalso; apply H; split; discriminate);
            auto|]).
    lia.
  - destruct (statusMap !! status_id rawResult) as [label|] eqn:E.
    { apply statusMap_lookup in E. contradiction. }
    cbn [or_else]. split; [discriminate|]. split; [tauto|].
    split; [split; [discriminate|lia]|].
    split; [intros [H|H]; discriminate|lia].
Qed.

End Tables.

(** ** The other routes *)

Section OtherRoutes.
Import Routes.

Variable refuses : nat → option jsstring.
Variable verify : jsstring → jsstring + nat.

Lemma db_bind_returns {A B} (m : DB A) (f : A → DB B) c a c' :
  m c = (Returns a, c') → (m ≫= f) c = f a c'.
Proof. intros H. unfold mbind, DB_bind. rewrite H. reflexivity. Qed.

Lemma db_bind_throws {A B} (m : DB A) (f : A → DB B) c e c' :
  m c = (Throws e, c') → (m ≫= f) c = (Throws e, c').
Proof. intros H. unfold mbind, DB_bind. rewrite H. reflexivity. Qed.

Lemma attempt_returns {A} (m : DB A) h c a c' :
  m c = (Returns a, c') → attempt m h c = (Returns a, c').
Proof. intros H. unfold attempt. rewrite H. reflexivity. Qed.

Lemma attempt_throws {A} (m : DB A) h c e c' :
  m c = (Throws e, c') → attempt m h c = h e c'.
Proof. intros H. unfold attempt. rewrite H. reflexivity. Qed.

Lemma ask_ok {A} (f : Collections → A * Collections) c :
  refuses (c_ops c) = None →
  ask refuses f c = (Returns (fst (f (asked c))), snd (f (asked c))).
Proof. intros H. unfold ask. rewrite H. destruct (f (asked c)). reflexivity. Qed.

Lemma ask_refused {A} (f : Collections → A * Collections) c message :
  refuses (c_ops c) = Some message →
  ask refuses f c = (Throws message, asked c).
Proof. intros H. unfold ask. rewrite H. reflexivity. Qed.

Lemma same_collections_refl c : same_collections c c.
Proof. repeat split. Qed.

Lemma same_collections_asked c : same_collections c (asked c).
Proof. repeat split. Qed.

Lemma same_collections_trans c1 c2 c3 :
  same_collections c1 c2 → same_collections c2 c3 → same_collections c1 c3.
Proof. intros (A1 & A2 & A3) (B1 & B2 & B3). repeat split; congruence. Qed.

(** A query leaves the collections as they are, whether it is answered
    or refused. *)
Lemma ask_query {A} (g : Collections → A) c :
  same_collections c (snd (ask refuses (λ c, (g c, c)) c))
  ∧ (fst (ask refuses (λ c, (g c, c)) c) = Returns (g (asked c))
     ∨ ∃ e, fst (ask refuses (λ c, (g c, c)) c) = Throws e).
Proof.
  unfold ask. destruct (refuses (c_ops c)) as [e|]; cbn [fst snd].
  - split; [apply same_collections_asked|eauto].
  - split; [apply same_collections_asked|auto].
Qed.

Lemma find_problem_run id c :
  find_problem refuses id c
  = match refuses (c_ops c) with
    | Some e => (Throws e, asked c)
    | None => (Returns (c_problems c !! id), asked c)
    end.
Proof. unfold find_problem, ask. destruct (refuses (c_ops c)); reflexivity. Qed.

Lemma find_problem_populated_run id c :
  find_problem_populated refuses id c
  = match refuses (c_ops c) with
    | Some e => (Throws e, asked c)
    | None =>
        (Returns
           (match c_problems c !! id with
            | Some p =>
                Some (p, p_solution (fields p) ≫= λ sid, c_solutions c !! sid,
                      c_users c !! p_user (fields p))
            | None => None
            end), asked c)
    end.
Proof.
  unfold find_problem_populated, ask. destruct (refuses (c_ops c)); reflexivity.
Qed.

Lemma find_user_run id c :
  find_user refuses id c
  = match refuses (c_ops c) with
    | Some e => (Throws e, asked c)
    | None => (Returns (c_users c !! id), asked c)
    end.
Proof. unfold find_user, ask. destruct (refuses (c_ops c)); reflexivity. Qed.

Ltac run_find :=
  unfold attempt; unfold mbind at 1; unfold DB_bind;
  rewrite ?find_problem_run, ?find_problem_populated_run, ?find_user_run.

(** X22. Whatever the store does, a requester who is not the owner of
    a problem cannot change it: the bookmark route refuses, even an
    admin, and the routes that show and delete it refuse unless the
    requester is an admin; the collections stay as they were. *)
Theorem not_the_owner req id problem c :
  c_problems c !! id = Some problem →
  p_user (fields problem) ≠ r_id req →
  (is_admin req = false →
   refused (fst (get_problem refuses req id c))
   ∧ same_collections c (snd (get_problem refuses req id c))
   ∧ refused (fst (delete_problem refuses req id c))
   ∧ same_collections c (snd (delete_problem refuses req id c)))
  ∧ refused (fst (toggle_bookmark refuses req id c))
  ∧ same_collections c (snd (toggle_bookmark refuses req id c)).
Proof.
  intros Hfound Howner.
  assert (Hne : negb (p_user (fields problem) =? r_id req) = true)
    by (apply negb_true_iff, Nat.eqb_neq, Howner).
  assert (Hrefused : ∀ A code message detail (c' : Collections),
            refused (fst (@mret DB _ (answer A) (Error code message detail) c')))
    by (intros; eexists _, _, _; reflexivity).
  split; [intros Hadmin; split; [|split; [|split]]|split].
  - unfold get_problem. run_find.
    destruct (refuses (c_ops c)) as [e|]; [apply Hrefused|].
    rewrite Hfound. destruct (c_users c !! p_user (fields problem));
      [|apply Hrefused].
    rewrite Hne, Hadmin. apply Hrefused.
  - unfold get_problem. run_find.
    destruct (refuses (c_ops c)) as [e|]; [apply same_collections_asked|].
    rewrite Hfound. destruct (c_users c !! p_user (fields problem));
      [|apply same_collections_asked].
    rewrite Hne, Hadmin. apply same_collections_asked.
  - unfold delete_problem. run_find.
    destruct (refuses (c_ops c)) as [e|]; [apply Hrefused|].
    rewrite Hfound, Hne, Hadmin. apply Hrefused.
  - unfold delete_problem. run_find.
    destruct (refuses (c_ops c)) as [e|]; [apply same_collections_asked|].
    rewrite Hfound, Hne, Hadmin. apply same_collections_asked.
  - unfold toggle_bookmark. run_find.
    destruct (refuses (c_ops c)) as [e|]; [apply Hrefused|].
    rewrite Hfound, Hne. apply Hrefused.
  - unfold toggle_bookmark. run_find.
    destruct (refuses (c_ops c)) as [e|]; [apply same_collections_asked|].
    rewrite Hfound, Hne. apply same_collections_asked.
Qed.


Lemma ask_honest {A} (f : Collections → A * Collections) c :
  honest refuses →
  ask refuses f c = (Returns (fst (f (asked c))), snd (f (asked c))).
Proof. intros H. apply ask_ok, H. Qed.

Lemma delete_with_solution_honest id problem c :
  honest refuses →
  ∃ c',
    delete_with_solution refuses id problem c = (Returns tt, c')
    ∧ c_problems c' = delete id (c_problems c)
    ∧ c_solutions c'
      = match p_solution (fields problem) with
        | Some sid => delete sid (c_solutions c)
        | None => c_solutions c
        end
    ∧ c_users c' = c_users c.
Proof.
  intros H. unfold delete_with_solution, delete_one_problem,
    find_solution_and_delete.
  destruct (p_solution (fields problem)) as [sid|].
  - erewrite db_bind_returns by (apply ask_honest, H).
    rewrite ask_honest by exact H. eexists. split; [reflexivity|].
    repeat split.
  - erewrite db_bind_returns by reflexivity.
    rewrite ask_honest by exact H. eexists. split; [reflexivity|].
    repeat split.
Qed.

(** X23. On a store that refuses nothing, the owner of a problem, or
    an admin, deletes it together with the solution it refers to;
    nothing else is removed or changed. *)
Theorem delete_problem_cascade req id problem c :
  honest refuses →
  c_problems c !! id = Some problem →
  p_user (fields problem) = r_id req ∨ is_admin req = true →
  ∃ c',
    delete_problem refuses req id c
    = (Returns (Ok (js "Problem deleted successfully")), c')
    ∧ c_problems c' = delete id (c_problems c)
    ∧ c_solutions c'
      = match p_solution (fields problem) with
        | Some sid => delete sid (c_solutions c)
        | None => c_solutions c
        end
    ∧ c_users c' = c_users c.
Proof.
  intros H Hfound Hmay.
  assert (Hgate : negb (p_user (fields problem) =? r_id req)
                  && negb (is_admin req) = false).
  { destruct Hmay as [->| ->]; [rewrite Nat.eqb_refl|rewrite andb_false_r];
      reflexivity. }
  destruct (delete_with_solution_honest id problem (asked c) H)
    as (c' & Hrun & Hp & Hs & Hu).
  exists c'. split; [|auto].
  unfold delete_problem. apply attempt_returns.
  erewrite db_bind_returns by (rewrite find_problem_run, H; reflexivity).
  rewrite Hfound, Hgate.
  erewrite db_bind_returns by exact Hrun. reflexivity.
Qed.

(** X24. When the store answers the lookup and the deletion of the
    solution and then refuses the deletion of the problem, the route
    answers 500 and the problem stays stored, referring to a solution
    that no longer exists. *)
Theorem delete_problem_interrupted req id problem sid e c :
  c_problems c !! id = Some problem →
  p_user (fields problem) = r_id req ∨ is_admin req = true →
  p_solution (fields problem) = Some sid →
  refuses (c_ops c) = None →
  refuses (S (c_ops c)) = None →
  refuses (S (S (c_ops c))) = Some e →
  ∃ c',
    delete_problem refuses req id c
    = (Returns (Error 500 (js "Error deleting problem") (Some e)), c')
    ∧ c_problems c' !! id = Some problem
    ∧ c_solutions c' !! sid = None.
Proof.
  intros Hfound Hmay Hsid H0 H1 H2.
  assert (Hgate : negb (p_user (fields problem) =? r_id req)
                  && negb (is_admin req) = false).
  { destruct Hmay as [->| ->]; [rewrite Nat.eqb_refl|rewrite andb_false_r];
      reflexivity. }
  eexists. split.
  - unfold delete_problem. erewrite attempt_throws; [reflexivity|].
    erewrite db_bind_returns by (rewrite find_problem_run, H0; reflexivity).
    rewrite Hfound, Hgate.
    erewrite db_bind_throws; [reflexivity|].
    unfold delete_with_solution. rewrite Hsid.
    erewrite db_bind_returns
      by (unfold find_solution_and_delete; apply ask_ok; exact H1).
    unfold delete_one_problem. apply ask_refused. exact H2.
  - cbn. split; [exact Hfound|apply lookup_delete_eq].
Qed.

Lemma set_bookmarked_twice problem :
  set_bookmarked (negb (bookmarked (set_bookmarked (negb (bookmarked problem)) problem)))
    (set_bookmarked (negb (bookmarked problem)) problem)
  = problem.
Proof. destruct problem as [f v b]. cbn. rewrite negb_involutive. reflexivity. Qed.

(** X25. On a store that refuses nothing, the owner's bookmark request
    stores the problem with the flag inverted, and a second request
    brings the collections back to what they were. *)
Theorem toggle_bookmark_twice req id problem c :
  honest refuses →
  c_problems c !! id = Some problem →
  p_user (fields problem) = r_id req →
  ∃ m1 m2 c1 c2,
    toggle_bookmark refuses req id c
    = (Returns (Ok (m1, set_bookmarked (negb (bookmarked problem)) problem)),
       c1)
    ∧ c_problems c1
      = <[id := set_bookmarked (negb (bookmarked problem)) problem]>
          (c_problems c)
    ∧ toggle_bookmark refuses req id c1 = (Returns (Ok (m2, problem)), c2)
    ∧ same_collections c c2.
Proof.
  intros H Hfound Howner.
  assert (Hstep : ∀ p c0,
            c_problems c0 !! id = Some p → p_user (fields p) = r_id req →
            toggle_bookmark refuses req id c0
            = (Returns (Ok (js "Problem "
                            ++ (if negb (bookmarked p) then js "bookmarked"
                                else js "unbookmarked"),
                            set_bookmarked (negb (bookmarked p)) p)),
               with_c_problems (insert id (set_bookmarked (negb (bookmarked p)) p))
                 (asked (asked c0)))).
  { intros p c0 Hp Ho. unfold toggle_bookmark. apply attempt_returns.
    erewrite db_bind_returns by (rewrite find_problem_run, H; reflexivity).
    rewrite Hp, Ho, Nat.eqb_refl. cbn [negb].
    erewrite db_bind_returns by (unfold save_problem; apply ask_honest, H).
    reflexivity. }
  eexists _, _, _, _. split; [apply Hstep; assumption|].
  split; [reflexivity|]. split.
  - rewrite (Hstep (set_bookmarked (negb (bookmarked problem)) problem)).
    + rewrite set_bookmarked_twice. reflexivity.
    + cbn. apply lookup_insert_eq.
    + exact Howner.
  - split; [|split; reflexivity].
    cbn [c_problems c_solutions c_users with_c_problems asked].
    rewrite insert_insert_eq.
    apply insert_id, Hfound.
Qed.

(** On a store that refuses nothing, showing a problem to its owner or
    to an admin adds one to its views and changes nothing else. *)
Lemma get_problem_counts req id problem owner c :
  honest refuses →
  c_problems c !! id = Some problem →
  c_users c !! p_user (fields problem) = Some owner →
  p_user (fields problem) = r_id req ∨ is_admin req = true →
  ∃ c',
    get_problem refuses req id c
    = (Returns (Ok (set_views (views problem + 1) problem,
                    p_solution (fields problem)
                    ≫= λ sid, c_solutions c !! sid)), c')
    ∧ c_problems c'
      = <[id := set_views (views problem + 1) problem]> (c_problems c)
    ∧ c_solutions c' = c_solutions c
    ∧ c_users c' = c_users c.
Proof.
  intros H Hfound Howner Hmay.
  assert (Hgate : negb (p_user (fields problem) =? r_id req)
                  && negb (is_admin req) = false).
  { destruct Hmay as [->| ->]; [rewrite Nat.eqb_refl|rewrite andb_false_r];
      reflexivity. }
  eexists. split.
  - unfold get_problem. apply attempt_returns.
    erewrite db_bind_returns
      by (rewrite find_problem_populated_run, H; reflexivity).
    rewrite Hfound, Howner, Hgate.
    erewrite db_bind_returns by (unfold save_problem; apply ask_honest, H).
    reflexivity.
  - repeat split.
Qed.

(** A problem whose user no longer exists cannot be shown, even to an
    admin: reading [problem.user._id] throws, and the route answers
    500. *)
Lemma get_problem_orphan req id problem c :
  refuses (c_ops c) = None →
  c_problems c !! id = Some problem →
  c_users c !! p_user (fields problem) = None →
  get_problem refuses req id c
  = (Returns (Error 500 (js "Error fetching problem") (Some TypeError_id)),
     asked c).
Proof.
  intros H Hfound Howner. unfold get_problem.
  erewrite attempt_throws; [reflexivity|].
  erewrite db_bind_returns
    by (rewrite find_problem_populated_run, H; reflexivity).
  rewrite Hfound, Howner. reflexivity.
Qed.


Lemma sum_cond_cons s p ps :
  sum_cond s (p :: ps)
  = ((if has_status s p then 1 else 0) + sum_cond s ps)%Z.
Proof. reflexivity. Qed.

Lemma sum_cond_total ps :
  Z.of_nat (length ps)
  = (sum_cond solved ps + sum_cond pending ps + sum_cond failed ps
     + sum_cond Model.processing ps)%Z.
Proof.
  induction ps as [|p ps IH]; [reflexivity|].
  rewrite !sum_cond_cons. cbn [length]. unfold has_status.
  repeat case_bool_decide; destruct (p_status (fields p)); try congruence; lia.
Qed.

Lemma group_by_category_count category ps :
  default 0%Z (group_by_category ps !! category)
  = Z.of_nat (length (filter (λ p, p_category (fields p) = category) ps)).
Proof.
  induction ps as [|p ps IH]; [reflexivity|].
  cbn [group_by_category foldr]. fold (group_by_category ps).
  destruct (decide (p_category (fields p) = category)) as [E|E].
  - rewrite filter_cons_True by exact E. rewrite E, lookup_insert_eq.
    cbn [default from_option id length]. rewrite IH. lia.
  - rewrite filter_cons_False by exact E. rewrite lookup_insert_ne by exact E.
    exact IH.
Qed.

(** X26. On a store that refuses nothing, the summary counts the
    requester's problems, and its total is the sum of the counts for
    [solved], [pending] and [failed] and of the number of problems in
    [processing], which it does not report; the count given for a
    category is the number of the requester's problems in it. *)
Theorem stats_summary_adds_up req c :
  honest refuses →
  ∃ s categories c',
    stats_summary refuses req c = (Returns (Ok (s, categories)), c')
    ∧ same_collections c c'
    ∧ let mine := snd <$> problems_of (r_id req) c in
      sum_total s = Z.of_nat (length mine)
      ∧ sum_total s
        = (sum_solved s + sum_pending s + sum_failed s
           + sum_cond Model.processing mine)%Z
      ∧ ∀ category,
          default 0%Z (categories !! category)
          = Z.of_nat (length (filter (λ p, p_category (fields p) = category)
                                mine)).
Proof.
  intros H. eexists _, _, _. split.
  - unfold stats_summary. apply attempt_returns.
    erewrite db_bind_returns by (unfold aggregate_all; apply ask_honest, H).
    erewrite db_bind_returns
      by (unfold aggregate_by_category; apply ask_honest, H).
    reflexivity.
  - cbn [fst snd]. split; [repeat split|]. cbv zeta.
    change (problems_of (r_id req) (asked c)) with (problems_of (r_id req) c).
    change (problems_of (r_id req) (asked (asked c)))
      with (problems_of (r_id req) c).
    set (mine := snd <$> problems_of (r_id req) c).
    split; [|split].
    + destruct mine; reflexivity.
    + destruct mine as [|p ps] eqn:E; [reflexivity|].
      cbn [group_all sum_total sum_solved sum_pending sum_failed].
      apply sum_cond_total.
    + intros category. apply group_by_category_count.
Qed.

Lemma admin_only_admin {A} req (handler : DB (answer A)) :
  is_admin req = true → admin_only req handler = handler.
Proof.
  unfold is_admin, admin_only, authorize. intros H.
  destruct (role (r_account req)); [discriminate|]. reflexivity.
Qed.

Variable schema : Schema.

(** Assignments change the document only through the setter. *)
Lemma assign_keeps {A} (P : Account → Prop) cast
    (set : A → Account → Account) v doc :
  (∀ a u, P u → P (set a u)) → P (fst doc) → P (fst (assign cast set v doc)).
Proof.
  intros Hset H. unfold assign. destruct (cast v); cbn [fst]; auto.
Qed.

Lemma assign_truthy_keeps {A} (P : Account → Prop) cast
    (set : A → Account → Account) v doc :
  (∀ a u, P u → P (set a u)) → P (fst doc) →
  P (fst (assign_truthy cast set v doc)).
Proof.
  intros Hset H. unfold assign_truthy.
  destruct v as [x|]; [|exact H].
  destruct (truthy_json _); [|exact H]. apply assign_keeps; assumption.
Qed.

Lemma assign_truthy_falsy {A} cast (set : A → Account → Account) v doc :
  truthy_json v = false → assign_truthy cast set v doc = doc.
Proof.
  intros H. unfold assign_truthy. destruct v; [|reflexivity].
  rewrite H. reflexivity.
Qed.

(** What the assignments keep, given what each setter keeps. *)
Lemma apply_update_keeps (P : Account → Prop) body user :
  (truthy_json (u_role body) = true → ∀ r u, P u → P (set_role r u)) →
  (is_Some (u_isActive body) → ∀ b u, P u → P (set_isActive b u)) →
  (truthy_json (u_subscription body ≫= property (js "plan")) = true →
   ∀ p u, P u → P (set_plan p u)) →
  (truthy_json (u_subscription body ≫= property (js "queryLimit")) = true →
   ∀ n u, P u → P (set_queryLimit n u)) →
  P user → P (fst (apply_update schema body user)).
Proof.
  intros Hrole Hactive Hplan Hlimit H. unfold apply_update.
  set (doc1 := assign_truthy _ _ (u_role body) _).
  assert (H1 : P (fst doc1)).
  { subst doc1. destruct (truthy_json (u_role body)) eqn:E.
    - apply assign_truthy_keeps; auto.
    - rewrite assign_truthy_falsy by exact E. exact H. }
  clearbody doc1.
  set (doc2 := match u_isActive body with Some v => _ | None => doc1 end).
  assert (H2 : P (fst doc2)).
  { subst doc2. destruct (u_isActive body) as [v|]; [|exact H1].
    apply assign_keeps; [apply Hactive; eauto|exact H1]. }
  clearbody doc2.
  destruct (u_subscription body) as [subscription|]; [|exact H2].
  cbn [mbind option_bind] in Hplan, Hlimit.
  destruct (truthy_json (Some subscription)); [|exact H2].
  destruct (truthy_json (property (js "queryLimit") subscription)) eqn:El;
    [apply assign_truthy_keeps; [auto|]
    |rewrite assign_truthy_falsy by exact El];
    (destruct (truthy_json (property (js "plan") subscription)) eqn:Ep;
     [apply assign_truthy_keeps; auto
     |rewrite assign_truthy_falsy by exact Ep; exact H2]).
Qed.

(** The role the assignments leave. *)
Lemma apply_update_role body user :
  role (fst (apply_update schema body user))
  = match u_role body with
    | Some v =>
        if truthy_json (Some v)
        then match cast_role schema v with
             | inr r => r
             | inl _ => role user
             end
        else role user
    | None => role user
    end.
Proof.
  unfold apply_update.
  set (doc1 := assign_truthy _ _ (u_role body) _).
  set (r1 := match u_role body with Some v => _ | None => role user end).
  assert (H1 : role (fst doc1) = r1).
  { subst doc1 r1. unfold assign_truthy, assign.
    destruct (u_role body) as [v|]; [|reflexivity].
    destruct (truthy_json (Some v)); [|reflexivity].
    destruct (cast_role schema v); reflexivity. }
  clearbody doc1 r1.
  assert (H2 : role (fst match u_isActive body with
                         | Some v =>
                             assign (cast_isActive schema) set_isActive v doc1
                         | None => doc1
                         end) = r1).
  { destruct (u_isActive body) as [v|]; [|exact H1].
    apply (assign_keeps (λ u, role u = r1)); [intros a u Hu; exact Hu|exact H1]. }
  destruct (u_subscription body) as [subscription|]; [|exact H2].
  destruct (truthy_json (Some subscription)); [|exact H2].
  apply (assign_truthy_keeps (λ u, role u = r1)); [intros a u Hu; exact Hu|].
  apply (assign_truthy_keeps (λ u, role u = r1)); [intros a u Hu; exact Hu|].
  exact H2.
Qed.

(** The run of the update route behind the admin gate, for a stored
    user the guard lets through. *)
Lemma update_user_run req id user body c :
  is_admin req = true →
  c_users c !! id = Some user →
  (id =? r_id req) && is_string (js "user") (u_role body) = false →
  update_user refuses schema req id body c
  = match refuses (c_ops c) with
    | Some e =>
        (Returns (Error 500 (js "Error updating user") (Some e)), asked c)
    | None =>
        match snd (apply_update schema body user) with
        | [] =>
            match refuses (S (c_ops c)) with
            | Some e =>
                (Returns (Error 500 (js "Error updating user") (Some e)),
                 asked (asked c))
            | None =>
                (Returns (Ok (fst (apply_update schema body user))),
                 with_c_users (insert id (fst (apply_update schema body user)))
                   (asked (asked c)))
            end
        | errors =>
            (Returns (Error 500 (js "Error updating user")
                        (Some (validation_failed schema errors))), asked c)
        end
    end.
Proof.
  intros Hadmin Hfound Hguard.
  unfold update_user. rewrite admin_only_admin by exact Hadmin.
  run_find. destruct (refuses (c_ops c)) as [e|]; [reflexivity|].
  cbn [c_users asked]. rewrite Hfound, Hguard.
  unfold mbind, DB_bind, save_assigned.
  destruct (snd (apply_update schema body user)) as [|e errors];
    [|reflexivity].
  unfold save_user, ask. cbn [c_ops asked].
  destruct (refuses (S (c_ops c))); reflexivity.
Qed.

(** The runs that end before the assignments. *)
Lemma update_user_stopped req id body c :
  is_admin req = true →
  match c_users c !! id with
  | Some _ => (id =? r_id req) && is_string (js "user") (u_role body) = true
  | None => True
  end →
  ∃ r, update_user refuses schema req id body c = (r, asked c).
Proof.
  intros Hadmin Hstop.
  unfold update_user. rewrite admin_only_admin by exact Hadmin.
  run_find. destruct (refuses (c_ops c)) as [e|]; [eexists; reflexivity|].
  cbn [c_users asked].
  destruct (c_users c !! id) as [user|]; [|eexists; reflexivity].
  rewrite Hstop. eexists. reflexivity.
Qed.

(** The store after any run of the update route: as it was, or with
    the addressed user replaced by the document the assignments made. *)
Lemma update_user_store req id body c :
  let c' := snd (update_user refuses schema req id body c) in
  c_problems c' = c_problems c
  ∧ c_solutions c' = c_solutions c
  ∧ (c_users c' = c_users c
     ∨ ∃ user,
         c_users c !! id = Some user
         ∧ is_admin req = true
         ∧ (id =? r_id req) && is_string (js "user") (u_role body) = false
         ∧ snd (apply_update schema body user) = []
         ∧ c_users c'
           = <[id := fst (apply_update schema body user)]> (c_users c)).
Proof.
  cbv zeta.
  destruct (is_admin req) eqn:Hadmin.
  2:{ unfold update_user, admin_only, authorize. unfold is_admin in Hadmin.
      destruct (role (r_account req)); [|discriminate]. cbn. auto. }
  destruct (c_users c !! id) as [user|] eqn:Hfound.
  2:{ destruct (update_user_stopped req id body c Hadmin) as [r ->];
        [rewrite Hfound; exact I|]. cbn. auto. }
  destruct ((id =? r_id req) && is_string (js "user") (u_role body))
    eqn:Hguard.
  { destruct (update_user_stopped req id body c Hadmin) as [r ->];
      [rewrite Hfound; exact Hguard|]. cbn. auto. }
  rewrite (update_user_run _ _ _ _ _ Hadmin Hfound Hguard).
  destruct (refuses (c_ops c)); [cbn; auto|].
  destruct (snd (apply_update schema body user)) eqn:Herrors; [|cbn; auto].
  destruct (refuses (S (c_ops c))); [cbn; auto|].
  cbn. split; [reflexivity|]. split; [reflexivity|].
  right. exists user. auto.
Qed.

(** X27. Whatever the body, the schema and the store do, the update
    route touches nothing but the role, the active flag, the plan and
    the limit of the user it addresses: problems, solutions and the other
    users stay as they were, no user is added or removed, and the usage
    counters and the identifier of that user stay as they were.  The
    role, the plan and the limit change only when the body holds a
    truthy value for them (so the number 0 never replaces a limit), and
    the active flag only when the body holds it at all. *)
Theorem update_user_frame req id body c :
  let c' := snd (update_user refuses schema req id body c) in
  c_problems c' = c_problems c
  ∧ c_solutions c' = c_solutions c
  ∧ (∀ other, other ≠ id → c_users c' !! other = c_users c !! other)
  ∧ match c_users c !! id with
    | None => c_users c' !! id = None
    | Some user =>
        ∃ user',
          c_users c' !! id = Some user'
          ∧ apiUsage (account user') = apiUsage (account user)
          ∧ _id (account user') = _id (account user)
          ∧ (truthy_json (u_role body) = false → role user' = role user)
          ∧ (u_isActive body = None →
             isActive (account user') = isActive (account user))
          ∧ (truthy_json (u_subscription body ≫= property (js "plan"))
             = false →
             plan (subscription (account user'))
             = plan (subscription (account user)))
          ∧ (truthy_json (u_subscription body ≫= property (js "queryLimit"))
             = false →
             queryLimit (subscription (account user'))
             = queryLimit (subscription (account user)))
    end.
Proof.
  destruct (update_user_store req id body c) as (Hp & Hs & Hu).
  cbv zeta. split; [exact Hp|]. split; [exact Hs|].
  destruct Hu as [Hu|(user & Hfound & _ & _ & _ & Hu)]; rewrite Hu.
  - split; [reflexivity|].
    destruct (c_users c !! id) as [user|]; [|reflexivity].
    exists user. repeat split; reflexivity.
  - split; [intros other Hne; apply lookup_insert_ne; congruence|].
    rewrite Hfound. eexists. split; [apply lookup_insert_eq|].
    split; [apply (apply_update_keeps
                     (λ u, apiUsage (account u) = apiUsage (account user)));
            intros; cbn; auto|].
    split; [apply (apply_update_keeps
                     (λ u, _id (account u) = _id (account user)));
            intros; cbn; auto|].
    split; [intros Hrole;
            apply (apply_update_keeps (λ u, role u = role user));
            intros; cbn; auto; congruence|].
    split; [intros Hactive;
            apply (apply_update_keeps
                     (λ u, isActive (account u) = isActive (account user)));
            intros; cbn; auto;
            match goal with
            | H : is_Some _ |- _ => rewrite Hactive in H; destruct H; discriminate
            end|].
    split; [intros Hplan;
            apply (apply_update_keeps
                     (λ u, plan (subscription (account u))
                           = plan (subscription (account user))));
            intros; cbn; auto; congruence|].
    intros Hlimit.
    apply (apply_update_keeps
             (λ u, queryLimit (subscription (account u))
                   = queryLimit (subscription (account user))));
      intros; cbn; auto; congruence.
Qed.

(** X28. The guard against demoting oneself stops the string [user]
    and nothing else.  Whatever the store does, the update a stored admin
    makes of their own account leaves them stored, and with the admin
    role unless the role of the body is a truthy value other than that
    string which the schema casts to the role [user]; and on a store that
    refuses nothing, when the schema accepts the other values of the body,
    such a role does take the admin role away. *)
Theorem update_user_self req self body c :
  c_users c !! r_id req = Some self →
  role self = role_admin →
  (∃ self',
     c_users (snd (update_user refuses schema req (r_id req) body c))
       !! r_id req = Some self'
     ∧ (role self' = role_admin
        ∨ ∃ v, u_role body = Some v
               ∧ truthy_json (Some v) = true
               ∧ v ≠ JString (js "user")
               ∧ cast_role schema v = inr role_user
               ∧ role self' = role_user))
  ∧ (honest refuses →
     is_admin req = true →
     ∀ v, u_role body = Some v →
          truthy_json (Some v) = true →
          v ≠ JString (js "user") →
          cast_role schema v = inr role_user →
          snd (apply_update schema body self) = [] →
          ∃ self',
            c_users (snd (update_user refuses schema req (r_id req) body c))
              !! r_id req = Some self'
            ∧ role self' = role_user).
Proof.
  intros Hfound Hrole. split.
  - destruct (update_user_store req (r_id req) body c)
      as (_ & _ & [Hu|(user & Hfound' & _ & Hguard & _ & Hu)]);
      cbv zeta in Hu; rewrite Hu.
    + exists self. auto.
    + rewrite Hfound in Hfound'. injection Hfound' as <-.
      eexists. split; [apply lookup_insert_eq|].
      rewrite apply_update_role.
      rewrite Nat.eqb_refl in Hguard. cbn [andb] in Hguard.
      destruct (u_role body) as [v|] eqn:Ev; [|auto].
      destruct (truthy_json (Some v)) eqn:Et; [|auto].
      destruct (cast_role schema v) as [e|[|]] eqn:Ec; [auto| |auto].
      right. exists v. repeat split; auto.
      intros ->. cbn in Hguard. rewrite bool_decide_eq_true_2 in Hguard
        by reflexivity. discriminate.
  - intros H Hadmin v Ev Et Hne Ec Herrors.
    assert (Hguard : (r_id req =? r_id req)
                     && is_string (js "user") (u_role body) = false).
    { rewrite Nat.eqb_refl, Ev. cbn [andb is_string].
      destruct v; try reflexivity.
      apply bool_decide_eq_false_2. congruence. }
    rewrite (update_user_run _ _ _ _ _ Hadmin Hfound Hguard).
    rewrite !H, Herrors. cbn [snd with_c_users c_users asked].
    eexists. split; [apply lookup_insert_eq|].
    rewrite apply_update_role, Ev, Et, Ec. reflexivity.
Qed.

(** A requester with the role [user] gets 403 from every route of the
    admin router, and nothing is asked of the store. *)
Lemma not_an_admin req id body c :
  role (r_account req) = role_user →
  update_user refuses schema req id body c
  = (Returns (Error 403 (js "User role 'user' is not authorized to access this route") None), c)
  ∧ delete_user refuses req id c
    = (Returns (Error 403 (js "User role 'user' is not authorized to access this route") None), c)
  ∧ admin_delete_problem refuses req id c
    = (Returns (Error 403 (js "User role 'user' is not authorized to access this route") None), c).
Proof.
  intros H. unfold update_user, delete_user, admin_delete_problem, admin_only,
    authorize. rewrite H. repeat split.
Qed.


(** The solutions the problems of a list refer to. *)
Lemma problems_of_spec user c pid p :
  (pid, p) ∈ problems_of user c
  ↔ c_problems c !! pid = Some p ∧ p_user (fields p) = user.
Proof.
  unfold problems_of. rewrite list_elem_of_filter, elem_of_map_to_list.
  cbn [snd]. tauto.
Qed.

Lemma delete_each_honest : ∀ found c,
  honest refuses →
  ∃ c',
    delete_each refuses found c = (Returns tt, c')
    ∧ c_users c' = c_users c
    ∧ (∀ pid, c_problems c' !! pid
              = if decide (pid ∈ found.*1) then None else c_problems c !! pid)
    ∧ (∀ sid, c_solutions c' !! sid
              = if decide (sid ∈ omap (λ e, p_solution (fields (snd e))) found)
                then None else c_solutions c !! sid).
Proof.
  intros found c H. revert c.
  induction found as [|[id problem] found IH]; intros c.
  - exists c. cbn. repeat split.
  - destruct (delete_with_solution_honest id problem c H)
      as (c1 & Hrun & Hp & Hs & Hu).
    destruct (IH c1) as (c2 & Hrun2 & Hu2 & Hp2 & Hs2).
    exists c2. split; [|split; [congruence|split]].
    + cbn [delete_each]. erewrite db_bind_returns by exact Hrun. exact Hrun2.
    + intros pid. rewrite Hp2, Hp. cbn [fmap list_fmap fst].
      destruct (decide (pid = id)) as [->|Hne].
      * rewrite lookup_delete_eq.
        rewrite (decide_True (P := id ∈ id :: _)) by apply list_elem_of_here.
        destruct (decide _); reflexivity.
      * rewrite lookup_delete_ne by auto.
        destruct (decide (pid ∈ found.*1)) as [Hin|Hout].
        -- rewrite decide_True by (apply list_elem_of_further, Hin). reflexivity.
        -- rewrite decide_False; [reflexivity|].
           intros Hin. apply elem_of_cons in Hin as [?|?]; contradiction.
    + intros sid. rewrite Hs2, Hs. cbn [omap list_omap snd].
      fold (omap (λ e : nat * ProblemRecord, p_solution (fields (snd e))) found).
      destruct (p_solution (fields problem)) as [sid0|].
      * destruct (decide (sid = sid0)) as [->|Hne].
        -- rewrite lookup_delete_eq.
           rewrite (decide_True (P := sid0 ∈ sid0 :: _)) by apply list_elem_of_here.
           destruct (decide _); reflexivity.
        -- rewrite lookup_delete_ne by auto.
           destruct (decide (sid ∈ omap _ found)) as [Hin|Hout].
           ++ rewrite decide_True by (apply list_elem_of_further, Hin). reflexivity.
           ++ rewrite decide_False; [reflexivity|].
              intros Hin. apply elem_of_cons in Hin as [?|?]; contradiction.
      * reflexivity.
Qed.

(** X29. On a store that refuses nothing, an admin who deletes another
    user removes that user, every problem of theirs and every solution
    those problems refer to; the problems of every other user stay as
    they were, and no solution changes unless it is removed. *)
Theorem delete_user_cascade req id user c :
  honest refuses →
  is_admin req = true →
  c_users c !! id = Some user →
  id ≠ r_id req →
  ∃ c',
    delete_user refuses req id c
    = (Returns (Ok (js "User deleted successfully")), c')
    ∧ c_users c' = delete id (c_users c)
    ∧ (∀ pid p, c_problems c' !! pid = Some p
                ↔ c_problems c !! pid = Some p ∧ p_user (fields p) ≠ id)
    ∧ (∀ pid p sid, c_problems c !! pid = Some p → p_user (fields p) = id →
                    p_solution (fields p) = Some sid →
                    c_solutions c' !! sid = None)
    ∧ (∀ sid, c_solutions c' !! sid = None
              ∨ c_solutions c' !! sid = c_solutions c !! sid).
Proof.
  intros H Hadmin Hfound Hne.
  destruct (delete_each_honest (problems_of id c) (asked (asked c)) H)
    as (c1 & Hrun & Hu & Hp & Hs).
  eexists. split.
  { unfold delete_user. rewrite admin_only_admin by exact Hadmin.
    apply attempt_returns.
    erewrite db_bind_returns by (rewrite find_user_run, H; reflexivity).
    rewrite Hfound. apply Nat.eqb_neq in Hne. rewrite Hne.
    erewrite db_bind_returns by (unfold find_problems; apply ask_honest, H).
    cbn [fst snd].
    change (problems_of id (asked (asked c))) with (problems_of id c).
    erewrite db_bind_returns by exact Hrun.
    erewrite db_bind_returns by (unfold delete_one_user; apply ask_honest, H).
    reflexivity. }
  cbn [fst snd c_users c_problems c_solutions with_c_users asked].
  split; [rewrite Hu; reflexivity|]. split; [|split].
  - intros pid p. rewrite Hp. cbn [c_problems asked].
    destruct (decide (pid ∈ (problems_of id c).*1)) as [Hin|Hout].
    + apply list_elem_of_fmap in Hin as ([pid' p'] & -> & Hin).
      apply problems_of_spec in Hin as [Hl Ho]. cbn [fst].
      split; [discriminate|]. intros [Hl' Ho']. congruence.
    + split.
      * intros Hl. split; [exact Hl|]. intros Ho. apply Hout.
        apply list_elem_of_fmap. exists (pid, p). split; [reflexivity|].
        apply problems_of_spec. auto.
      * tauto.
  - intros pid p sid Hl Ho Hsol. rewrite Hs.
    rewrite decide_True; [reflexivity|].
    apply list_elem_of_omap. exists (pid, p). split; [|exact Hsol].
    apply problems_of_spec. auto.
  - intros sid. rewrite Hs. destruct (decide _); auto.
Qed.

Lemma find_user_honest id c :
  honest refuses → find_user refuses id c = (Returns (c_users c !! id), asked c).
Proof. intros H. rewrite find_user_run, H. reflexivity. Qed.

(** X30. On a store that refuses nothing, [protect] lets a request
    through, as the stored user, exactly when the second field of a
    header that starts with "Bearer" is a token that verifies to the
    identifier of a stored user who is active. *)
Theorem protect_admits authorization req c c' :
  honest refuses →
  protect refuses verify authorization c = (Returns (Ok req), c')
  ↔ (∃ token,
       bearer_token authorization = Some token ∧ token ≠ []
       ∧ verify token = inr (r_id req)
       ∧ c_users c !! r_id req = Some (r_account req)
       ∧ isActive (account (r_account req)) = true)
    ∧ c' = asked c.
Proof.
  intros H. unfold protect. cbv zeta.
  destruct (bearer_token authorization) as [[|x token]|] eqn:Et;
    cbn [truthy negb default from_option id].
  - split; [discriminate|]. intros [(t & [= <-] & Hn & _) _]. congruence.
  - destruct (verify (x :: token)) as [message|decoded] eqn:Ev.
    + split; [discriminate|].
      intros [(t & [= <-] & _ & Hv & _) _]. congruence.
    + unfold attempt.
      erewrite db_bind_returns by reflexivity.
      erewrite db_bind_returns by (apply find_user_honest, H).
      destruct (c_users c !! decoded) as [user|] eqn:Eu.
      * destruct (isActive (account user)) eqn:Ea; cbn [negb].
        -- split.
           ++ intros [= <- <-]. split; [|reflexivity].
              exists (x :: token). cbn [r_id r_account]. auto 6.
           ++ intros [(t & [= <-] & _ & Hv & Hu & _) ->].
              rewrite Ev in Hv. injection Hv as ->. rewrite Eu in Hu.
              injection Hu as ->. destruct req. reflexivity.
        -- split; [discriminate|].
           intros [(t & [= <-] & _ & Hv & Hu & Hact) _].
           rewrite Ev in Hv. injection Hv as ->. rewrite Eu in Hu.
           injection Hu as ->. congruence.
      * split; [discriminate|].
        intros [(t & [= <-] & _ & Hv & Hu & _) _].
        rewrite Ev in Hv. injection Hv as ->. congruence.
  - split; [discriminate|]. intros [(t & Ht & _) _]. discriminate.
Qed.

End OtherRoutes.

(** ** Further examples *)

Lemma executeCode_first_settled_witness :
  executeCode accepting_world (js "print(1)") (js "python") None empty_store
  = (Returns (formatResult accepted),
     observed (call_events accepting_world (js "print(1)") (js "python") None
                 (js "token") 2) 3 empty_store).
Proof.
  apply (executeCode_first_settled accepting_world (js "print(1)")
           (js "python") None (js "token") 2 accepted empty_store).
  - reflexivity.
  - vm_compute. reflexivity.
  - reflexivity.
  - lia.
  - intros i Hi. exists processing. split; [|cbn; lia].
    destruct i as [|[|i]]; [reflexivity|reflexivity|lia].
  - reflexivity.
  - cbn. lia.
Defined.

Lemma executeCode_request_fails_witness :
  executeCode failing_sandbox_world (js "print(1)") (js "python") None
    empty_store
  = (Throws (js "Code execution failed: Failed to get submission result: "
             ++ js "timeout"),
     observed (call_events failing_sandbox_world (js "print(1)") (js "python")
                 None (js "token") 1) 2 empty_store).
Proof.
  apply (executeCode_request_fails failing_sandbox_world (js "print(1)")
           (js "python") None (js "token") 1 (js "timeout") empty_store).
  - reflexivity.
  - vm_compute. reflexivity.
  - reflexivity.
  - lia.
  - intros i Hi. exists processing. split; [|cbn; lia].
    destruct i as [|i]; [reflexivity|lia].
  - reflexivity.
Defined.

Lemma run_window_witness :
  (0 ≤ monthlyQueries
         (apiUsage (snd (run [IncrementQueryCount (λ _, Throws (js "down"));
                              CanMakeQuery february] limited_user)))
   ≤ totalQueries
       (apiUsage (snd (run [IncrementQueryCount (λ _, Throws (js "down"));
                            CanMakeQuery february] limited_user))))%Z.
Proof. apply run_window. cbn. lia. Defined.

Lemma run_counts_witness :
  totalQueries
    (apiUsage (snd (run [IncrementQueryCount (λ _, Throws (js "down"));
                         CanMakeQuery february;
                         IncrementQueryCount (λ _, Returns tt)]
                      limited_user)))
  = (totalQueries (apiUsage limited_user) + 2)%Z.
Proof.
  apply (run_counts [IncrementQueryCount (λ _, Throws (js "down"));
                     CanMakeQuery february;
                     IncrementQueryCount (λ _, Returns tt)] limited_user).
  - cbn. lia.
  - vm_compute. discriminate.
Defined.

Lemma rejection_leaves_store_witness :
  snd (solve busy_world python_body exhausted_store)
  = with_req_user
      (λ _, resetMonthlyQueries (now busy_world) (req_user exhausted_store))
      exhausted_store.
Proof.
  apply (rejection_leaves_store busy_world python_body exhausted_store
           (TooManyRequests 3 3 free)).
  - vm_compute. reflexivity.
  - left. reflexivity.
Defined.

Lemma created_reply_witness :
  ∃ populated st' pid sid sdoc,
    post_problem accepting_world python_body empty_store
    = (Returns (Created populated), st')
    ∧ populated
      = Some (set_solved sid (new_problem 7 python_body), Some sdoc)
    ∧ db_problems st' !! pid
      = Some (set_solved sid (new_problem 7 python_body))
    ∧ db_solutions st' !! sid = Some sdoc
    ∧ s_problem sdoc = pid
    ∧ req_user st' = countQuery limited_user.
Proof.
  eexists _, _.
  edestruct (created_reply accepting_world python_body empty_store)
    as (pid & sid & sdoc & H1 & _ & H3 & _ & H5 & H6 & _ & H8 & _);
    [vm_compute; reflexivity|].
  exists pid, sid, sdoc. split; [vm_compute; reflexivity|].
  split; [exact H1|]. split; [exact H3|]. split; [exact H5|].
  split; [exact H6|exact H8].
Defined.

Lemma generation_failed_reply_witness :
  ∃ doc st' pid d,
    post_problem failing_ai_world python_body empty_store
    = (Returns (GenerationFailed (js "AI service error: timeout") doc), st')
    ∧ doc = Some d
    ∧ p_status d = failed
    ∧ db_problems st' !! pid = Some d.
Proof.
  eexists _, _.
  edestruct (generation_failed_reply failing_ai_world python_body empty_store)
    as (pid & d & H1 & H2 & _ & _ & H5 & _);
    [vm_compute; reflexivity|].
  exists pid, d. split; [vm_compute; reflexivity|].
  split; [exact H1|]. split; [exact H2|exact H5].
Defined.

Lemma create_failed_reply_witness :
  ∃ st',
    post_problem refusing_store_world python_body empty_store
    = (Returns (CreateFailed (js "disk full")), st')
    ∧ ∃ n, store_error refusing_store_world n = Some (js "disk full").
Proof.
  eexists. split; [vm_compute; reflexivity|].
  eapply (create_failed_reply refusing_store_world python_body empty_store).
  vm_compute. reflexivity.
Defined.

Lemma not_the_owner_witness :
  refused (fst (Routes.toggle_bookmark never admin_request 1 shelf))
  ∧ same_collections shelf
      (snd (Routes.toggle_bookmark never admin_request 1 shelf)).
Proof.
  apply (not_the_owner never admin_request 1 shelf_problem shelf).
  - reflexivity.
  - cbn. lia.
Defined.

Lemma delete_problem_cascade_witness :
  ∃ c',
    Routes.delete_problem never owner_request 1 shelf
    = (Returns (Routes.Ok (js "Problem deleted successfully")), c')
    ∧ Routes.c_problems c' = delete 1 (Routes.c_problems shelf)
    ∧ Routes.c_solutions c' = delete 2 (Routes.c_solutions shelf)
    ∧ Routes.c_users c' = Routes.c_users shelf.
Proof.
  apply (delete_problem_cascade never owner_request 1 shelf_problem shelf).
  - intros n. reflexivity.
  - reflexivity.
  - left. reflexivity.
Defined.

Lemma delete_problem_interrupted_witness :
  ∃ c',
    Routes.delete_problem third_refused owner_request 1 shelf
    = (Returns (Routes.Error 500 (js "Error deleting problem")
                  (Some (js "connection lost"))), c')
    ∧ Routes.c_problems c' !! 1 = Some shelf_problem
    ∧ Routes.c_solutions c' !! 2 = None.
Proof.
  apply (delete_problem_interrupted third_refused owner_request 1
           shelf_problem 2 (js "connection lost") shelf);
    try reflexivity.
  left. reflexivity.
Defined.

Lemma toggle_bookmark_twice_witness :
  ∃ m1 m2 c1 c2,
    Routes.toggle_bookmark never owner_request 1 shelf
    = (Returns (Routes.Ok (m1, Routes.set_bookmarked true shelf_problem)), c1)
    ∧ Routes.c_problems c1
      = <[1 := Routes.set_bookmarked true shelf_problem]>
          (Routes.c_problems shelf)
    ∧ Routes.toggle_bookmark never owner_request 1 c1
      = (Returns (Routes.Ok (m2, shelf_problem)), c2)
    ∧ same_collections shelf c2.
Proof.
  apply (toggle_bookmark_twice never owner_request 1 shelf_problem shelf).
  - intros n. reflexivity.
  - reflexivity.
  - reflexivity.
Defined.

Lemma stats_summary_adds_up_witness :
  ∃ s categories c',
    Routes.stats_summary never owner_request shelf
    = (Returns (Routes.Ok (s, categories)), c')
    ∧ Routes.sum_total s = 1%Z
    ∧ Routes.sum_solved s = 1%Z.
Proof.
  destruct (stats_summary_adds_up never owner_request shelf)
    as (s & categories & c' & Hrun & _ & _);
    [intros n; reflexivity|].
  exists s, categories, c'. split; [exact Hrun|].
  vm_compute in Hrun. injection Hrun as <- _ _. split; reflexivity.
Defined.

Lemma update_user_self_witness :
  ∃ self',
    Routes.c_users
      (snd (Routes.update_user never lenient_schema admin_request 8
              demotion_by_object shelf)) !! 8
    = Some self'
    ∧ Routes.role self' = Routes.role_user.
Proof.
  destruct (update_user_self never lenient_schema admin_request admin_account
              demotion_by_object shelf) as [_ H];
    [reflexivity|reflexivity|].
  apply (H (λ n, eq_refl) eq_refl
           (Routes.JObject [(js "_id", Routes.JString (js "user"))]));
    try reflexivity.
  discriminate.
Defined.

(** What the route answers to the four updates: the string [user] is
    refused and the object that is cast to it is not; the number 0 leaves
    the limit and the string of the digit 0 sets it to 0. *)
Example update_user_examples :
  fst (Routes.update_user never lenient_schema admin_request 8 demotion shelf)
  = Returns (Routes.Error 400 (js "Cannot demote yourself") None)
  ∧ fst (Routes.update_user never lenient_schema admin_request 8
           demotion_by_object shelf)
    = Returns (Routes.Ok (Routes.set_role Routes.role_user admin_account))
  ∧ fst (Routes.update_user never lenient_schema admin_request 7
           zero_limit_update shelf)
    = Returns (Routes.Ok (Routes.set_plan pro owner_account))
  ∧ fst (Routes.update_user never lenient_schema admin_request 7
           zero_string_update shelf)
    = Returns (Routes.Ok (Routes.set_queryLimit 0
                            (Routes.set_plan pro owner_account))).
Proof. repeat split; vm_compute; reflexivity. Qed.

Lemma delete_user_cascade_witness :
  ∃ c',
    Routes.delete_user never admin_request 7 shelf
    = (Returns (Routes.Ok (js "User deleted successfully")), c')
    ∧ Routes.c_users c' = delete 7 (Routes.c_users shelf)
    ∧ Routes.c_problems c' !! 1 = None
    ∧ Routes.c_solutions c' !! 2 = None.
Proof.
  destruct (delete_user_cascade never admin_request 7 owner_account shelf)
    as (c' & Hrun & Hu & Hp & Hs & _).
  - intros n. reflexivity.
  - reflexivity.
  - reflexivity.
  - cbn. lia.
  - exists c'. split; [exact Hrun|]. split; [exact Hu|]. split.
    + destruct (Routes.c_problems c' !! 1) as [p|] eqn:E; [|reflexivity].
      apply Hp in E as [E Hne]. vm_compute in E. injection E as <-.
      exfalso. apply Hne. reflexivity.
    + apply (Hs 1 shelf_problem 2); reflexivity.
Defined.

Lemma protect_admits_witness :
  Routes.protect never one_token (Some (js "Bearer abc")) shelf
  = (Returns (Routes.Ok owner_request), Routes.asked shelf).
Proof.
  apply (protect_admits never one_token (Some (js "Bearer abc")) owner_request
           shelf (Routes.asked shelf)).
  - intros n. reflexivity.
  - split; [|reflexivity]. exists (js "abc").
    split; [vm_compute; reflexivity|]. split; [discriminate|].
    split; [vm_compute; reflexivity|]. split; reflexivity.
Defined.

(** Bearer, two spaces and the token: the second field is empty, and
    the request is turned away. *)
Example two_spaces :
  Routes.protect never one_token (Some (js "Bearer  abc")) shelf
  = (Returns (Routes.Error 401
                (js "Not authorized to access this route. Please login.")
                None), shelf).
Proof. vm_compute. reflexivity. Qed.

(** The blocklist in either case, and two of what it lets through. *)
Example validateCode_examples :
  validateCode (Some (js "EVAL  (x)")) (Some (js "js"))
  = Throws (js "Code contains potentially dangerous operations")
  ∧ validateCode (Some (js "import  Oscillator")) (Some (js "python"))
    = Throws (js "Code contains potentially dangerous operations")
  ∧ validateCode (Some (js "evaluate(x)")) (Some (js "js")) = Returns true
  ∧ validateCode (Some (js "__import__('os')")) (Some (js "python"))
    = Returns true.
Proof. repeat split; vm_compute; reflexivity. Qed.

